(** * Synapse site: the client-side simulation core

    A shallow embedding of the JavaScript simulation modules of the site:

    - [assets/js/quantum/neural-interface.js]  (class QuantumNeuralInterface)
    - [assets/js/quantum/entanglement.js]      (class QuantumEntanglement)
    - [assets/js/quantum/decoherence.js]       (class QuantumDecoherence)
    - [assets/js/neuromorphic/engine.js]       (class NeuromorphicEngine)
    - [assets/js/neuromorphic/plasticity.js]   (class SynapticPlasticity)
    - [assets/js/holographic/wave-simulator.js] (class QuantumWaveSimulator)

    Conventions of the embedding.

    - A JavaScript number is a real number (exact arithmetic); where the
      source can read a property that was never written, the value is a
      [JSNumber], which also has [JUndefined] and [JNaN].
    - A JavaScript [Map] is an association list in insertion order; a
      [WeakMap] keyed by objects is an association list keyed by the
      identity of the object (a DOM element is a [nat] handle, a neuron
      object is named by the id it is registered under).
    - Every method is a computation in the monad [M]: it takes the state of
      the objects it can reach and gives back an [Outcome] (the value
      returned, or the exception thrown) together with the state as the
      method has left it.  The state survives an exception, as it does in
      the browser, where an exception ends one event handler only.
    - [Math.random()] reads the next number of a stream [entropy] carried by
      the state; a random seed is a choice of that stream.
    - Recursion that the source does not bound is given a call-stack depth
      ([fuel]); running out of it is the [RangeError] of the engine.
    - The DOM (style properties, CSS classes, dispatched events, created
      elements) and the delays of timers are outside the model; a timer
      that fires is an operation of its own. *)

From Stdlib Require Import Reals Lra Lia List String Bool Arith.
Import ListNotations.
Open Scope string_scope.
Open Scope R_scope.

(** ** JavaScript values, exceptions and maps *)

Module JS.

Inductive JSError : Type :=
| TypeError    (* property access on undefined, invalid WeakMap key, call of a non-function *)
| RangeError.  (* maximum call stack size exceeded *)

Inductive Outcome (A : Type) : Type :=
| Returned (a : A)
| Threw (e : JSError).

Arguments Returned {A} a.
Arguments Threw {A} e.

(** Comparisons of numbers, as booleans. *)
Definition Rltb (x y : R) : bool := if Rlt_dec x y then true else false.
Definition Rgtb (x y : R) : bool := if Rgt_dec x y then true else false.
Definition Rgeb (x y : R) : bool := if Rge_dec x y then true else false.
Definition Reqb (x y : R) : bool := if Req_dec_T x y then true else false.

Arguments Rltb : simpl never.
Arguments Rgtb : simpl never.
Arguments Rgeb : simpl never.
Arguments Reqb : simpl never.

(** A number-valued property that may never have been written. *)
Inductive JSNumber : Type :=
| JUndefined
| JNaN
| JNum (r : R).

(** [a * k] for a number [k]: [undefined * k] and [NaN * k] are [NaN]. *)
Definition js_mul (a : JSNumber) (k : R) : JSNumber :=
  match a with
  | JNum r => JNum (r * k)
  | _ => JNaN
  end.

(** [a < k]: false as soon as [a] is not a number. *)
Definition js_lt (a : JSNumber) (k : R) : bool :=
  match a with
  | JNum r => Rltb r k
  | _ => false
  end.

(** Truthiness of a string: only the empty string is falsy. *)
Definition truthy (s : string) : bool :=
  match s with
  | EmptyString => false
  | _ => true
  end.

(** Association lists as [Map]s: [set] on a present key replaces the value in
    place, on an absent key appends the entry. *)
Section Maps.
Context {K V : Type} (eqb : K -> K -> bool).

Fixpoint map_get (k : K) (m : list (K * V)) : option V :=
  match m with
  | [] => None
  | (k', v) :: m' => if eqb k k' then Some v else map_get k m'
  end.

Fixpoint map_set (k : K) (v : V) (m : list (K * V)) : list (K * V) :=
  match m with
  | [] => [(k, v)]
  | (k', v') :: m' =>
      if eqb k k' then (k', v) :: m' else (k', v') :: map_set k v m'
  end.

Fixpoint map_delete (k : K) (m : list (K * V)) : list (K * V) :=
  match m with
  | [] => []
  | (k', v') :: m' =>
      if eqb k k' then map_delete k m' else (k', v') :: map_delete k m'
  end.

Definition map_has (k : K) (m : list (K * V)) : bool :=
  match map_get k m with
  | Some _ => true
  | None => false
  end.
End Maps.

(** Typed arrays: [a[i] = v] (a write outside the array is ignored) and
    [new Float32Array(n)]. *)
Fixpoint array_set {A : Type} (i : nat) (v : A) (a : list A) : list A :=
  match a, i with
  | [], _ => []
  | _ :: t, O => v :: t
  | h :: t, S i' => h :: array_set i' v t
  end.

Definition zeros (n : nat) : list R := repeat 0 n.

(** [for (a = 0; a < N; a++) for (b = 0; b < N; b++) acc = body(a, b, acc)] *)
Definition for2 {A : Type} (N : nat) (body : nat -> nat -> A -> A) (init : A) : A :=
  fold_left (fun acc a => fold_left (fun acc' b => body a b acc') (seq 0 N) acc)
            (seq 0 N) init.

(** [for (i = 0; i < n; i++) acc = body(i, acc)] *)
Definition for1 {A : Type} (n : nat) (body : nat -> A -> A) (init : A) : A :=
  fold_left (fun acc i => body i acc) (seq 0 n) init.

(** The state-and-exception monad of a method over the state [S]. *)
Definition M (S A : Type) : Type := S -> Outcome A * S.

Definition ret {S A} (a : A) : M S A := fun s => (Returned a, s).

Definition throw {S A} (e : JSError) : M S A := fun s => (Threw e, s).

Definition bind {S A B} (m : M S A) (k : A -> M S B) : M S B :=
  fun s =>
    match m s with
    | (Returned a, s') => k a s'
    | (Threw e, s') => (Threw e, s')
    end.

Definition gets {S A} (f : S -> A) : M S A := fun s => (Returned (f s), s).

Definition modify {S} (f : S -> S) : M S unit := fun s => (Returned tt, f s).

(** [forEach]: the callback runs on every entry in order; an exception
    leaves the loop. *)
Fixpoint forEach {S A} (l : list A) (f : A -> M S unit) : M S unit :=
  match l with
  | [] => ret tt
  | a :: l' => bind (f a) (fun _ => forEach l' f)
  end.

End JS.

Export JS.

Declare Scope js_scope.
Delimit Scope js_scope with js.
Notation "x <- m ;; k" := (bind m (fun x => k))
  (at level 61, m at next level, right associativity) : js_scope.
Notation "m ;; k" := (bind m (fun _ => k))
  (at level 61, right associativity) : js_scope.
Open Scope js_scope.

(** ** The quantum state registry, the entanglement manager and the
       decoherence monitor *)

Module Quantum.

Inductive Spin : Type := up | down.

(** The second argument of [createEntanglement] is any string; the four tags
    of the [switch] are constructors, every other string is [Malformed]. *)
Inductive BellState : Type :=
| PhiPlus | PhiMinus | PsiPlus | PsiMinus
| Malformed (tag : string).

(** A DOM element, by identity. *)
Definition Element : Type := nat.

(** [node.state].  [generateQuantumState] writes [spin], [phase] and
    [superposition]; [amplitude] is first written by [applyBellState];
    nothing writes [observationCount]. *)
Record QuantumState : Type := mkState {
  spin : Spin;
  phase : R;
  superposition : bool;
  amplitude : JSNumber;
  observationCount : JSNumber
}.

(** An entry of [quantumNodes]: [{element, state, amplitude: 1.0, phase: 0}]. *)
Record QuantumNode : Type := mkNode {
  element : Element;
  state : QuantumState;
  node_amplitude : R;
  node_phase : R
}.

Record World : Type := mkWorld {
  observationThreshold : R;                     (* QNI options *)
  quantumNodes : list (string * QuantumNode);   (* QNI.quantumNodes : Map *)
  entanglements : list (Element * Element);     (* QNI.entanglements : WeakMap *)
  entangledPairs : list (string * string);      (* QuantumEntanglement.entangledPairs : Map *)
  bellStates : list (Element * BellState);      (* QuantumEntanglement.bellStates : WeakMap *)
  measurementBackaction : R;                    (* QuantumDecoherence.environment *)
  entropy : nat -> R;                           (* the numbers Math.random() will give *)
  drawn : nat                                   (* how many it has given *)
}.

Definition set_quantumNodes (f : list (string * QuantumNode) -> list (string * QuantumNode))
  (w : World) : World :=
  mkWorld (observationThreshold w) (f (quantumNodes w)) (entanglements w)
          (entangledPairs w) (bellStates w) (measurementBackaction w)
          (entropy w) (drawn w).

Definition set_entanglements (f : list (Element * Element) -> list (Element * Element))
  (w : World) : World :=
  mkWorld (observationThreshold w) (quantumNodes w) (f (entanglements w))
          (entangledPairs w) (bellStates w) (measurementBackaction w)
          (entropy w) (drawn w).

Definition set_entangledPairs (f : list (string * string) -> list (string * string))
  (w : World) : World :=
  mkWorld (observationThreshold w) (quantumNodes w) (entanglements w)
          (f (entangledPairs w)) (bellStates w) (measurementBackaction w)
          (entropy w) (drawn w).

Definition set_bellStates (f : list (Element * BellState) -> list (Element * BellState))
  (w : World) : World :=
  mkWorld (observationThreshold w) (quantumNodes w) (entanglements w)
          (entangledPairs w) (f (bellStates w)) (measurementBackaction w)
          (entropy w) (drawn w).

Definition set_drawn (n : nat) (w : World) : World :=
  mkWorld (observationThreshold w) (quantumNodes w) (entanglements w)
          (entangledPairs w) (bellStates w) (measurementBackaction w)
          (entropy w) n.

Definition set_spin (s : Spin) (q : QuantumState) : QuantumState :=
  mkState s (phase q) (superposition q) (amplitude q) (observationCount q).
Definition set_phase (p : R) (q : QuantumState) : QuantumState :=
  mkState (spin q) p (superposition q) (amplitude q) (observationCount q).
Definition set_superposition (b : bool) (q : QuantumState) : QuantumState :=
  mkState (spin q) (phase q) b (amplitude q) (observationCount q).
Definition set_amplitude (a : JSNumber) (q : QuantumState) : QuantumState :=
  mkState (spin q) (phase q) (superposition q) a (observationCount q).

Definition set_state (q : QuantumState) (n : QuantumNode) : QuantumNode :=
  mkNode (element n) q (node_amplitude n) (node_phase n).

Definition QM : Type -> Type := M World.

(** [Math.random()] *)
Definition Math_random : QM R :=
  fun w => (Returned (entropy w (drawn w)), set_drawn (S (drawn w)) w).

(** [this.quantumNodes.get(nodeId)] *)
Definition getNode (nodeId : string) : QM (option QuantumNode) :=
  gets (fun w => map_get String.eqb nodeId (quantumNodes w)).

(** [node.state.f = v] for the node registered under [nodeId]; the node
    object is shared by every holder of the id, so the write goes to the
    registry.  Dereferencing a missing node is a [TypeError]. *)
Definition writeState (nodeId : string) (f : QuantumState -> QuantumState) : QM unit :=
  fun w =>
    match map_get String.eqb nodeId (quantumNodes w) with
    | Some node =>
        (Returned tt,
         set_quantumNodes (map_set String.eqb nodeId (set_state (f (state node)) node)) w)
    | None => (Threw TypeError, w)
    end.

(** [node.state.f], read through the registry. *)
Definition readState {A : Type} (nodeId : string) (f : QuantumState -> A) : QM A :=
  fun w =>
    match map_get String.eqb nodeId (quantumNodes w) with
    | Some node => (Returned (f (state node)), w)
    | None => (Threw TypeError, w)
    end.

(** *** neural-interface.js *)

(** [generateQuantumState()] *)
Definition generateQuantumState : QM QuantumState :=
  r1 <- Math_random ;;
  r2 <- Math_random ;;
  ret (mkState (if Rgtb r1 (1/2) then up else down) (r2 * PI * 2) true
               JUndefined JUndefined).

(** [registerQuantumNode(node)]: [qNode] is [node.dataset.qNode] (empty when
    the attribute is absent) and [uuid] what [crypto.randomUUID()] would
    give. *)
Definition registerQuantumNode (node : Element) (qNode uuid : string) : QM string :=
  let nodeId := if truthy qNode then qNode else uuid in
  initialState <- generateQuantumState ;;
  modify (set_quantumNodes
            (map_set String.eqb nodeId (mkNode node initialState 1 0))) ;;
  ret nodeId.

(** [entangleNodes(nodeId1, nodeId2)] *)
Definition entangleNodes (nodeId1 nodeId2 : string) : QM bool :=
  node1 <- getNode nodeId1 ;;
  node2 <- getNode nodeId2 ;;
  match node1, node2 with
  | Some n1, Some n2 =>
      entangledState <- generateQuantumState ;;
      writeState nodeId1 (fun _ => entangledState) ;;
      writeState nodeId2 (fun _ => set_phase (phase entangledState + PI) entangledState) ;;
      modify (set_entanglements (map_set Nat.eqb (element n1) (element n2))) ;;
      modify (set_entanglements (map_set Nat.eqb (element n2) (element n1))) ;;
      ret true
  | _, _ => ret false
  end.

(** [[...this.quantumNodes.entries()].find(([_, data]) => data.element === e)?.[0]] *)
Fixpoint findIdByElement (e : Element) (m : list (string * QuantumNode)) : option string :=
  match m with
  | [] => None
  | (k, data) :: m' => if Nat.eqb (element data) e then Some k else findIdByElement e m'
  end.

(** [collapseWaveFunction(nodeId)].  The call on the entangled node is a
    plain recursive call; [fuel] is the depth of call stack left. *)
Fixpoint collapseWaveFunction (fuel : nat) (nodeId : string) : QM unit :=
  match fuel with
  | O => throw RangeError
  | S fuel' =>
      node <- getNode nodeId ;;
      match node with
      | None => ret tt
      | Some n =>
          writeState nodeId (set_superposition false) ;;
          r <- Math_random ;;
          writeState nodeId (set_spin (if Rgtb r (1/2) then up else down)) ;;
          entangledNode <- gets (fun w => map_get Nat.eqb (element n) (entanglements w)) ;;
          match entangledNode with
          | None => ret tt
          | Some e =>
              entangledId <- gets (fun w => findIdByElement e (quantumNodes w)) ;;
              match entangledId with
              | Some id => if truthy id then collapseWaveFunction fuel' id else ret tt
              | None => ret tt
              end
          end
      end
  end.

(** [scheduleDecoherence(nodeId)] of the interface.  [decoherenceTimers] is a
    [WeakMap] and [nodeId] a string: [has] answers false, [setTimeout] arms
    the timer (see [decoherenceTimeout]) and [set] raises the [TypeError] of
    an invalid WeakMap key. *)
Definition scheduleDecoherence (nodeId : string) : QM unit :=
  throw TypeError.

(** The callback armed by [scheduleDecoherence], when its timer fires. *)
Definition decoherenceTimeout (fuel : nat) (nodeId : string) : QM unit :=
  node <- getNode nodeId ;;
  match node with
  | Some n =>
      if superposition (state n) then collapseWaveFunction fuel nodeId else ret tt
  | None => ret tt
  end.

(** [handleObservation(nodeId)] *)
Definition handleObservation (fuel : nat) (nodeId : string) : QM unit :=
  node <- getNode nodeId ;;
  match node with
  | None => ret tt
  | Some n =>
      if negb (superposition (state n)) then ret tt
      else
        writeState nodeId (fun q => set_amplitude (js_mul (amplitude q) (9/10)) q) ;;
        a <- readState nodeId amplitude ;;
        thr <- gets observationThreshold ;;
        (if js_lt a thr then collapseWaveFunction fuel nodeId else ret tt) ;;
        scheduleDecoherence nodeId
  end.

(** [handleMeasurement(nodeId)]: after the collapse, [node.element] is read
    for [dispatchEvent] without a check. *)
Definition handleMeasurement (fuel : nat) (nodeId : string) : QM unit :=
  collapseWaveFunction fuel nodeId ;;
  node <- getNode nodeId ;;
  match node with
  | Some _ => ret tt
  | None => throw TypeError
  end.

(** *** entanglement.js *)

(** [applyBellState(nodeId1, nodeId2, bellState)]: the writes in the order of
    the source; a tag outside the four leaves spin and phase alone. *)
Definition applyBellState (nodeId1 nodeId2 : string) (bellState : BellState) : QM unit :=
  getNode nodeId1 ;;
  getNode nodeId2 ;;
  match bellState with
  | PhiPlus =>
      writeState nodeId1 (set_spin up) ;;
      writeState nodeId2 (set_spin up) ;;
      writeState nodeId1 (set_phase 0) ;;
      writeState nodeId2 (set_phase 0)
  | PhiMinus =>
      writeState nodeId1 (set_spin up) ;;
      writeState nodeId2 (set_spin up) ;;
      writeState nodeId1 (set_phase 0) ;;
      writeState nodeId2 (set_phase PI)
  | PsiPlus =>
      writeState nodeId1 (set_spin up) ;;
      writeState nodeId2 (set_spin down) ;;
      writeState nodeId1 (set_phase 0) ;;
      writeState nodeId2 (set_phase 0)
  | PsiMinus =>
      writeState nodeId1 (set_spin up) ;;
      writeState nodeId2 (set_spin down) ;;
      writeState nodeId1 (set_phase 0) ;;
      writeState nodeId2 (set_phase PI)
  | Malformed _ => ret tt
  end ;;
  writeState nodeId1 (set_superposition true) ;;
  writeState nodeId2 (set_superposition true) ;;
  writeState nodeId1 (set_amplitude (JNum 1)) ;;
  writeState nodeId2 (set_amplitude (JNum 1)).

(** The property names that every object literal inherits from
    [Object.prototype].  [styleConfig[bellState]] is one of the four styles
    for the four tags, an object or a function without [wave], [twist],
    [width] or [color] for these names, and [undefined] for any other
    string. *)
Definition inheritedKey (tag : string) : bool :=
  existsb (String.eqb tag)
    ["constructor"; "hasOwnProperty"; "isPrototypeOf"; "propertyIsEnumerable";
     "toLocaleString"; "toString"; "valueOf"; "__proto__";
     "__defineGetter__"; "__defineSetter__"; "__lookupGetter__"; "__lookupSetter__"].

(** [createVisualEntanglement(element1, element2, bellState)]: the
    connection lives in the DOM.  Its first frame runs inside the call:
    [animateConnection] calls [renderEntanglementPath], which reads
    [style.wave] on [styleConfig[bellState]] and so raises a [TypeError] when
    that is [undefined]. *)
Definition hasStyle (bellState : BellState) : bool :=
  match bellState with
  | Malformed tag => inheritedKey tag
  | _ => true
  end.

Definition createVisualEntanglement (element1 element2 : Element)
  (bellState : BellState) : QM unit :=
  if hasStyle bellState then ret tt else throw TypeError.

(** [createEntanglement(nodeId1, nodeId2, bellState)] *)
Definition createEntanglement (nodeId1 nodeId2 : string) (bellState : BellState) : QM bool :=
  node1 <- getNode nodeId1 ;;
  node2 <- getNode nodeId2 ;;
  match node1, node2 with
  | Some n1, Some n2 =>
      modify (set_bellStates (map_set Nat.eqb (element n1) bellState)) ;;
      modify (set_bellStates (map_set Nat.eqb (element n2) bellState)) ;;
      modify (set_entangledPairs (map_set String.eqb nodeId1 nodeId2)) ;;
      modify (set_entangledPairs (map_set String.eqb nodeId2 nodeId1)) ;;
      applyBellState nodeId1 nodeId2 bellState ;;
      createVisualEntanglement (element n1) (element n2) bellState ;;
      ret true
  | _, _ => ret false
  end.

(** [verifyBellState(nodeId)]; [None] is [null].  An id without a pair gives
    [quantumNodes.get(undefined)], which is [undefined]. *)
Definition verifyBellState (nodeId : string) : QM (option BellState) :=
  node <- getNode nodeId ;;
  match node with
  | None => ret None
  | Some n =>
      pairedId <- gets (fun w => map_get String.eqb nodeId (entangledPairs w)) ;;
      match pairedId with
      | None => ret None
      | Some pid =>
          pairedNode <- getNode pid ;;
          match pairedNode with
          | None => ret None
          | Some pn =>
              ret (Some
                (match spin (state n), spin (state pn) with
                 | up, up | down, down =>
                     if Reqb (phase (state n)) (phase (state pn)) then PhiPlus else PhiMinus
                 | _, _ =>
                     if Reqb (phase (state n)) (phase (state pn)) then PsiPlus else PsiMinus
                 end))
          end
      end
  end.

(** [breakEntanglement(nodeId)] *)
Definition breakEntanglement (nodeId : string) : QM bool :=
  pairedId <- gets (fun w => map_get String.eqb nodeId (entangledPairs w)) ;;
  match pairedId with
  | None => ret false
  | Some pid =>
      if negb (truthy pid) then ret false
      else
        modify (set_entangledPairs (map_delete String.eqb nodeId)) ;;
        modify (set_entangledPairs (map_delete String.eqb pid)) ;;
        n <- getNode nodeId ;;
        match n with
        | None => throw TypeError
        | Some n =>
            modify (set_bellStates (map_delete Nat.eqb (element n))) ;;
            pn <- getNode pid ;;
            match pn with
            | None => throw TypeError
            | Some pn =>
                modify (set_bellStates (map_delete Nat.eqb (element pn))) ;;
                ret true
            end
        end
  end.

(** *** decoherence.js *)

(** [applyDecoherence(nodeId)].  The rescheduling of the monitor's own timer
    (keyed by the element) and the interaction history only feed the delay of
    the next timer. *)
Definition applyDecoherence (fuel : nat) (nodeId : string) : QM unit :=
  node <- getNode nodeId ;;
  match node with
  | None => ret tt
  | Some _ =>
      r <- Math_random ;;
      backaction <- gets measurementBackaction ;;
      if Rltb r backaction then collapseWaveFunction fuel nodeId
      else
        r' <- Math_random ;;
        writeState nodeId (fun q => set_phase (phase q + (r' - 1/2) * PI / 4) q) ;;
        writeState nodeId (fun q => set_amplitude (js_mul (amplitude q) (9/10)) q) ;;
        a <- readState nodeId amplitude ;;
        if js_lt a (3/10) then collapseWaveFunction fuel nodeId else ret tt
  end.

(** [applyDephasing(nodeId, strength)] *)
Definition applyDephasing (nodeId : string) (strength : R) : QM unit :=
  node <- getNode nodeId ;;
  match node with
  | None => ret tt
  | Some _ =>
      r <- Math_random ;;
      writeState nodeId (fun q => set_phase (phase q + (r - 1/2) * strength * PI) q)
  end.

(** *** The operations a page can trigger, and runs of them *)

Inductive Op : Type :=
| Observe (nodeId : string)                      (* mouseenter: handleObservation *)
| Measure (nodeId : string)                      (* click: handleMeasurement *)
| Collapse (nodeId : string)                     (* collapseWaveFunction *)
| Timeout (nodeId : string)                      (* the interface's decoherence timer fires *)
| Decohere (nodeId : string)                     (* the monitor's timer fires: applyDecoherence *)
| Dephase (nodeId : string) (strength : R)       (* applyDephasing *)
| Entangle (nodeId1 nodeId2 : string) (b : BellState)  (* createEntanglement *)
| EntangleNodes (nodeId1 nodeId2 : string)       (* entangleNodes *)
| Break (nodeId : string).                       (* breakEntanglement *)

Definition runOp (fuel : nat) (op : Op) : QM unit :=
  match op with
  | Observe id => handleObservation fuel id
  | Measure id => handleMeasurement fuel id
  | Collapse id => collapseWaveFunction fuel id
  | Timeout id => decoherenceTimeout fuel id
  | Decohere id => applyDecoherence fuel id
  | Dephase id s => applyDephasing id s
  | Entangle a b t => createEntanglement a b t ;; ret tt
  | EntangleNodes a b => entangleNodes a b ;; ret tt
  | Break id => breakEntanglement id ;; ret tt
  end.

(** Each operation is one event handler: an exception ends the handler and
    the page goes on with the state as it is. *)
Fixpoint runOps (fuel : nat) (ops : list Op) (w : World) : World :=
  match ops with
  | [] => w
  | op :: ops' => runOps fuel ops' (snd (runOp fuel op w))
  end.

Definition isEntangle (op : Op) : bool :=
  match op with
  | Entangle _ _ _ | EntangleNodes _ _ => true
  | _ => false
  end.

End Quantum.

(** ** The environment model of the decoherence monitor *)

Module Decoherence.

(** [this.environment] *)
Record Environment : Type := mkEnvironment {
  temperature : R;
  noiseProfile : list R;
  measurementBackaction : R
}.

(** The options of the monitor, its environment, and the rate that
    [updateDecoherenceRates] keeps. *)
Record Monitor : Type := mkMonitor {
  baseDecoherenceRate : R;
  temperatureFactor : R;
  nonMarkovianity : R;
  environment : Environment;
  currentDecoherenceRate : R
}.

Definition set_environment (e : Environment) (m : Monitor) : Monitor :=
  mkMonitor (baseDecoherenceRate m) (temperatureFactor m) (nonMarkovianity m) e
            (currentDecoherenceRate m).

Definition set_currentDecoherenceRate (r : R) (m : Monitor) : Monitor :=
  mkMonitor (baseDecoherenceRate m) (temperatureFactor m) (nonMarkovianity m)
            (environment m) r.

(** [generateNoiseSpectrum()]: entry [i] is [(0.5 / (i + 1)) * Math.random()];
    [draws i] is the number the call for entry [i] gives. *)
Definition generateNoiseSpectrum (draws : nat -> R) : list R :=
  map (fun i => (5/10) / (INR i + 1) * draws i) (seq 0 256).

(** [updateDecoherenceRates()], on the rate (the rescheduling of the timers
    of the nodes is outside the model). *)
Definition updateDecoherenceRates (m : Monitor) : Monitor :=
  let tempFactor := 1 + (temperature (environment m) - 300) * temperatureFactor m in
  set_currentDecoherenceRate (baseDecoherenceRate m * tempFactor) m.

(** The callback of the [setInterval] of [initEnvironmentMonitoring], when
    [Date.now()] is [now]. *)
Definition environmentTick (now : R) (m : Monitor) : Monitor :=
  updateDecoherenceRates
    (set_environment
       (mkEnvironment (300 + sin (now / 60000) * 50)
                      (noiseProfile (environment m))
                      (measurementBackaction (environment m))) m).

(** The [devicemotion] listener, on an event of acceleration [(x, y, z)]. *)
Definition onDeviceMotion (x y z : R) (m : Monitor) : Monitor :=
  let acceleration := sqrt (x ^ 2 + y ^ 2 + z ^ 2) in
  set_environment
    (mkEnvironment (temperature (environment m)) (noiseProfile (environment m))
                   (Rmin (2/10) (acceleration / 20))) m.

(** The monitor as its constructor leaves it, with the default options. *)
Definition newMonitor (draws : nat -> R) : Monitor :=
  updateDecoherenceRates
    (mkMonitor (1/1000) (1/100) (3/10)
               (mkEnvironment 300 (generateNoiseSpectrum draws) (5/100)) 0).

(** [resetEnvironment()] *)
Definition resetEnvironment (draws : nat -> R) (m : Monitor) : Monitor :=
  updateDecoherenceRates
    (set_environment (mkEnvironment 300 (generateNoiseSpectrum draws) (5/100)) m).

(** Truthiness of a number-valued property: [undefined], [NaN] and [0] are
    falsy. *)
Definition truthyNumber (c : JSNumber) : bool :=
  match c with
  | JNum r => negb (Reqb r 0)
  | _ => false
  end.

(** [calculateCoherenceTime(node)]: [historyCount] is the [count] of the
    node's interaction history ([0] when it has none), [observationCount] is
    [node.state.observationCount] and [now] is [Date.now()]. *)
Definition calculateCoherenceTime (m : Monitor) (historyCount : nat)
  (observationCount : JSNumber) (now : nat) : R :=
  let baseTime := 1000 / currentDecoherenceRate m in
  let memoryFactor :=
    1 - nonMarkovianity m * (INR historyCount / (INR historyCount + 5)) in
  let zenoFactor :=
    match observationCount with
    | JNum c => if truthyNumber observationCount then 1 + ln (c + 1) / ln 10 else 1
    | _ => 1
    end in
  let noiseIndex := (now mod List.length (noiseProfile (environment m)))%nat in
  let noiseFactor := 1 + (nth noiseIndex (noiseProfile (environment m)) 0 * 2 - 1) in
  baseTime * memoryFactor * zenoFactor * noiseFactor / 1000.

End Decoherence.

(** ** The neural simulation engine and the plasticity rules *)

Module Neuro.

Definition Element : Type := nat.

Inductive TransmitterType : Type := glutamate | GABA | dopamine.

Record Neurotransmitter : Type := mkTransmitter {
  ntype : TransmitterType;
  strength : R
}.

(** A neuron object; [synapses] is a [Set] of ids, in insertion order. *)
Record Neuron : Type := mkNeuron {
  membranePotential : R;
  firingThreshold : R;
  lastFired : R;
  synapses : list string;
  neurotransmitter : Neurotransmitter
}.

(** An entry of [neuronActivity] (the [trace] array only records history). *)
Record Activity : Type := mkActivity {
  recent : R;
  average : R
}.

(** [{preTime, postTime}], the [spikeData] of the STDP rule. *)
Record SpikeData : Type := mkSpike {
  preTime : R;
  postTime : R
}.

(** The engine together with its plasticity module.  The weights live in
    [hebbianWeights]: a WeakMap from the element of the presynaptic node to a
    WeakMap from the postsynaptic neuron object, named here by its id, to the
    weight. *)
Record Network : Type := mkNetwork {
  learningRate : R;                                   (* engine options *)
  maxSynapses : nat;
  decayRate : R;
  bcmThreshold : R;                                   (* plasticity options *)
  homeostasisRate : R;
  dopamineModulation : R;
  qniNodes : list (string * Element);                 (* engine.qni.quantumNodes, id to element *)
  neuralNetwork : list (string * Neuron);             (* engine.neuralNetwork : Map *)
  hebbianWeights : list (Element * list (string * R));
  neuronActivity : list (Element * Activity);         (* plasticity.neuronActivity : WeakMap *)
  entropy : nat -> R;
  drawn : nat
}.

Definition set_neuralNetwork (f : list (string * Neuron) -> list (string * Neuron))
  (n : Network) : Network :=
  mkNetwork (learningRate n) (maxSynapses n) (decayRate n) (bcmThreshold n)
            (homeostasisRate n) (dopamineModulation n) (qniNodes n)
            (f (neuralNetwork n)) (hebbianWeights n) (neuronActivity n)
            (entropy n) (drawn n).

Definition set_hebbianWeights
  (f : list (Element * list (string * R)) -> list (Element * list (string * R)))
  (n : Network) : Network :=
  mkNetwork (learningRate n) (maxSynapses n) (decayRate n) (bcmThreshold n)
            (homeostasisRate n) (dopamineModulation n) (qniNodes n)
            (neuralNetwork n) (f (hebbianWeights n)) (neuronActivity n)
            (entropy n) (drawn n).

Definition set_drawn (k : nat) (n : Network) : Network :=
  mkNetwork (learningRate n) (maxSynapses n) (decayRate n) (bcmThreshold n)
            (homeostasisRate n) (dopamineModulation n) (qniNodes n)
            (neuralNetwork n) (hebbianWeights n) (neuronActivity n)
            (entropy n) k.

Definition set_neuronActivity
  (f : list (Element * Activity) -> list (Element * Activity)) (n : Network) : Network :=
  mkNetwork (learningRate n) (maxSynapses n) (decayRate n) (bcmThreshold n)
            (homeostasisRate n) (dopamineModulation n) (qniNodes n)
            (neuralNetwork n) (hebbianWeights n) (f (neuronActivity n))
            (entropy n) (drawn n).

Definition set_synapses (s : list string) (x : Neuron) : Neuron :=
  mkNeuron (membranePotential x) (firingThreshold x) (lastFired x) s (neurotransmitter x).

Definition set_membranePotential (p : R) (x : Neuron) : Neuron :=
  mkNeuron p (firingThreshold x) (lastFired x) (synapses x) (neurotransmitter x).

Definition NM : Type -> Type := M Network.

Definition Math_random : NM R :=
  fun n => (Returned (entropy n (drawn n)), set_drawn (S (drawn n)) n).

(** [this.neuralNetwork.get(id)] *)
Definition getNeuron (id : string) : NM (option Neuron) :=
  gets (fun n => map_get String.eqb id (neuralNetwork n)).

(** [this.qni.quantumNodes.get(id).element]: a [TypeError] on a missing id. *)
Definition elementOf (id : string) : NM Element :=
  fun n =>
    match map_get String.eqb id (qniNodes n) with
    | Some e => (Returned e, n)
    | None => (Threw TypeError, n)
    end.

(** [this.hebbianWeights.get(element)] *)
Definition getWeightMap (e : Element) : NM (option (list (string * R))) :=
  gets (fun n => map_get Nat.eqb e (hebbianWeights n)).

(** [weightMap.get(postNeuron)] on the weight map of [e]; a [TypeError] when
    that map is [undefined]. *)
Definition weightGet (e : Element) (postId : string) : NM (option R) :=
  fun n =>
    match map_get Nat.eqb e (hebbianWeights n) with
    | Some wm => (Returned (map_get String.eqb postId wm), n)
    | None => (Threw TypeError, n)
    end.

(** [weightMap.set(postNeuron, v)] on the weight map of [e]. *)
Definition weightSet (e : Element) (postId : string) (v : R) : NM unit :=
  fun n =>
    match map_get Nat.eqb e (hebbianWeights n) with
    | Some wm =>
        (Returned tt,
         set_hebbianWeights (map_set Nat.eqb e (map_set String.eqb postId v wm)) n)
    | None => (Threw TypeError, n)
    end.

(** [x || 0] *)
Definition orZero (x : option R) : R :=
  match x with
  | Some r => r
  | None => 0
  end.

(** [Math.max(0, Math.min(1, x))] *)
Definition clamp01 (x : R) : R := Rmax 0 (Rmin 1 x).

(** *** engine.js *)

(** [randomNeurotransmitter()]: [types[Math.floor(Math.random() * 3)]] *)
Definition randomNeurotransmitter : NM Neurotransmitter :=
  r <- Math_random ;;
  ret (if Rltb (r * 3) 1 then mkTransmitter glutamate (12/10)
       else if Rltb (r * 3) 2 then mkTransmitter GABA (-(8/10))
       else mkTransmitter dopamine (5/10)).

(** [registerNeuron(nodeId)] *)
Definition registerNeuron (nodeId : string) : NM unit :=
  node <- gets (fun n => map_get String.eqb nodeId (qniNodes n)) ;;
  known <- gets (fun n => map_has String.eqb nodeId (neuralNetwork n)) ;;
  match node with
  | None => ret tt
  | Some e =>
      if known then ret tt
      else
        r <- Math_random ;;
        t <- randomNeurotransmitter ;;
        modify (set_neuralNetwork
                  (map_set String.eqb nodeId (mkNeuron 0 (8/10 + r * (4/10)) 0 [] t))) ;;
        modify (set_hebbianWeights (map_set Nat.eqb e []))
  end.

(** [this.removeSynapticConnection(nodeId, weakestId)]: the class defines no
    method of that name, so the call of [undefined] raises a [TypeError]. *)
Definition removeSynapticConnection (preId postId : string) : NM unit :=
  throw TypeError.

(** [weightMap.get(this.neuralNetwork.get(id))]: the key of a weight is the
    neuron object, [undefined] when no neuron is registered under [id]. *)
Definition weightOfNeuron (nn : list (string * Neuron)) (wm : list (string * R))
  (id : string) : option R :=
  match map_get String.eqb id nn with
  | Some _ => map_get String.eqb id wm
  | None => None
  end.

(** The [forEach] of [pruneWeakestSynapse]: the scan for the smallest weight,
    from [weakestId = null] and [minWeight = 1]. *)
Fixpoint scanWeakest (nn : list (string * Neuron)) (wm : list (string * R))
  (syn : list string) (weakestId : option string) (minWeight : R) : option string * R :=
  match syn with
  | [] => (weakestId, minWeight)
  | synapseId :: syn' =>
      match weightOfNeuron nn wm synapseId with
      | Some weight =>
          if Rltb weight minWeight
          then scanWeakest nn wm syn' (Some synapseId) weight
          else scanWeakest nn wm syn' weakestId minWeight
      | None => scanWeakest nn wm syn' weakestId minWeight   (* undefined < minWeight *)
      end
  end.

(** [set.delete(x)] *)
Definition set_remove (x : string) (s : list string) : list string :=
  filter (fun y => negb (String.eqb x y)) s.

(** [set.has(x)] *)
Definition set_has (x : string) (s : list string) : bool :=
  existsb (String.eqb x) s.

(** [neuron.synapses = g(neuron.synapses)] on the neuron registered under [id]. *)
Definition updateSynapses (id : string) (g : list string -> list string) : NM unit :=
  modify (set_neuralNetwork (fun nn =>
    match map_get String.eqb id nn with
    | Some x => map_set String.eqb id (set_synapses (g (synapses x)) x) nn
    | None => nn
    end)).

(** [pruneWeakestSynapse(nodeId)] *)
Definition pruneWeakestSynapse (nodeId : string) : NM unit :=
  neuron <- getNeuron nodeId ;;
  match neuron with
  | None => ret tt
  | Some x =>
      e <- elementOf nodeId ;;
      weightMap <- getWeightMap e ;;
      match weightMap, synapses x with
      | None, _ :: _ => throw TypeError          (* weightMap.get on undefined *)
      | None, [] => ret tt
      | Some wm, syn =>
          nn <- gets neuralNetwork ;;
          match fst (scanWeakest nn wm syn None 1) with
          | Some weakestId =>
              if truthy weakestId then
                updateSynapses nodeId (set_remove weakestId) ;;
                removeSynapticConnection nodeId weakestId
              else ret tt
          | None => ret tt
          end
      end
  end.

(** [formSynapse(preId, postId, initialWeight)] *)
Definition formSynapse (preId postId : string) (initialWeight : R) : NM bool :=
  if String.eqb preId postId then ret false
  else
    preNeuron <- getNeuron preId ;;
    postNeuron <- getNeuron postId ;;
    match preNeuron, postNeuron with
    | Some pre, Some _ =>
        if set_has postId (synapses pre) then ret true
        else
          cap <- gets maxSynapses ;;
          (if Nat.leb cap (List.length (synapses pre))
           then pruneWeakestSynapse preId else ret tt) ;;
          updateSynapses preId (fun s => app s [postId]) ;;
          e <- elementOf preId ;;
          weightSet e postId initialWeight ;;
          ret true
    | _, _ => ret false
    end.

(** *** plasticity.js *)

(** The callback of the first [setInterval] of [initPlasticityMonitor]: the
    moving average of every neuron's activity. *)
Definition trackActivity : NM unit :=
  nn <- gets neuralNetwork ;;
  forEach nn (fun entry =>
    let '(nodeId, _) := entry in
    element <- gets (fun n => map_get String.eqb nodeId (qniNodes n)) ;;
    match element with
    | None => ret tt
    | Some e =>
        activity <- gets (fun n =>
          match map_get Nat.eqb e (neuronActivity n) with
          | Some a => a
          | None => mkActivity 0 (1/10)
          end) ;;
        let average' := average activity * (9/10) + recent activity * (1/10) in
        let recent' := recent activity * (5/10) in
        modify (set_neuronActivity (map_set Nat.eqb e (mkActivity recent' average')))
    end).

(** [tagSynapse(preId, postId, tagType, strength)].  [synapticTagging] is a
    [WeakMap] and the key the string [`${preId}-${postId}`]: [get] answers
    [undefined] and [set] raises the [TypeError] of an invalid WeakMap key. *)
Definition tagSynapse (preId postId : string) (strength : R) : NM unit :=
  throw TypeError.

(** [applyHebbianRule(preId, postId)] *)
Definition applyHebbianRule (preId postId : string) : NM bool :=
  preNeuron <- getNeuron preId ;;
  postNeuron <- getNeuron postId ;;
  match preNeuron, postNeuron with
  | Some pre, Some post =>
      e <- elementOf preId ;;
      w <- weightGet e postId ;;
      let currentWeight := orZero w in
      let activityProduct :=
        Rmin (membranePotential pre) 1 * Rmin (membranePotential post) 1 in
      lr <- gets learningRate ;;
      let weightChange := lr * activityProduct in
      let newWeight := clamp01 (currentWeight + weightChange) in
      weightSet e postId newWeight ;;
      ret true
  | _, _ => ret false
  end.

(** [applyBCMRule(preId, postId)]: the element of [postId] is read before the
    check of the three lookups. *)
Definition applyBCMRule (preId postId : string) : NM bool :=
  preNeuron <- getNeuron preId ;;
  postNeuron <- getNeuron postId ;;
  postElement <- elementOf postId ;;
  match preNeuron, postNeuron with
  | Some pre, Some post =>
      activity <- gets (fun n => map_get Nat.eqb postElement (neuronActivity n)) ;;
      match activity with
      | None => ret false
      | Some act =>
          e <- elementOf preId ;;
          w <- weightGet e postId ;;
          let currentWeight := orZero w in
          thr <- gets bcmThreshold ;;
          let theta := average act * thr in
          let postActivity := Rmin (membranePotential post) 1 in
          let preActivity := Rmin (membranePotential pre) 1 in
          lr <- gets learningRate ;;
          let weightChange := lr * postActivity * (postActivity - theta) * preActivity in
          let newWeight := clamp01 (currentWeight + weightChange) in
          weightSet e postId newWeight ;;
          (if Rgtb (Rabs weightChange) (1/10)
           then tagSynapse preId postId weightChange else ret tt) ;;
          ret true
      end
  | _, _ => ret false
  end.

(** [applyOjaRule(preId, postId)] *)
Definition applyOjaRule (preId postId : string) : NM bool :=
  preNeuron <- getNeuron preId ;;
  postNeuron <- getNeuron postId ;;
  match preNeuron, postNeuron with
  | Some pre, Some post =>
      e <- elementOf preId ;;
      w <- weightGet e postId ;;
      let currentWeight := orZero w in
      let postActivity := Rmin (membranePotential post) 1 in
      let preActivity := Rmin (membranePotential pre) 1 in
      lr <- gets learningRate ;;
      let weightChange :=
        lr * (preActivity * postActivity - currentWeight * postActivity * postActivity) in
      let newWeight := clamp01 (currentWeight + weightChange) in
      weightSet e postId newWeight ;;
      ret true
  | _, _ => ret false
  end.

(** [applySTDPRule(preId, postId, spikeData)]: no lookup is checked.  With no
    neuron under [postId] the key of the weight map is [undefined]: [get]
    answers [undefined] and [set] raises a [TypeError]. *)
Definition applySTDPRule (preId postId : string) (spikeData : SpikeData) : NM bool :=
  let deltaT := postTime spikeData - preTime spikeData in
  e <- elementOf preId ;;
  postNeuron <- getNeuron postId ;;
  w <- weightGet e postId ;;
  let currentWeight := match postNeuron with Some _ => orZero w | None => 0 end in
  let tauPlus := 20 in
  let tauMinus := 20 in
  let aPlus := 1/10 in
  let aMinus := 12/100 in
  let weightChange :=
    if Rgtb deltaT 0 then aPlus * exp (- deltaT / tauPlus)
    else - aMinus * exp (deltaT / tauMinus) in
  let newWeight := clamp01 (currentWeight + weightChange) in
  match postNeuron with
  | Some _ => weightSet e postId newWeight ;; ret true
  | None => throw TypeError
  end.

(** The keys of [plasticityRules]; any other rule name has no entry. *)
Inductive RuleName : Type :=
| hebbian | bcm | oja | stdp
| unknownRule (name : string).

(** [applyPlasticityRule(ruleName, preId, postId, spikeData)] *)
Definition applyPlasticityRule (ruleName : RuleName) (preId postId : string)
  (spikeData : SpikeData) : NM bool :=
  match ruleName with
  | hebbian => applyHebbianRule preId postId
  | bcm => applyBCMRule preId postId
  | oja => applyOjaRule preId postId
  | stdp => applySTDPRule preId postId spikeData
  | unknownRule _ => ret false
  end.

(** [scaleSynapse(preId, postId, factor)] *)
Definition scaleSynapse (preId postId : string) (factor : R) : NM unit :=
  e <- elementOf preId ;;
  weightMap <- getWeightMap e ;;
  postNeuron <- getNeuron postId ;;
  match weightMap, postNeuron with
  | Some wm, Some _ =>
      let currentWeight := orZero (map_get String.eqb postId wm) in
      let newWeight := clamp01 (currentWeight * factor) in
      weightSet e postId newWeight
  | _, _ => ret tt
  end.

(** [applyHomeostaticPlasticity()] *)
Definition applyHomeostaticPlasticity : NM unit :=
  nn <- gets neuralNetwork ;;
  forEach nn (fun entry =>
    let '(nodeId, neuron) := entry in
    element <- gets (fun n => map_get String.eqb nodeId (qniNodes n)) ;;
    match element with
    | None => ret tt
    | Some e =>
        activity <- gets (fun n => map_get Nat.eqb e (neuronActivity n)) ;;
        match activity with
        | None => ret tt
        | Some act =>
            let targetActivity := 3/10 in
            rate <- gets homeostasisRate ;;
            let scalingFactor := 1 + (targetActivity - average act) * rate in
            forEach (synapses neuron) (fun postId =>
              scaleSynapse nodeId postId scalingFactor)
        end
    end).

(** An entry of the tag table as [applyDopaminergicModulation] reads it: the
    two tags of the synapse and the two ids of the key. *)
Record TagEntry : Type := mkTag {
  lateLTP : bool;
  lateLTD : bool;
  tagPre : string;
  tagPost : string
}.

(** The callback that [applyDopaminergicModulation] hands to [forEach]. *)
Definition modulateTagged (rewardSignal : R) (t : TagEntry) : NM unit :=
  dm <- gets dopamineModulation ;;
  let modulation := 1 + rewardSignal * dm in
  if lateLTP t && Rgtb rewardSignal 0
  then scaleSynapse (tagPre t) (tagPost t) modulation
  else if lateLTD t && Rltb rewardSignal 0
  then scaleSynapse (tagPre t) (tagPost t) (1 / modulation)
  else ret tt.

(** [applyDopaminergicModulation(rewardSignal)]: [synapticTagging] is a
    [WeakMap], which has no [forEach]; the call raises a [TypeError] before
    the callback [modulateTagged] runs on any entry. *)
Definition applyDopaminergicModulation (rewardSignal : R) : NM unit :=
  throw TypeError.

(** *** engine.js: the spikes *)

Definition set_lastFired (t : R) (x : Neuron) : Neuron :=
  mkNeuron (membranePotential x) (firingThreshold x) t (synapses x) (neurotransmitter x).

(** A write to a field of the neuron object registered under [id]. *)
Definition updateNeuron (id : string) (g : Neuron -> Neuron) : NM unit :=
  modify (set_neuralNetwork (fun nn =>
    match map_get String.eqb id nn with
    | Some x => map_set String.eqb id (g x) nn
    | None => nn
    end)).

(** [propagateSpike(preId, postId)] *)
Definition propagateSpike (preId postId : string) : NM unit :=
  preNeuron <- getNeuron preId ;;
  postNeuron <- getNeuron postId ;;
  match preNeuron, postNeuron with
  | Some pre, Some _ =>
      e <- elementOf preId ;;
      w <- weightGet e postId ;;
      let weight := orZero w in
      updateNeuron postId (fun x =>
        set_membranePotential
          (membranePotential x + weight * strength (neurotransmitter pre)) x)
  | _, _ => ret tt
  end.

(** [fireNeuron(nodeId)], when [performance.now()] is [now]. *)
Definition fireNeuron (now : R) (nodeId : string) : NM unit :=
  neuron <- getNeuron nodeId ;;
  match neuron with
  | None => ret tt
  | Some x =>
      elementOf nodeId ;;
      updateNeuron nodeId (set_lastFired now) ;;
      forEach (synapses x) (fun postId => propagateSpike nodeId postId)
  end.

(** [globalNetworkUpdate()]: one tick of the 60 Hz loop.  The loop visits the
    neuron objects themselves, so each turn sees what the earlier turns have
    written. *)
Definition globalNetworkUpdate (now : R) : NM unit :=
  nn <- gets neuralNetwork ;;
  forEach (map fst nn) (fun nodeId =>
    decay <- gets decayRate ;;
    updateNeuron nodeId (fun x =>
      set_membranePotential (membranePotential x * decay) x) ;;
    neuron <- getNeuron nodeId ;;
    match neuron with
    | Some x =>
        if Rgtb (membranePotential x) (firingThreshold x)
        then fireNeuron now nodeId ;;
             updateNeuron nodeId (set_membranePotential 0)
        else ret tt
    | None => ret tt
    end).

(** An entry of [spikeHistory]: [{time, type}] with [type] 'pre' or 'post'. *)
Record Spike : Type := mkSpikeEntry {
  spikeTime : R;
  isPre : bool
}.

(** [applySTDPLearning(nodeId, postSpikeTime)]; [spikeHistory] is the WeakMap
    of the engine, which the method only reads.  The read of the weight is
    guarded ([weightMap?.get]), the write is not. *)
Definition applySTDPLearning (spikeHistory : list (Element * Spike))
  (nodeId : string) (postSpikeTime : R) : NM unit :=
  neuron <- getNeuron nodeId ;;
  match neuron with
  | None => ret tt
  | Some x =>
      forEach (synapses x) (fun synapseId =>
        preNeuron <- getNeuron synapseId ;;
        match preNeuron with
        | None => ret tt
        | Some _ =>
            preElement <- elementOf synapseId ;;
            match map_get Nat.eqb preElement spikeHistory with
            | Some preSpike =>
                if isPre preSpike then
                  let deltaT := postSpikeTime - spikeTime preSpike in
                  weightMap <- getWeightMap preElement ;;
                  let currentWeight :=
                    match weightMap with
                    | Some wm => orZero (map_get String.eqb nodeId wm)
                    | None => 0
                    end in
                  lr <- gets learningRate ;;
                  let weightChange :=
                    if Rgtb deltaT 0 then lr * exp (- deltaT / 20)
                    else - lr * exp (deltaT / 20) * (5/10) in
                  let newWeight := clamp01 (currentWeight + weightChange) in
                  weightSet preElement nodeId newWeight
                else ret tt
            | None => ret tt
            end
        end)
  end.

End Neuro.

(** ** The wavefunction solver *)

Module Wave.

Record Options : Type := mkOptions {
  resolution : nat;
  dt : R;
  dx : R;
  hbar : R;
  potentialScale : R;
  nonlinearity : R
}.

(** The three [Float32Array]s of a wavefunction; [psi] and [kSpace] hold the
    real and the imaginary part of cell [i] at [2*i] and [2*i+1].  They are
    created with the even length [resolution * resolution * 2], so
    [length / 2] is the number of cells; a read is always inside the array. *)
Record Wavefunction : Type := mkWave {
  psi : list R;
  potential : list R;
  kSpace : list R
}.

(** [this.fft]: [transform(input, output)] and [inverse(input, output)] are
    called for what they do to the two arrays; each gives the contents of
    [(input, output)] after the call. *)
Record FFT : Type := mkFFT {
  transform : list R -> list R -> list R * list R;
  inverse : list R -> list R -> list R * list R
}.

(** [applyInitialCondition(wavefunction, conditionFn)] on the array [psi] *)
Definition applyInitialCondition (o : Options) (conditionFn : R -> R -> R * R)
  (psi0 : list R) : list R :=
  for2 (resolution o) (fun y x a =>
    let idx := ((y * resolution o + x) * 2)%nat in
    let normX := INR x / INR (resolution o) * 2 - 1 in
    let normY := INR y / INR (resolution o) * 2 - 1 in
    let c := conditionFn normX normY in
    array_set (idx + 1) (snd c) (array_set idx (fst c) a)) psi0.

(** [applyGaussianPacket(wavefunction)] *)
Definition applyGaussianPacket (o : Options) (psi0 : list R) : list R :=
  let centerX := 0 in
  let centerY := 0 in
  let sigma := 2/10 in
  applyInitialCondition o (fun x y =>
    let r2 := (x - centerX) ^ 2 + (y - centerY) ^ 2 in
    (exp (- r2 / (2 * sigma ^ 2)), 0)) psi0.

(** [applyHarmonicPotential(wavefunction)] on the array [potential] *)
Definition applyHarmonicPotential (o : Options) (pot0 : list R) : list R :=
  for2 (resolution o) (fun y x a =>
    let idx := (y * resolution o + x)%nat in
    let normX := INR x / INR (resolution o) * 2 - 1 in
    let normY := INR y / INR (resolution o) * 2 - 1 in
    array_set idx (potentialScale o * (normX ^ 2 + normY ^ 2)) a) pot0.

(** [createWavefunction(id)] with the default Gaussian packet *)
Definition createWavefunction (o : Options) : Wavefunction :=
  let n2 := (resolution o * resolution o)%nat in
  mkWave (applyGaussianPacket o (zeros (n2 * 2)))
         (applyHarmonicPotential o (zeros n2))
         (zeros (n2 * 2)).

(** Steps 1 and 5 of [stepWavefunction]: the half step in position space. *)
Definition halfStep (o : Options) (pot : list R) (psi0 : list R) : list R :=
  for1 (List.length psi0 / 2) (fun i a =>
    let re := nth (i * 2) a 0 in
    let im := nth (i * 2 + 1) a 0 in
    let V := nth i pot 0 in
    let psi2 := re ^ 2 + im ^ 2 in
    let nonlinearRe := - nonlinearity o * psi2 * im in
    let nonlinearIm := nonlinearity o * psi2 * re in
    let potentialRe := V * im / hbar o in
    let potentialIm := - V * re / hbar o in
    array_set (i * 2 + 1) (im + (nonlinearIm + potentialIm) * dt o / 2)
      (array_set (i * 2) (re + (nonlinearRe + potentialRe) * dt o / 2) a)) psi0.

(** Step 3: the full step in momentum space. *)
Definition kineticStep (o : Options) (k0 : list R) : list R :=
  let N := resolution o in
  for2 N (fun ky kx a =>
    let idx := ((ky * N + kx) * 2)%nat in
    let kxAdjusted := if Rgtb (INR kx) (INR N / 2) then INR kx - INR N else INR kx in
    let kyAdjusted := if Rgtb (INR ky) (INR N / 2) then INR ky - INR N else INR ky in
    let k2 := (kxAdjusted ^ 2 + kyAdjusted ^ 2) / (INR N * dx o) ^ 2 in
    let phase := - hbar o * k2 * dt o in
    let re := nth idx a 0 in
    let im := nth (idx + 1) a 0 in
    array_set (idx + 1) (re * sin phase + im * cos phase)
      (array_set idx (re * cos phase - im * sin phase) a)) k0.

(** The sum of [normalizeWavefunction]. *)
Definition normSum (psi0 : list R) : R :=
  for1 (List.length psi0 / 2) (fun i norm =>
    norm + (nth (i * 2) psi0 0 ^ 2 + nth (i * 2 + 1) psi0 0 ^ 2)) 0.

Definition normOf (o : Options) (psi0 : list R) : R :=
  sqrt (normSum psi0 * dx o * dx o).

(** [normalizeWavefunction(wavefunction)] on the array [psi] *)
Definition normalizeWavefunction (o : Options) (psi0 : list R) : list R :=
  let norm := normOf o psi0 in
  if Rgtb norm 0 then
    let scale := 1 / norm in
    map (fun v => v * scale) psi0
  else psi0.

(** [stepWavefunction] up to and including step 5. *)
Definition beforeNormalize (o : Options) (fft : FFT) (wf : Wavefunction) : Wavefunction :=
  let psi1 := halfStep o (potential wf) (psi wf) in
  let '(psi2, k2) := transform fft psi1 (kSpace wf) in
  let k3 := kineticStep o k2 in
  let '(k4, psi4) := inverse fft k3 psi2 in
  let psi5 := halfStep o (potential wf) psi4 in
  mkWave psi5 (potential wf) k4.

(** [stepWavefunction(wavefunction)] *)
Definition stepWavefunction (o : Options) (fft : FFT) (wf : Wavefunction) : Wavefunction :=
  let wf5 := beforeNormalize o fft wf in
  mkWave (normalizeWavefunction o (psi wf5)) (potential wf5) (kSpace wf5).

(** [directFourierTransform(data)] *)
Definition directFourierTransform (o : Options) (data : list R) : list R :=
  let N := resolution o in
  for2 N (fun ky kx output =>
    let sums :=
      for2 N (fun y x (acc : R * R) =>
        let idx := ((y * N + x) * 2)%nat in
        let angle := - 2 * PI * ((INR kx * INR x + INR ky * INR y) / INR N) in
        (fst acc + (nth idx data 0 * cos angle - nth (idx + 1) data 0 * sin angle),
         snd acc + (nth idx data 0 * sin angle + nth (idx + 1) data 0 * cos angle)))
        (0, 0) in
    let outIdx := ((ky * N + kx) * 2)%nat in
    array_set (outIdx + 1) (snd sums / INR N)
      (array_set outIdx (fst sums / INR N) output))
    (zeros (List.length data)).

(** [inverseFourierTransform(data)] *)
Definition inverseFourierTransform (o : Options) (data : list R) : list R :=
  let N := resolution o in
  for2 N (fun y x output =>
    let sums :=
      for2 N (fun ky kx (acc : R * R) =>
        let idx := ((ky * N + kx) * 2)%nat in
        let angle := 2 * PI * ((INR kx * INR x + INR ky * INR y) / INR N) in
        (fst acc + (nth idx data 0 * cos angle - nth (idx + 1) data 0 * sin angle),
         snd acc + (nth idx data 0 * sin angle + nth (idx + 1) data 0 * cos angle)))
        (0, 0) in
    let outIdx := ((y * N + x) * 2)%nat in
    array_set (outIdx + 1) (snd sums)
      (array_set outIdx (fst sums) output))
    (zeros (List.length data)).

(** The object that [initSimulationEngine] installs when no FFT library is
    loaded: [{transform: (data) => this.directFourierTransform(data),
    inverse: (data) => this.inverseFourierTransform(data)}].  Each arrow
    function takes the first argument only and returns a new array;
    [stepWavefunction] drops what the call returns, so neither array of the
    call changes. *)
Definition fallbackFFT (o : Options) : FFT :=
  mkFFT (fun data out => let _ := directFourierTransform o data in (data, out))
        (fun data out => let _ := inverseFourierTransform o data in (data, out)).

(** [calculateProbabilityDensity(wavefunction)] *)
Definition calculateProbabilityDensity (o : Options) (wf : Wavefunction) : list R :=
  for1 (List.length (psi wf) / 2) (fun i density =>
    array_set i (nth (i * 2) (psi wf) 0 ^ 2 + nth (i * 2 + 1) (psi wf) 0 ^ 2) density)
    (zeros (resolution o * resolution o)).

End Wave.

(** ** Properties of the quantum subsystem, and sample pages *)

Module QuantumProps.
Import Quantum.

(** [liftsTo P w w']: every node of [w] is still registered in [w'], on the
    same element, with its state related by [P]. *)
Definition liftsTo (P : QuantumState -> QuantumState -> Prop) (w w' : World) : Prop :=
  forall id n, map_get String.eqb id (quantumNodes w) = Some n ->
    exists n', map_get String.eqb id (quantumNodes w') = Some n' /\
               element n' = element n /\ P (state n) (state n').

(** A method keeps [P] when every run of it lifts [P], whatever its outcome. *)
Definition keeps {A : Type} (P : QuantumState -> QuantumState -> Prop) (m : QM A) : Prop :=
  forall w, liftsTo P w (snd (m w)).

(** Once out of superposition, still out of it. *)
Definition staysCollapsed (q q' : QuantumState) : Prop :=
  superposition q = false -> superposition q' = false.

(** Everything but spin and superposition is as it was. *)
Definition sameButSpin (q q' : QuantumState) : Prop :=
  phase q' = phase q /\ amplitude q' = amplitude q /\
  observationCount q' = observationCount q.

(** The entity [id] is in mode Collapsed. *)
Definition collapsed (id : string) (w : World) : Prop :=
  exists n, map_get String.eqb id (quantumNodes w) = Some n /\
            superposition (state n) = false.

Definition noEntangle (ops : list Op) : Prop :=
  forallb (fun op => negb (isEntangle op)) ops = true.

Definition isTag (t : BellState) : bool :=
  match t with
  | Malformed _ => false
  | _ => true
  end.

(** The truth table of the four Bell states; opposite phases differ by pi. *)
Definition bellTable (t : BellState) (qa qb : QuantumState) : Prop :=
  match t with
  | PhiPlus => spin qb = spin qa /\ phase qb = phase qa
  | PhiMinus => spin qb = spin qa /\ phase qb = phase qa + PI
  | PsiPlus => spin qb <> spin qa /\ phase qb = phase qa
  | PsiMinus => spin qb <> spin qa /\ phase qb = phase qa + PI
  | Malformed _ => False
  end.

(** "Collapsing one member sets the partner's spin and phase according to
    the truth table": the pair is entangled with tag [t], then [A] is
    measured. *)
Definition collapseFollowsTable (fuel : nat) (w : World) (A B : string)
  (t : BellState) : Prop :=
  let w1 := snd (createEntanglement A B t w) in
  let w2 := snd (handleMeasurement fuel A w1) in
  forall a b,
    map_get String.eqb A (quantumNodes w2) = Some a ->
    map_get String.eqb B (quantumNodes w2) = Some b ->
    bellTable t (state a) (state b).

(** "Collapse on an entity already in Collapsed mode is a no-op." *)
Definition collapseIsIdempotent (fuel : nat) (w : World) (id : string) : Prop :=
  collapsed id w -> collapseWaveFunction fuel id w = (Returned tt, w).

(** "Once in Collapsed mode the entity never re-enters Superposition." *)
Definition collapsedIsTerminal (fuel : nat) (ops : list Op) (w : World)
  (id : string) : Prop :=
  collapsed id w -> collapsed id (runOps fuel ops w).

(** The count of observations so far; a count never written is zero. *)
Definition countOf (c : JSNumber) : R :=
  match c with
  | JNum r => r
  | _ => 0
  end.

(** "observe multiplies the amplitude by 0.9, forces collapse exactly when
    the result is below the threshold, and increments observationCount." *)
Definition observeAsSpecified (fuel : nat) (w : World) (id : string) : Prop :=
  forall n, map_get String.eqb id (quantumNodes w) = Some n ->
    superposition (state n) = true ->
    exists n', map_get String.eqb id (quantumNodes (snd (handleObservation fuel id w))) = Some n' /\
      amplitude (state n') = js_mul (amplitude (state n)) (9/10) /\
      (superposition (state n') = false <->
       js_lt (amplitude (state n')) (observationThreshold w) = true) /\
      observationCount (state n') = JNum (countOf (observationCount (state n)) + 1).

(** The pairing is symmetric. *)
Definition symmetricPairs (w : World) : Prop :=
  forall x y, map_get String.eqb x (entangledPairs w) = Some y ->
              map_get String.eqb y (entangledPairs w) = Some x.

(** "entangle fails whenever A or B already has a partner." *)
Definition entangleRefusesPaired (w : World) (A B : string) (t : BellState) : Prop :=
  map_has String.eqb A (entangledPairs w) || map_has String.eqb B (entangledPairs w) = true ->
  createEntanglement A B t w = (Returned false, w).

(** A numeric, non-negative amplitude stays numeric and non-negative and
    does not grow. *)
Definition amplitudeShrinks (q q' : QuantumState) : Prop :=
  forall a, amplitude q = JNum a -> 0 <= a ->
    exists a', amplitude q' = JNum a' /\ 0 <= a' <= a.

(** A page with three registered nodes, "A", "B" and "C", on the elements 1,
    2 and 3, with the default options. *)
Definition emptyPage (e : nat -> R) : World :=
  mkWorld (85/100) [] [] [] [] (5/100) e 0.

Definition page (e : nat -> R) : World :=
  snd ((registerQuantumNode 1%nat "A" "" ;;
        registerQuantumNode 2%nat "B" "" ;;
        registerQuantumNode 3%nat "C" "") (emptyPage e)).

(** "A" and "B" paired by the entanglement manager, with tag [t]. *)
Definition pairedPage (t : BellState) (e : nat -> R) : World :=
  snd (createEntanglement "A" "B" t (page e)).

(** "A" and "B" linked by [entangleNodes], as the page does for every
    [data-entangle-with] attribute. *)
Definition linkedPage (e : nat -> R) : World :=
  snd (entangleNodes "A" "B" (page e)).

(** A seed whose draws are all [0]: every spin drawn is [down]. *)
Definition allZero : nat -> R := fun _ => 0.

(** A seed whose draw number [k] is [3/4] and every other draw [0]. *)
Definition highAt (k : nat) : nat -> R := fun i => if Nat.eqb i k then 3/4 else 0.

End QuantumProps.

(** ** Properties of the neural engine, and a sample network *)

Module NeuroProps.
Import Neuro.

(** Every weight the engine holds lies in [0,1]. *)
Definition weightsInUnit (n : Network) : Prop :=
  forall e wm post v,
    map_get Nat.eqb e (hebbianWeights n) = Some wm ->
    map_get String.eqb post wm = Some v ->
    0 <= v <= 1.

(** A method keeps the weights in [0,1], whatever its outcome. *)
Definition keepsUnit {A : Type} (m : NM A) : Prop :=
  forall n, weightsInUnit n -> weightsInUnit (snd (m n)).

(** The weight of the synapse from [pre] to [post], when there is one. *)
Definition weightOf (n : Network) (pre post : string) : option R :=
  match map_get String.eqb pre (qniNodes n) with
  | Some e =>
      match map_get Nat.eqb e (hebbianWeights n) with
      | Some wm => map_get String.eqb post wm
      | None => None
      end
  | None => None
  end.

(** Everything that writes a weight after the synapse is formed. *)
Inductive WeightOp : Type :=
| RuleOp (r : RuleName) (pre post : string) (sd : SpikeData)
| ScaleOp (pre post : string) (factor : R)
| HomeostasisOp
| RewardOp (rewardSignal : R)
| RewardEntryOp (rewardSignal : R) (t : TagEntry).

Definition runWeightOp (op : WeightOp) : NM unit :=
  match op with
  | RuleOp r pre post sd => applyPlasticityRule r pre post sd ;; ret tt
  | ScaleOp pre post factor => scaleSynapse pre post factor
  | HomeostasisOp => applyHomeostaticPlasticity
  | RewardOp s => applyDopaminergicModulation s
  | RewardEntryOp s t => modulateTagged s t
  end.

(** The number of outgoing synapses of [id]. *)
Definition fanOut (id : string) (n : Network) : nat :=
  match map_get String.eqb id (neuralNetwork n) with
  | Some x => List.length (synapses x)
  | None => 0%nat
  end.

(** Four nodes "a", "b", "c" and "d" on the elements 1 to 4, registered as
    neurons, with the engine's default options and capacity [cap]. *)
Definition emptyNet (cap : nat) (e : nat -> R) : Network :=
  mkNetwork (1/100) cap (95/100) (5/10) (1/1000) (2/10)
            [("a", 1%nat); ("b", 2%nat); ("c", 3%nat); ("d", 4%nat)]
            [] [] [] e 0.

Definition net (cap : nat) (e : nat -> R) : Network :=
  snd ((registerNeuron "a" ;; registerNeuron "b" ;;
        registerNeuron "c" ;; registerNeuron "d" ;; trackActivity) (emptyNet cap e)).

(** One synapse, from "a" to "b", at the default weight. *)
Definition wired (e : nat -> R) : Network :=
  snd (formSynapse "a" "b" (3/10) (net 15 e)).

(** Two synapses out of "a" on a capacity of two: weights 0.5 and 0.3. *)
Definition twoWeights (e : nat -> R) : Network :=
  snd ((formSynapse "a" "b" (5/10) ;; formSynapse "a" "c" (3/10)) (net 2 e)).

(** Three synapses out of "a", each of weight [1], on a capacity of two. *)
Definition saturated (e : nat -> R) : Network :=
  snd ((formSynapse "a" "b" 1 ;; formSynapse "a" "c" 1 ;; formSynapse "a" "d" 1)
         (net 2 e)).

(** The wiring of a neuron: its synapses, threshold and transmitter. *)
Definition sameWiring (x x' : Neuron) : Prop :=
  synapses x' = synapses x /\
  firingThreshold x' = firingThreshold x /\
  neurotransmitter x' = neurotransmitter x.

(** A method keeps the wiring when, whatever its outcome, it leaves every
    weight as it was and every neuron registered with the same wiring. *)
Definition keepsWiring {A : Type} (m : NM A) : Prop :=
  forall n,
    hebbianWeights (snd (m n)) = hebbianWeights n /\
    qniNodes (snd (m n)) = qniNodes n /\
    forall id x, map_get String.eqb id (neuralNetwork n) = Some x ->
      exists x', map_get String.eqb id (neuralNetwork (snd (m n))) = Some x' /\
                 sameWiring x x'.

(** The membrane potential after the leak of one tick. *)
Definition leak (decay : R) (entry : string * Neuron) : string * Neuron :=
  (fst entry, set_membranePotential (membranePotential (snd entry) * decay) (snd entry)).

End NeuroProps.

(** ** Properties of the wavefunction solver, and sample fields *)

Module WaveProps.
Import Wave.

(** The solver's default options on a grid of side [N]. *)
Definition defaults (N : nat) : Options :=
  mkOptions N (5/100) (1/10) 1 (2/10) (1/10).

(** "The fallback forward transform followed by the fallback inverse
    transform returns the original field." *)
Definition roundTrip (o : Options) (data : list R) : Prop :=
  inverseFourierTransform o (directFourierTransform o data) = data.

(** The 2 x 2 field that is [1] at cell (0,0) and [0] elsewhere. *)
Definition delta2 : list R := [1; 0; 0; 0; 0; 0; 0; 0].

(** A one-cell wavefunction of amplitude [1] in a flat potential. *)
Definition unitCell : Wavefunction := mkWave [1; 0] [0] [0; 0].

(** What [frames] turns of [simulationLoop] leave of a wavefunction. *)
Fixpoint simulate (o : Options) (fft : FFT) (frames : nat) (wf : Wavefunction)
  : Wavefunction :=
  match frames with
  | O => wf
  | S k => stepWavefunction o fft (simulate o fft k wf)
  end.

(** [|psi|^2] at cell [i]. *)
Definition cellNorm (a : list R) (i : nat) : R :=
  nth (i * 2) a 0 ^ 2 + nth (i * 2 + 1) a 0 ^ 2.

(** The sum of the entries of an array. *)
Definition sumOf (a : list R) : R := fold_right Rplus 0 a.

(** The rate of the half step at cell [i]: potential over [hbar] minus the
    nonlinear term, times half the time step. *)
Definition halfRate (o : Options) (pot a : list R) (i : nat) : R :=
  (nth i pot 0 / hbar o - nonlinearity o * cellNorm a i) * dt o / 2.

End WaveProps.

(** ** Lemmas on numbers, maps and the monad *)

Lemma Rltb_true x y : x < y -> Rltb x y = true.
Proof. intros H. unfold Rltb. destruct (Rlt_dec x y); [reflexivity | contradiction]. Qed.

Lemma Rltb_false x y : ~ x < y -> Rltb x y = false.
Proof. intros H. unfold Rltb. destruct (Rlt_dec x y); [contradiction | reflexivity]. Qed.

Lemma Rltb_iff x y : Rltb x y = true <-> x < y.
Proof. unfold Rltb. destruct (Rlt_dec x y); split; intros; auto; discriminate. Qed.

Lemma Rgtb_true x y : x > y -> Rgtb x y = true.
Proof. intros H. unfold Rgtb. destruct (Rgt_dec x y); [reflexivity | contradiction]. Qed.

Lemma Rgtb_false x y : ~ x > y -> Rgtb x y = false.
Proof. intros H. unfold Rgtb. destruct (Rgt_dec x y); [contradiction | reflexivity]. Qed.

Lemma Reqb_true x y : x = y -> Reqb x y = true.
Proof. intros H. unfold Reqb. destruct (Req_dec_T x y); [reflexivity | contradiction]. Qed.

Section MapLemmas.
Context {K V : Type} (eqb : K -> K -> bool).
Hypothesis eqb_spec : forall a b, reflect (a = b) (eqb a b).

Lemma map_get_set_same (k : K) (v : V) m :
  map_get eqb k (map_set eqb k v m) = Some v.
Proof.
  induction m as [|[k' v'] m IH]; simpl.
  - destruct (eqb_spec k k); congruence.
  - destruct (eqb_spec k k') as [->|Hne]; simpl.
    + destruct (eqb_spec k' k'); congruence.
    + destruct (eqb_spec k k'); [contradiction | exact IH].
Qed.

Lemma map_get_set_other (k k0 : K) (v : V) m :
  k0 <> k -> map_get eqb k0 (map_set eqb k v m) = map_get eqb k0 m.
Proof.
  intros Hne. induction m as [|[k' v'] m IH]; simpl.
  - destruct (eqb_spec k0 k); congruence.
  - destruct (eqb_spec k k') as [->|Hne']; simpl.
    + destruct (eqb_spec k0 k'); congruence.
    + destruct (eqb_spec k0 k'); [reflexivity | exact IH].
Qed.
End MapLemmas.

Lemma bind_assoc {S A B C} (m : M S A) (k : A -> M S B) (h : B -> M S C) s :
  bind (bind m k) h s = bind m (fun a => bind (k a) h) s.
Proof. unfold bind. destruct (m s) as [[a|e] s1]; reflexivity. Qed.

Lemma bind_ret {S A B} (a : A) (k : A -> M S B) s : bind (ret a) k s = k a s.
Proof. reflexivity. Qed.

Lemma bind_gets {S A B} (f : S -> A) (k : A -> M S B) s : bind (gets f) k s = k (f s) s.
Proof. reflexivity. Qed.

Lemma bind_modify {S B} (f : S -> S) (k : unit -> M S B) s :
  bind (modify f) k s = k tt (f s).
Proof. reflexivity. Qed.

Lemma bind_throw {S A B} e (k : A -> M S B) s : bind (throw e) k s = (Threw e, s).
Proof. reflexivity. Qed.

(** ** The quantum subsystem *)

Module QuantumFacts.
Import Quantum QuantumProps.

Lemma bind_getNode {B} id (k : option QuantumNode -> QM B) w :
  bind (getNode id) k w = k (map_get String.eqb id (quantumNodes w)) w.
Proof. reflexivity. Qed.

Lemma bind_random {B} (k : R -> QM B) w :
  bind Math_random k w = k (entropy w (drawn w)) (set_drawn (S (drawn w)) w).
Proof. reflexivity. Qed.

Lemma bind_writeState {B} id f (k : unit -> QM B) w n :
  map_get String.eqb id (quantumNodes w) = Some n ->
  bind (writeState id f) k w =
  k tt (set_quantumNodes (map_set String.eqb id (set_state (f (state n)) n)) w).
Proof. intros H. unfold bind, writeState. rewrite H. reflexivity. Qed.

Lemma bind_readState {A B} id (f : QuantumState -> A) (k : A -> QM B) w n :
  map_get String.eqb id (quantumNodes w) = Some n ->
  bind (readState id f) k w = k (f (state n)) w.
Proof. intros H. unfold bind, readState. rewrite H. reflexivity. Qed.

Lemma collapse_step fuel nodeId w n :
  map_get String.eqb nodeId (quantumNodes w) = Some n ->
  collapseWaveFunction (S fuel) nodeId w =
  (writeState nodeId (set_superposition false) ;;
   r <- Math_random ;;
   writeState nodeId (set_spin (if Rgtb r (1/2) then up else down)) ;;
   entangledNode <- gets (fun w => map_get Nat.eqb (element n) (entanglements w)) ;;
   match entangledNode with
   | None => ret tt
   | Some e =>
       entangledId <- gets (fun w => findIdByElement e (quantumNodes w)) ;;
       match entangledId with
       | Some id => if truthy id then collapseWaveFunction fuel id else ret tt
       | None => ret tt
       end
   end) w.
Proof. intros H. simpl. rewrite bind_getNode, H. reflexivity. Qed.

Ltac world_simpl :=
  cbn [quantumNodes entanglements entangledPairs bellStates drawn entropy
       observationThreshold measurementBackaction
       set_quantumNodes set_entanglements set_entangledPairs
       set_bellStates set_drawn state element set_state
       spin phase superposition amplitude observationCount
       set_spin set_phase set_superposition set_amplitude fst snd].

Ltac lookup :=
  world_simpl;
  rewrite ?(map_get_set_same _ String.eqb_spec);
  repeat (rewrite (map_get_set_other _ String.eqb_spec) by congruence;
          rewrite ?(map_get_set_same _ String.eqb_spec));
  first [eassumption | reflexivity].

Ltac qstep :=
  first [ rewrite bind_assoc | rewrite bind_ret | rewrite bind_getNode
        | rewrite bind_gets | rewrite bind_modify | rewrite bind_random
        | rewrite bind_throw
        | erewrite bind_writeState by lookup
        | erewrite bind_readState by lookup ].

(** *** Relations on node states that every method keeps *)

Section Keeps.
Variable P : QuantumState -> QuantumState -> Prop.
Hypothesis P_refl : forall q, P q q.
Hypothesis P_trans : forall a b c, P a b -> P b c -> P a c.

Lemma liftsTo_refl w : liftsTo P w w.
Proof. intros id n H. exists n. auto. Qed.

Lemma liftsTo_trans w1 w2 w3 :
  liftsTo P w1 w2 -> liftsTo P w2 w3 -> liftsTo P w1 w3.
Proof.
  intros H12 H23 id n H.
  destruct (H12 id n H) as (n2 & G2 & E2 & P2).
  destruct (H23 id n2 G2) as (n3 & G3 & E3 & P3).
  exists n3. repeat split; [assumption | congruence | eauto].
Qed.

Lemma keeps_ret {A} (a : A) : keeps P (ret a).
Proof. intro w. apply liftsTo_refl. Qed.

Lemma keeps_throw {A} e : keeps P (@throw World A e).
Proof. intro w. apply liftsTo_refl. Qed.

Lemma keeps_gets {A} (f : World -> A) : keeps P (gets f).
Proof. intro w. apply liftsTo_refl. Qed.

Lemma keeps_bind {A B} (m : QM A) (k : A -> QM B) :
  keeps P m -> (forall a, keeps P (k a)) -> keeps P (bind m k).
Proof.
  intros Hm Hk w. unfold bind. specialize (Hm w).
  destruct (m w) as [[a|e] w1]; simpl in *.
  - eapply liftsTo_trans; [exact Hm | apply Hk].
  - exact Hm.
Qed.

Lemma keeps_modify (f : World -> World) :
  (forall w, quantumNodes (f w) = quantumNodes w) -> keeps P (modify f).
Proof. intros Hf w id n H. simpl. rewrite Hf. exists n. auto. Qed.

Lemma keeps_random : keeps P Math_random.
Proof. intros w id n H. exists n. auto. Qed.

Lemma keeps_readState {A} nodeId (f : QuantumState -> A) : keeps P (readState nodeId f).
Proof.
  intros w. unfold readState.
  destruct (map_get String.eqb nodeId (quantumNodes w)); apply liftsTo_refl.
Qed.

Lemma keeps_writeState nodeId f :
  (forall q, P q (f q)) -> keeps P (writeState nodeId f).
Proof.
  intros Hf w id n H. unfold writeState.
  destruct (map_get String.eqb nodeId (quantumNodes w)) as [node|] eqn:G; simpl.
  - destruct (String.eqb_spec id nodeId) as [->|Hne].
    + rewrite (map_get_set_same _ String.eqb_spec).
      eexists; split; [reflexivity|]. simpl.
      assert (node = n) by congruence. subst. auto.
    + rewrite (map_get_set_other _ String.eqb_spec) by assumption.
      exists n. auto.
  - exists n. auto.
Qed.

Hypothesis P_spin : forall s q, P q (set_spin s q).
Hypothesis P_collapse : forall q, P q (set_superposition false q).

Lemma keeps_collapse fuel : forall nodeId, keeps P (collapseWaveFunction fuel nodeId).
Proof.
  induction fuel as [|fuel IH]; intro nodeId; simpl.
  - apply keeps_throw.
  - apply keeps_bind; [apply keeps_gets|]. intros [n|]; [|apply keeps_ret].
    apply keeps_bind; [apply keeps_writeState, P_collapse|]. intros _.
    apply keeps_bind; [apply keeps_random|]. intros r.
    apply keeps_bind; [apply keeps_writeState, P_spin|]. intros _.
    apply keeps_bind; [apply keeps_gets|]. intros [e|]; [|apply keeps_ret].
    apply keeps_bind; [apply keeps_gets|]. intros [id|]; [|apply keeps_ret].
    destruct (truthy id); [apply IH | apply keeps_ret].
Qed.
End Keeps.

Lemma staysCollapsed_refl q : staysCollapsed q q.
Proof. intro H. exact H. Qed.

Lemma staysCollapsed_trans a b c :
  staysCollapsed a b -> staysCollapsed b c -> staysCollapsed a c.
Proof. unfold staysCollapsed. auto. Qed.

Lemma sameButSpin_refl q : sameButSpin q q.
Proof. repeat split. Qed.

Lemma sameButSpin_trans a b c :
  sameButSpin a b -> sameButSpin b c -> sameButSpin a c.
Proof.
  intros (H1 & H2 & H3) (G1 & G2 & G3). repeat split; congruence.
Qed.

Create HintDb keepdb.
#[local] Hint Resolve staysCollapsed_refl staysCollapsed_trans
  sameButSpin_refl sameButSpin_trans : keepdb.
#[local] Hint Extern 1 (staysCollapsed _ _) =>
  (intro; first [assumption | reflexivity]) : keepdb.
#[local] Hint Extern 1 (sameButSpin _ _) => (repeat split) : keepdb.
#[local] Hint Extern 1 (quantumNodes _ = quantumNodes _) => reflexivity : keepdb.

(** One step of the structural proof that a method keeps a relation. *)
Ltac keep_step :=
  match goal with
  | |- keeps _ (bind _ _) => apply keeps_bind; [eauto with keepdb | | intro]
  | |- keeps _ (ret _) => apply keeps_ret; eauto with keepdb
  | |- keeps _ (throw _) => apply keeps_throw; eauto with keepdb
  | |- keeps _ (gets _) => apply keeps_gets; eauto with keepdb
  | |- keeps _ (getNode _) => apply keeps_gets; eauto with keepdb
  | |- keeps _ (modify _) => apply keeps_modify; intros; eauto with keepdb
  | |- keeps _ Math_random => apply keeps_random; eauto with keepdb
  | |- keeps _ (readState _ _) => apply keeps_readState; eauto with keepdb
  | |- keeps _ (writeState _ _) => apply keeps_writeState; intros; eauto with keepdb
  | |- keeps _ (scheduleDecoherence _) => apply keeps_throw; eauto with keepdb
  | |- keeps _ (collapseWaveFunction _ _) => apply keeps_collapse; intros; eauto with keepdb
  | |- keeps _ (match ?x with _ => _ end) => destruct x
  | |- keeps _ (if ?x then _ else _) => destruct x
  end.

Lemma handleObservation_keeps P fuel id :
  (forall q, P q q) -> (forall a b c, P a b -> P b c -> P a c) ->
  (forall s q, P q (set_spin s q)) -> (forall q, P q (set_superposition false q)) ->
  (forall a q, P q (set_amplitude a q)) ->
  keeps P (handleObservation fuel id).
Proof.
  intros Hr Ht Hs Hc Ha. unfold handleObservation.
  repeat first [keep_step | solve [eauto]].
Qed.

Lemma runOp_staysCollapsed fuel op :
  isEntangle op = false -> keeps staysCollapsed (runOp fuel op).
Proof.
  destruct op; simpl; intros H; try discriminate H.
  - apply handleObservation_keeps; eauto with keepdb.
  - unfold handleMeasurement. repeat keep_step.
  - repeat keep_step.
  - unfold decoherenceTimeout. repeat keep_step.
  - unfold applyDecoherence. repeat keep_step.
  - unfold applyDephasing. repeat keep_step.
  - unfold breakEntanglement. repeat keep_step.
Qed.

Lemma liftsTo_collapsed w w' id :
  liftsTo staysCollapsed w w' -> collapsed id w -> collapsed id w'.
Proof.
  intros H (n & G & C). destruct (H id n G) as (n' & G' & _ & S').
  exists n'. split; [exact G' | apply S', C].
Qed.

(** C6, as amended: under observe, measure, collapse, both decoherence
    timers, dephasing and break, in any order and number and whatever each
    call's outcome, an entity in Collapsed mode stays in Collapsed mode. *)
Theorem collapsed_is_terminal_without_entangle (fuel : nat) (ops : list Op)
  (w : World) (id : string) :
  noEntangle ops -> collapsed id w -> collapsed id (runOps fuel ops w).
Proof.
  revert w. induction ops as [|op ops IH]; intros w Hops Hc; simpl.
  - exact Hc.
  - unfold noEntangle in Hops. simpl in Hops.
    apply andb_prop in Hops. destruct Hops as [Hop Hops].
    apply IH; [exact Hops|].
    eapply liftsTo_collapsed; [|exact Hc].
    apply runOp_staysCollapsed. destruct (isEntangle op); [discriminate | reflexivity].
Qed.

(** Evaluation of a method on a sample page, up to the comparisons of
    numbers. *)
Ltac js_eval :=
  cbv -[Rgtb Rltb Rgeb Reqb Rplus Rminus Rmult Rdiv Ropp Rinv IZR PI exp cos sin
        sqrt Rmax Rmin Rabs INR Rlt Rgt Rle Rge].

Ltac js_eval_in H :=
  cbv -[Rgtb Rltb Rgeb Reqb Rplus Rminus Rmult Rdiv Ropp Rinv IZR PI exp cos sin
        sqrt Rmax Rmin Rabs INR Rlt Rgt Rle Rge] in H.

(** C6, witness: "A" is measured, then observed, damped and unpaired. *)
Lemma collapsed_is_terminal_witness :
  noEntangle [Observe "A"; Decohere "A"; Break "A"] /\
  collapsed "A" (runOps 8 [Measure "A"] (page allZero)) /\
  collapsed "A" (runOps 8 [Observe "A"; Decohere "A"; Break "A"]
                   (runOps 8 [Measure "A"] (page allZero))).
Proof.
  assert (Hc : collapsed "A" (runOps 8 [Measure "A"] (page allZero))).
  { js_eval. eexists. split; reflexivity. }
  split; [reflexivity|]. split; [exact Hc|].
  apply (collapsed_is_terminal_without_entangle 8
           [Observe "A"; Decohere "A"; Break "A"]
           (runOps 8 [Measure "A"] (page allZero)) "A");
    [reflexivity | exact Hc].
Defined.

(** C6, counterexample: "A" is measured, then entangled with "B"; it is in
    superposition again. *)
Lemma collapsed_is_terminal_counterexample :
  ~ collapsedIsTerminal 8 [Entangle "A" "B" PhiPlus]
      (runOps 8 [Measure "A"] (page allZero)) "A".
Proof.
  intros H.
  assert (Hc : collapsed "A" (runOps 8 [Measure "A"] (page allZero))).
  { js_eval. eexists. split; reflexivity. }
  destruct (H Hc) as (n & G & C).
  js_eval_in G. injection G as <-. discriminate C.
Qed.

(** What [createEntanglement] does to a registered pair. *)
Lemma createEntanglement_run (w : World) (A B : string) (t : BellState)
  (a0 b0 : QuantumNode) :
  A <> B -> isTag t = true ->
  map_get String.eqb A (quantumNodes w) = Some a0 ->
  map_get String.eqb B (quantumNodes w) = Some b0 ->
  exists w1 a1 b1,
    createEntanglement A B t w = (Returned true, w1) /\
    map_get String.eqb A (quantumNodes w1) = Some a1 /\
    map_get String.eqb B (quantumNodes w1) = Some b1 /\
    element a1 = element a0 /\
    entanglements w1 = entanglements w /\
    entropy w1 = entropy w /\ drawn w1 = drawn w /\
    observationThreshold w1 = observationThreshold w /\
    spin (state a1) = up /\ phase (state a1) = 0 /\
    superposition (state a1) = true /\ superposition (state b1) = true /\
    amplitude (state a1) = JNum 1 /\ amplitude (state b1) = JNum 1 /\
    observationCount (state a1) = observationCount (state a0) /\
    bellTable t (state a1) (state b1).
Proof.
  intros Hne Ht HA HB.
  unfold createEntanglement, applyBellState.
  rewrite !bind_getNode, HA, HB.
  destruct t; try discriminate Ht; repeat qstep.
  all: do 3 eexists; split; [reflexivity|].
  all: split; [lookup|]; split; [lookup|].
  all: world_simpl; repeat split; try discriminate; simpl; lra.
Qed.

(** What a measurement does to a node that [entangleNodes] has not linked. *)
Lemma handleMeasurement_unlinked (fuel : nat) (w : World) (A : string)
  (a : QuantumNode) :
  map_get String.eqb A (quantumNodes w) = Some a ->
  map_get Nat.eqb (element a) (entanglements w) = None ->
  handleMeasurement (S fuel) A w =
  (Returned tt,
   set_quantumNodes
     (map_set String.eqb A
        (set_state
           (set_spin (if Rgtb (entropy w (drawn w)) (1/2) then up else down)
              (set_superposition false (state a))) a))
     (set_drawn (S (drawn w))
        (set_quantumNodes
           (map_set String.eqb A (set_state (set_superposition false (state a)) a)) w))).
Proof.
  intros HA HE. unfold handleMeasurement.
  unfold bind at 1. rewrite (collapse_step fuel A w a HA).
  repeat qstep. world_simpl. rewrite HE.
  unfold ret at 1. cbv beta iota. rewrite bind_getNode.
  world_simpl. rewrite (map_get_set_same _ String.eqb_spec). reflexivity.
Qed.

(** C1, as amended: [createEntanglement] on two distinct registered nodes
    assigns spin and phase by the truth table of the tag; a later collapse of
    [A] (not linked by [entangleNodes]) draws the spin of [A] afresh from the
    seed and touches neither the phase of [A] nor [B]; so the pair still
    follows the table when the draw is [up], and in particular after
    [entangle(A, B, PhiPlus)] and a measurement of [A] that yields [up], [B]
    has spin [up] and the phase of [A]. *)
Theorem entangle_sets_table_collapse_redraws (fuel : nat) (w : World)
  (A B : string) (t : BellState) (a0 b0 : QuantumNode) :
  A <> B -> isTag t = true ->
  map_get String.eqb A (quantumNodes w) = Some a0 ->
  map_get String.eqb B (quantumNodes w) = Some b0 ->
  map_get Nat.eqb (element a0) (entanglements w) = None ->
  exists w1 a1 b1 w2 a2,
    createEntanglement A B t w = (Returned true, w1) /\
    map_get String.eqb A (quantumNodes w1) = Some a1 /\
    map_get String.eqb B (quantumNodes w1) = Some b1 /\
    spin (state a1) = up /\ phase (state a1) = 0 /\
    bellTable t (state a1) (state b1) /\
    handleMeasurement (S fuel) A w1 = (Returned tt, w2) /\
    map_get String.eqb A (quantumNodes w2) = Some a2 /\
    map_get String.eqb B (quantumNodes w2) = Some b1 /\
    phase (state a2) = phase (state a1) /\
    spin (state a2) = (if Rgtb (entropy w (drawn w)) (1/2) then up else down) /\
    (bellTable t (state a2) (state b1) <-> spin (state a2) = up).
Proof.
  intros Hne Ht HA HB HE.
  destruct (createEntanglement_run w A B t a0 b0 Hne Ht HA HB)
    as (w1 & a1 & b1 & Hrun & HA1 & HB1 & Hel & Hent & Hentr & Hdr & _ & Hup & Hph
        & _ & _ & _ & _ & _ & Htab).
  assert (HE1 : map_get Nat.eqb (element a1) (entanglements w1) = None)
    by (rewrite Hel, Hent; exact HE).
  exists w1, a1, b1. eexists. eexists.
  split; [exact Hrun|]. split; [exact HA1|]. split; [exact HB1|].
  split; [exact Hup|]. split; [exact Hph|]. split; [exact Htab|].
  split; [apply (handleMeasurement_unlinked fuel w1 A a1 HA1 HE1)|].
  split; [lookup|]. split; [lookup|].
  world_simpl. rewrite Hentr, Hdr.
  split; [reflexivity|]. split; [reflexivity|].
  destruct (Rgtb (entropy w (drawn w)) (1/2));
    destruct t; try discriminate Ht; simpl in Htab |- *; rewrite Hup in Htab;
    destruct Htab as [Hs Hp]; rewrite ?Hs; split; intros H; try reflexivity;
    try discriminate H; try (split; [first [reflexivity | exact Hs] | exact Hp]).
  all: destruct H as [H _]; try discriminate H;
    destruct (spin (state b1)); congruence.
Qed.

(** C1, witness: the pair "A", "B" of the sample page, tag PhiPlus. *)
Lemma entangle_sets_table_witness :
  exists w1 a1 b1 w2 a2,
    createEntanglement "A" "B" PhiPlus (page allZero) = (Returned true, w1) /\
    map_get String.eqb "A" (quantumNodes w1) = Some a1 /\
    map_get String.eqb "B" (quantumNodes w1) = Some b1 /\
    spin (state a1) = up /\ phase (state a1) = 0 /\
    bellTable PhiPlus (state a1) (state b1) /\
    handleMeasurement 1 "A" w1 = (Returned tt, w2) /\
    map_get String.eqb "A" (quantumNodes w2) = Some a2 /\
    map_get String.eqb "B" (quantumNodes w2) = Some b1 /\
    phase (state a2) = phase (state a1) /\
    spin (state a2) =
      (if Rgtb (entropy (page allZero) (drawn (page allZero))) (1/2) then up else down) /\
    (bellTable PhiPlus (state a2) (state b1) <-> spin (state a2) = up).
Proof.
  eapply (entangle_sets_table_collapse_redraws 0 (page allZero) "A" "B" PhiPlus).
  - discriminate.
  - reflexivity.
  - reflexivity.
  - reflexivity.
  - reflexivity.
Defined.

(** C1, counterexample: with tag PhiPlus and a seed whose draws are all 0,
    the measurement of "A" yields [down] and "B" keeps [up]. *)
Lemma collapse_follows_table_counterexample :
  ~ collapseFollowsTable 8 (page allZero) "A" "B" PhiPlus.
Proof.
  intros H. unfold collapseFollowsTable in H. js_eval_in H.
  rewrite !(Rgtb_false 0 (1/2)) in H by lra.
  destruct (H _ _ eq_refl eq_refl) as [Hs _]. discriminate Hs.
Qed.

(** Two nodes linked by [entangleNodes]: the collapse of either calls the
    collapse of the other, at any depth of stack. *)
Lemma linked_never_returns (fuel : nat) :
  forall thr qa qb qc pairs bells back e d,
    let w := mkWorld thr
               [("A", mkNode 1%nat qa 1 0); ("B", mkNode 2%nat qb 1 0);
                ("C", mkNode 3%nat qc 1 0)]
               [(1%nat, 2%nat); (2%nat, 1%nat)] pairs bells back e d in
    fst (collapseWaveFunction fuel "A" w) = Threw RangeError /\
    fst (collapseWaveFunction fuel "B" w) = Threw RangeError.
Proof.
  induction fuel as [|fuel IH]; intros; subst w.
  - split; reflexivity.
  - split; cbn; apply IH.
Qed.

(** C2, at the failing input: on the page where "A" and "B" are linked by
    [entangleNodes], a measurement of "A" never returns, whatever the seed
    and the depth of stack; and a second collapse of a collapsed node is not
    a no-op, it draws the spin again (here from [up] to [down]). *)
Theorem collapse_has_no_guard :
  (forall e fuel, fst (handleMeasurement fuel "A" (linkedPage e)) = Threw RangeError) /\
  ~ collapseIsIdempotent 8 (snd (collapseWaveFunction 8 "A" (page (highAt 6)))) "A".
Proof.
  split.
  - intros e fuel. unfold handleMeasurement, bind.
    pose proof (linked_never_returns fuel) as H.
    unfold linkedPage, page.
    match goal with
    | |- context [collapseWaveFunction fuel "A" ?w] =>
        let w' := eval cbv -[Rgtb Rltb Rgeb Reqb Rplus Rminus Rmult Rdiv Ropp Rinv
                             IZR PI] in w in
        change w with w'
    end.
    match goal with
    | |- context [collapseWaveFunction fuel "A" ?w] =>
        destruct (collapseWaveFunction fuel "A" w) as [[u|err] w1] eqn:E
    end.
    + match type of E with
      | collapseWaveFunction _ _
          (mkWorld ?thr [(_, mkNode _ ?qa _ _); (_, mkNode _ ?qb _ _); (_, mkNode _ ?qc _ _)]
                   _ ?pairs ?bells ?back ?e ?d) = _ =>
          destruct (H thr qa qb qc pairs bells back e d) as [HA _]
      end.
      rewrite E in HA. discriminate HA.
    + match type of E with
      | collapseWaveFunction _ _
          (mkWorld ?thr [(_, mkNode _ ?qa _ _); (_, mkNode _ ?qb _ _); (_, mkNode _ ?qc _ _)]
                   _ ?pairs ?bells ?back ?e ?d) = _ =>
          destruct (H thr qa qb qc pairs bells back e d) as [HA _]
      end.
      rewrite E in HA. simpl in HA. simpl. exact HA.
  - intros H.
    assert (Hc : collapsed "A" (snd (collapseWaveFunction 8 "A" (page (highAt 6))))).
    { js_eval. eexists. split; reflexivity. }
    specialize (H Hc).
    apply (f_equal (fun r => map_get String.eqb "A" (quantumNodes (snd r)))) in H.
    js_eval_in H.
    rewrite (Rgtb_false 0 (1/2)), (Rgtb_true (3/4) (1/2)) in H by lra.
    discriminate H.
Qed.

(** A collapse with some stack left takes its node out of superposition,
    however the propagation ends. *)
Lemma collapse_collapses (fuel : nat) (id : string) (w : World) (n : QuantumNode) :
  map_get String.eqb id (quantumNodes w) = Some n ->
  collapsed id (snd (collapseWaveFunction (S fuel) id w)).
Proof.
  intros H. rewrite (collapse_step fuel id w n H).
  erewrite bind_writeState by lookup.
  lazymatch goal with
  | |- collapsed _ (snd (?m ?w1)) =>
      assert (K : keeps staysCollapsed m); [repeat keep_step |
      specialize (K w1)]
  end.
  eapply liftsTo_collapsed; [exact K|].
  eexists. split; [lookup | reflexivity].
Qed.

Lemma snd_bind_throw {S A B} (m : M S A) e (s : S) :
  snd (bind m (fun _ => @throw S B e) s) = snd (m s).
Proof. unfold bind. destruct (m s) as [[a|e'] s1]; reflexivity. Qed.

(** C7, as amended: [handleObservation] on a node in superposition whose
    amplitude is a number multiplies the amplitude by 0.9, takes the node out
    of superposition exactly when the new amplitude is below
    [observationThreshold], and leaves [observationCount] as it was. *)
Theorem observe_damps_and_collapses (fuel : nat) (w : World) (id : string)
  (n : QuantumNode) (a : R) :
  map_get String.eqb id (quantumNodes w) = Some n ->
  superposition (state n) = true ->
  amplitude (state n) = JNum a ->
  exists n',
    map_get String.eqb id (quantumNodes (snd (handleObservation (S fuel) id w))) = Some n' /\
    amplitude (state n') = JNum (a * (9/10)) /\
    (superposition (state n') = false <-> a * (9/10) < observationThreshold w) /\
    observationCount (state n') = observationCount (state n).
Proof.
  intros H Hsup Ha. unfold handleObservation.
  rewrite bind_getNode, H, Hsup. cbn [negb].
  repeat qstep. world_simpl. rewrite Ha. cbn [js_mul js_lt].
  unfold scheduleDecoherence. rewrite snd_bind_throw.
  set (w1 := set_quantumNodes _ w).
  assert (H1 : map_get String.eqb id (quantumNodes w1) =
               Some (set_state (set_amplitude (JNum (a * (9/10))) (state n)) n))
    by (subst w1; lookup).
  destruct (Rltb (a * (9/10)) (observationThreshold w)) eqn:E.
  - apply Rltb_iff in E.
    destruct (collapse_collapses fuel id w1 _ H1) as (n' & G & C).
    destruct (keeps_collapse sameButSpin sameButSpin_refl sameButSpin_trans
                ltac:(intros; repeat split) ltac:(intros; repeat split)
                (S fuel) id w1 id _ H1) as (n2 & G2 & _ & Hp & Hamp & Hcnt).
    assert (n2 = n') by congruence. subst n2.
    exists n'. split; [exact G|]. split; [exact Hamp|].
    split; [tauto | exact Hcnt].
  - assert (N : ~ a * (9/10) < observationThreshold w).
    { intros L. apply Rltb_iff in L. congruence. }
    eexists. split; [exact H1|]. world_simpl. split; [reflexivity|].
    split; [|reflexivity].
    rewrite Hsup. split; [discriminate | intros L; contradiction].
Qed.

(** C7, witness: "A" after [createEntanglement], where its amplitude is 1. *)
Lemma observe_damps_witness :
  exists n',
    map_get String.eqb "A"
      (quantumNodes (snd (handleObservation 1 "A" (pairedPage PhiPlus allZero)))) = Some n' /\
    amplitude (state n') = JNum (1 * (9/10)) /\
    (superposition (state n') = false <->
     1 * (9/10) < observationThreshold (pairedPage PhiPlus allZero)) /\
    observationCount (state n') = JUndefined.
Proof.
  apply (observe_damps_and_collapses 0 (pairedPage PhiPlus allZero) "A"
           (mkNode 1%nat (mkState up 0 true (JNum 1) JUndefined) 1 0) 1);
    reflexivity.
Defined.

(** C7, counterexample: the observation of "A" on that page leaves
    [observationCount] unwritten. *)
Lemma observe_as_specified_counterexample :
  ~ observeAsSpecified 8 (pairedPage PhiPlus allZero) "A".
Proof.
  intros H. edestruct H as (n' & G & _ & _ & Hc); [reflexivity | reflexivity |].
  js_eval_in G. rewrite (Rltb_false (1 * (9/10)) (85/100)) in G by lra.
  js_eval_in G. injection G as <-. discriminate Hc.
Qed.

(** C8, as amended: [createEntanglement] refuses, returning [false] and
    changing nothing, when one of the two ids is not registered.  On two
    registered ids it never refuses, whatever pairing either of them already
    has: it makes each the partner of the other, and then returns [true]
    when the tag has a style (the four tags, and the names every object
    inherits) and raises a [TypeError] when it has none. *)
Theorem entangle_fails_only_on_missing (w : World) (A B : string) (t : BellState) :
  (map_get String.eqb A (quantumNodes w) = None \/
   map_get String.eqb B (quantumNodes w) = None ->
   createEntanglement A B t w = (Returned false, w)) /\
  (forall a b,
     map_get String.eqb A (quantumNodes w) = Some a ->
     map_get String.eqb B (quantumNodes w) = Some b ->
     exists w',
       createEntanglement A B t w =
         (if hasStyle t then Returned true else Threw TypeError, w') /\
       map_get String.eqb A (entangledPairs w') = Some B /\
       map_get String.eqb B (entangledPairs w') = Some A).
Proof.
  split.
  - intros H. unfold createEntanglement. rewrite !bind_getNode.
    destruct (map_get String.eqb A (quantumNodes w)) as [a|];
      destruct (map_get String.eqb B (quantumNodes w)) as [b|];
      try reflexivity.
    destruct H; discriminate.
  - intros a b HA HB.
    unfold createEntanglement, applyBellState, createVisualEntanglement, hasStyle.
    rewrite !bind_getNode, HA, HB.
    destruct (String.eqb_spec A B) as [->|Hne].
    + assert (a = b) by congruence. subst b.
      destruct t as [| | | |tag]; [| | | |destruct (inheritedKey tag)]; repeat qstep;
        (eexists; split; [reflexivity|]; world_simpl;
         rewrite (map_get_set_same _ String.eqb_spec); split; reflexivity).
    + destruct t as [| | | |tag]; [| | | |destruct (inheritedKey tag)]; repeat qstep;
        (eexists; split; [reflexivity|]; world_simpl; split;
         [ rewrite (map_get_set_other _ String.eqb_spec) by congruence;
           apply (map_get_set_same _ String.eqb_spec)
         | apply (map_get_set_same _ String.eqb_spec) ]).
Qed.

(** C8, witness: an unregistered partner, a registered one, and a registered
    one under a tag that has no style. *)
Lemma entangle_fails_witness :
  createEntanglement "A" "ghost" PhiPlus (page allZero) = (Returned false, page allZero) /\
  (exists w',
    createEntanglement "A" "B" PhiPlus (page allZero) = (Returned true, w') /\
    map_get String.eqb "A" (entangledPairs w') = Some "B" /\
    map_get String.eqb "B" (entangledPairs w') = Some "A") /\
  (exists w',
    createEntanglement "A" "B" (Malformed "GHZ") (page allZero) = (Threw TypeError, w') /\
    map_get String.eqb "A" (entangledPairs w') = Some "B" /\
    map_get String.eqb "B" (entangledPairs w') = Some "A").
Proof.
  split; [|split].
  - apply (proj1 (entangle_fails_only_on_missing (page allZero) "A" "ghost" PhiPlus)).
    right. reflexivity.
  - eapply (proj2 (entangle_fails_only_on_missing (page allZero) "A" "B" PhiPlus));
      reflexivity.
  - eapply (proj2 (entangle_fails_only_on_missing (page allZero) "A" "B" (Malformed "GHZ")));
      reflexivity.
Defined.

(** C8, counterexample: "A" is paired with "B"; entangling "A" with "C"
    succeeds all the same. *)
Lemma entangle_refuses_paired_counterexample :
  ~ entangleRefusesPaired (pairedPage PhiPlus allZero) "A" "C" PsiPlus.
Proof.
  intros H.
  assert (P : map_has String.eqb "A" (entangledPairs (pairedPage PhiPlus allZero))
              || map_has String.eqb "C" (entangledPairs (pairedPage PhiPlus allZero)) = true)
    by reflexivity.
  specialize (H P). apply (f_equal fst) in H.
  js_eval_in H. discriminate H.
Qed.

(** After that second entanglement "B" still names "A" as its partner, and
    "A" names "C": the pairing is no longer symmetric. *)
Lemma overwritten_pairing_is_asymmetric :
  ~ symmetricPairs (snd (createEntanglement "A" "C" PsiPlus (pairedPage PhiPlus allZero))).
Proof.
  intros H. specialize (H "B" "A" eq_refl).
  js_eval_in H. discriminate H.
Qed.

(** The methods that do check their lookups: on an id that is neither
    registered nor paired they return and change nothing. *)
Lemma checked_methods_skip_missing (fuel : nat) (w : World) (id other : string)
  (t : BellState) (strength : R) :
  map_get String.eqb id (quantumNodes w) = None ->
  map_get String.eqb id (entangledPairs w) = None ->
  collapseWaveFunction (S fuel) id w = (Returned tt, w) /\
  handleObservation fuel id w = (Returned tt, w) /\
  decoherenceTimeout fuel id w = (Returned tt, w) /\
  applyDecoherence fuel id w = (Returned tt, w) /\
  applyDephasing id strength w = (Returned tt, w) /\
  createEntanglement id other t w = (Returned false, w) /\
  verifyBellState id w = (Returned None, w) /\
  breakEntanglement id w = (Returned false, w).
Proof.
  intros H P.
  unfold handleObservation, decoherenceTimeout, applyDecoherence,
    applyDephasing, verifyBellState, breakEntanglement.
  simpl collapseWaveFunction.
  rewrite !bind_getNode, !bind_gets, H, P.
  repeat split; try reflexivity.
  apply (proj1 (entangle_fails_only_on_missing w id other t)). left. exact H.
Qed.

(** *** Further properties of the registry and of the entanglement manager *)

Lemma amplitudeShrinks_refl q : amplitudeShrinks q q.
Proof. intros a Ha H0. exists a. split; [exact Ha | lra]. Qed.

Lemma amplitudeShrinks_trans a b c :
  amplitudeShrinks a b -> amplitudeShrinks b c -> amplitudeShrinks a c.
Proof.
  intros H1 H2 x Hx H0. destruct (H1 x Hx H0) as (y & Hy & By).
  destruct (H2 y Hy (proj1 By)) as (z & Hz & Bz).
  exists z. split; [exact Hz | lra].
Qed.

Lemma amplitudeShrinks_damp q :
  amplitudeShrinks q (set_amplitude (js_mul (amplitude q) (9/10)) q).
Proof.
  intros a Ha H0. simpl. rewrite Ha. simpl.
  eexists. split; [reflexivity | lra].
Qed.

#[local] Hint Resolve amplitudeShrinks_refl amplitudeShrinks_trans
  amplitudeShrinks_damp : keepdb.
Ltac shrink_tac :=
  let a := fresh "a" in
  let Ha := fresh "Ha" in
  let H0 := fresh "H0" in
  intros a Ha H0; simpl in Ha |- *; rewrite ?Ha; simpl;
  eexists; split; [first [eassumption | reflexivity] | lra].

#[local] Hint Extern 1 (amplitudeShrinks _ _) => shrink_tac : keepdb.

Lemma runOp_amplitudeShrinks fuel op :
  isEntangle op = false -> keeps amplitudeShrinks (runOp fuel op).
Proof.
  destruct op; simpl; intros H; try discriminate H.
  - unfold handleObservation. repeat keep_step.
  - unfold handleMeasurement. repeat keep_step.
  - repeat keep_step.
  - unfold decoherenceTimeout. repeat keep_step.
  - unfold applyDecoherence. repeat keep_step.
  - unfold applyDephasing. repeat keep_step.
  - unfold breakEntanglement. repeat keep_step.
Qed.

(** Under observe, measure, collapse, the decoherence timers, dephasing and
    break, an amplitude that is a non-negative number stays a non-negative
    number and never grows, whatever the outcome of each call. *)
Theorem amplitude_never_grows (fuel : nat) (ops : list Op) (w : World)
  (id : string) (n : QuantumNode) (a : R) :
  noEntangle ops ->
  map_get String.eqb id (quantumNodes w) = Some n ->
  amplitude (state n) = JNum a -> 0 <= a ->
  exists n' a',
    map_get String.eqb id (quantumNodes (runOps fuel ops w)) = Some n' /\
    amplitude (state n') = JNum a' /\ 0 <= a' <= a.
Proof.
  revert w n a. induction ops as [|op ops IH]; intros w n a Hops Hn Ha H0; simpl.
  - exists n, a. repeat split; auto; lra.
  - unfold noEntangle in Hops. simpl in Hops.
    apply andb_prop in Hops. destruct Hops as [Hop Hops].
    assert (Hop' : isEntangle op = false)
      by (destruct (isEntangle op); [discriminate | reflexivity]).
    destruct (runOp_amplitudeShrinks fuel op Hop' w id n Hn) as (n1 & G1 & _ & S1).
    destruct (S1 a Ha H0) as (a1 & Ha1 & B1).
    destruct (IH _ n1 a1 Hops G1 Ha1 (proj1 B1)) as (n' & a' & G & Ha' & B).
    exists n', a'. repeat split; auto; lra.
Qed.

Lemma amplitude_never_grows_witness :
  exists n' a',
    map_get String.eqb "A"
      (quantumNodes (runOps 8 [Observe "A"; Decohere "A"; Observe "A"; Break "A"]
                       (pairedPage PhiPlus allZero))) = Some n' /\
    amplitude (state n') = JNum a' /\ 0 <= a' <= 1.
Proof.
  apply (amplitude_never_grows 8 [Observe "A"; Decohere "A"; Observe "A"; Break "A"]
           (pairedPage PhiPlus allZero) "A"
           (mkNode 1%nat (mkState up 0 true (JNum 1) JUndefined) 1 0) 1).
  - reflexivity.
  - reflexivity.
  - reflexivity.
  - lra.
Defined.

Lemma Reqb_false x y : x <> y -> Reqb x y = false.
Proof. intros H. unfold Reqb. destruct (Req_dec_T x y); [contradiction | reflexivity]. Qed.

Lemma map_get_delete_same {K V} (eqb : K -> K -> bool)
  (eqb_spec : forall a b, reflect (a = b) (eqb a b)) (k : K) (m : list (K * V)) :
  map_get eqb k (map_delete eqb k m) = None.
Proof.
  induction m as [|[k' v'] m IH]; simpl; [reflexivity|].
  destruct (eqb_spec k k') as [->|Hne]; simpl; [exact IH|].
  destruct (eqb_spec k k'); [contradiction | exact IH].
Qed.

Lemma map_get_delete_other {K V} (eqb : K -> K -> bool)
  (eqb_spec : forall a b, reflect (a = b) (eqb a b)) (k k0 : K) (m : list (K * V)) :
  k0 <> k -> map_get eqb k0 (map_delete eqb k m) = map_get eqb k0 m.
Proof.
  intros Hne. induction m as [|[k' v'] m IH]; simpl; [reflexivity|].
  destruct (eqb_spec k k') as [->|Hne']; simpl.
  - destruct (eqb_spec k0 k'); [contradiction | exact IH].
  - destruct (eqb_spec k0 k'); [reflexivity | exact IH].
Qed.

Ltac norm_lookups :=
  world_simpl;
  repeat first
    [ rewrite (map_get_set_same _ String.eqb_spec)
    | rewrite (map_get_set_other _ String.eqb_spec) by congruence ].

(** Entangle, then verify: on two distinct registered nodes and any of the
    four tags, [verifyBellState] of either member gives back the tag that
    [createEntanglement] was called with. *)
Theorem verify_recovers_tag (w : World) (A B : string) (t : BellState)
  (a0 b0 : QuantumNode) :
  A <> B -> isTag t = true ->
  map_get String.eqb A (quantumNodes w) = Some a0 ->
  map_get String.eqb B (quantumNodes w) = Some b0 ->
  verifyBellState A (snd (createEntanglement A B t w)) =
    (Returned (Some t), snd (createEntanglement A B t w)) /\
  verifyBellState B (snd (createEntanglement A B t w)) =
    (Returned (Some t), snd (createEntanglement A B t w)).
Proof.
  intros Hne Ht HA HB.
  assert (Hpi : 0 <> PI) by (pose proof PI_RGT_0; lra).
  assert (Hpi' : PI <> 0) by (pose proof PI_RGT_0; lra).
  unfold createEntanglement, applyBellState, createVisualEntanglement, hasStyle.
  rewrite !bind_getNode, HA, HB.
  destruct t; try discriminate Ht; cbv iota; repeat qstep; cbn [ret snd];
    unfold verifyBellState; split;
    rewrite bind_getNode; norm_lookups; rewrite bind_gets; norm_lookups;
    rewrite bind_getNode; norm_lookups; world_simpl; unfold ret;
    rewrite ?(Reqb_true 0 0), ?(Reqb_true PI PI), ?(Reqb_false 0 PI), ?(Reqb_false PI 0)
      by auto;
    reflexivity.
Qed.

Lemma verify_recovers_tag_witness :
  verifyBellState "A" (snd (createEntanglement "A" "B" PsiMinus (page allZero))) =
    (Returned (Some PsiMinus), snd (createEntanglement "A" "B" PsiMinus (page allZero))) /\
  verifyBellState "B" (snd (createEntanglement "A" "B" PsiMinus (page allZero))) =
    (Returned (Some PsiMinus), snd (createEntanglement "A" "B" PsiMinus (page allZero))).
Proof.
  eapply (verify_recovers_tag (page allZero) "A" "B" PsiMinus).
  - discriminate.
  - reflexivity.
  - reflexivity.
  - reflexivity.
Defined.

(** [breakEntanglement] on a paired id removes the entry of the id and the
    entry of its partner, returns [true], and touches neither a node state
    (it forces no collapse) nor any other entry of the pairing; on an id
    without a partner it returns [false] and changes nothing. *)
Theorem break_removes_both_entries (w : World) (id : string) :
  (map_get String.eqb id (entangledPairs w) = None ->
   breakEntanglement id w = (Returned false, w)) /\
  (forall pid n pn,
     map_get String.eqb id (entangledPairs w) = Some pid ->
     truthy pid = true ->
     map_get String.eqb id (quantumNodes w) = Some n ->
     map_get String.eqb pid (quantumNodes w) = Some pn ->
     exists w',
       breakEntanglement id w = (Returned true, w') /\
       map_get String.eqb id (entangledPairs w') = None /\
       map_get String.eqb pid (entangledPairs w') = None /\
       (forall k, k <> id -> k <> pid ->
          map_get String.eqb k (entangledPairs w') = map_get String.eqb k (entangledPairs w)) /\
       quantumNodes w' = quantumNodes w /\
       entanglements w' = entanglements w).
Proof.
  split.
  - intros H. unfold breakEntanglement. rewrite bind_gets, H. reflexivity.
  - intros pid n pn H Ht Hn Hpn. unfold breakEntanglement.
    rewrite bind_gets, H, Ht. cbn [negb].
    repeat qstep. world_simpl. rewrite Hn. repeat qstep. world_simpl. rewrite Hpn.
    repeat qstep. unfold ret.
    eexists. split; [reflexivity|]. world_simpl.
    split; [|split; [|split; [|split; reflexivity]]].
    + destruct (String.eqb_spec id pid) as [->|Hne].
      * apply (map_get_delete_same _ String.eqb_spec).
      * rewrite (map_get_delete_other _ String.eqb_spec) by assumption.
        apply (map_get_delete_same _ String.eqb_spec).
    + apply (map_get_delete_same _ String.eqb_spec).
    + intros k Hk1 Hk2.
      rewrite !(map_get_delete_other _ String.eqb_spec) by assumption. reflexivity.
Qed.

Lemma break_removes_both_entries_witness :
  breakEntanglement "C" (pairedPage PhiPlus allZero) =
    (Returned false, pairedPage PhiPlus allZero) /\
  exists w',
    breakEntanglement "A" (pairedPage PhiPlus allZero) = (Returned true, w') /\
    map_get String.eqb "A" (entangledPairs w') = None /\
    map_get String.eqb "B" (entangledPairs w') = None /\
    (forall k, k <> "A" -> k <> "B" ->
       map_get String.eqb k (entangledPairs w') =
       map_get String.eqb k (entangledPairs (pairedPage PhiPlus allZero))) /\
    quantumNodes w' = quantumNodes (pairedPage PhiPlus allZero) /\
    entanglements w' = entanglements (pairedPage PhiPlus allZero).
Proof.
  split.
  - apply (proj1 (break_removes_both_entries (pairedPage PhiPlus allZero) "C")).
    reflexivity.
  - eapply (proj2 (break_removes_both_entries (pairedPage PhiPlus allZero) "A") "B");
      reflexivity.
Defined.

(** [entangleNodes] on two distinct registered nodes discards both states:
    the two nodes get the same fresh spin, phases that differ by pi, are in
    superposition with an amplitude that is not written, and their elements
    are linked both ways; with an unregistered id it returns [false] and
    changes nothing. *)
Theorem entangleNodes_links_pair (w : World) (A B : string) :
  (map_get String.eqb A (quantumNodes w) = None \/
   map_get String.eqb B (quantumNodes w) = None ->
   entangleNodes A B w = (Returned false, w)) /\
  (forall a0 b0,
     A <> B ->
     map_get String.eqb A (quantumNodes w) = Some a0 ->
     map_get String.eqb B (quantumNodes w) = Some b0 ->
     exists w' a1 b1,
       entangleNodes A B w = (Returned true, w') /\
       map_get String.eqb A (quantumNodes w') = Some a1 /\
       map_get String.eqb B (quantumNodes w') = Some b1 /\
       element a1 = element a0 /\ element b1 = element b0 /\
       spin (state b1) = spin (state a1) /\
       phase (state b1) = phase (state a1) + PI /\
       superposition (state a1) = true /\ superposition (state b1) = true /\
       amplitude (state a1) = JUndefined /\ amplitude (state b1) = JUndefined /\
       map_get Nat.eqb (element a0) (entanglements w') = Some (element b0) /\
       map_get Nat.eqb (element b0) (entanglements w') = Some (element a0)).
Proof.
  split.
  - intros H. unfold entangleNodes. rewrite !bind_getNode.
    destruct (map_get String.eqb A (quantumNodes w));
      destruct (map_get String.eqb B (quantumNodes w)); try reflexivity.
    destruct H; discriminate.
  - intros a0 b0 Hne HA HB. unfold entangleNodes, generateQuantumState.
    rewrite !bind_getNode, HA, HB. repeat qstep. unfold ret.
    do 3 eexists. split; [reflexivity|].
    split; [lookup|]. split; [lookup|]. world_simpl.
    repeat split.
    + destruct (Nat.eqb_spec (element a0) (element b0)) as [E|E].
      * rewrite E. apply (map_get_set_same _ Nat.eqb_spec).
      * rewrite (map_get_set_other _ Nat.eqb_spec) by assumption.
        apply (map_get_set_same _ Nat.eqb_spec).
    + apply (map_get_set_same _ Nat.eqb_spec).
Qed.

Lemma entangleNodes_links_pair_witness :
  entangleNodes "A" "ghost" (page allZero) = (Returned false, page allZero) /\
  exists w' a1 b1,
    entangleNodes "A" "B" (page allZero) = (Returned true, w') /\
    map_get String.eqb "A" (quantumNodes w') = Some a1 /\
    map_get String.eqb "B" (quantumNodes w') = Some b1 /\
    element a1 = 1%nat /\ element b1 = 2%nat /\
    spin (state b1) = spin (state a1) /\
    phase (state b1) = phase (state a1) + PI /\
    superposition (state a1) = true /\ superposition (state b1) = true /\
    amplitude (state a1) = JUndefined /\ amplitude (state b1) = JUndefined /\
    map_get Nat.eqb 1%nat (entanglements w') = Some 2%nat /\
    map_get Nat.eqb 2%nat (entanglements w') = Some 1%nat.
Proof.
  split.
  - apply (proj1 (entangleNodes_links_pair (page allZero) "A" "ghost")).
    right. reflexivity.
  - apply (proj2 (entangleNodes_links_pair (page allZero) "A" "B")
             (mkNode 1%nat (mkState down (0 * PI * 2) true JUndefined JUndefined) 1 0)
             (mkNode 2%nat (mkState down (0 * PI * 2) true JUndefined JUndefined) 1 0)).
    + discriminate.
    + unfold page. js_eval. rewrite (Rgtb_false 0 (1/2)) by lra. reflexivity.
    + unfold page. js_eval. rewrite (Rgtb_false 0 (1/2)) by lra. reflexivity.
Defined.

(** Register, then look up: [registerQuantumNode] on an element that carries
    an id stores, under that id, a node on that element in superposition,
    with a phase in [0, 2 pi) and an amplitude that is not written; every
    other id keeps its node, and two numbers of the seed are used. *)
Theorem register_then_lookup (w : World) (el : Element) (qNode uuid : string) :
  truthy qNode = true ->
  0 <= entropy w (S (drawn w)) < 1 ->
  exists w' n,
    registerQuantumNode el qNode uuid w = (Returned qNode, w') /\
    map_get String.eqb qNode (quantumNodes w') = Some n /\
    element n = el /\
    superposition (state n) = true /\
    amplitude (state n) = JUndefined /\
    0 <= phase (state n) < 2 * PI /\
    (forall k, k <> qNode ->
       map_get String.eqb k (quantumNodes w') = map_get String.eqb k (quantumNodes w)) /\
    drawn w' = S (S (drawn w)).
Proof.
  intros Ht Hr. unfold registerQuantumNode, generateQuantumState. rewrite Ht.
  repeat qstep. unfold ret.
  do 2 eexists. split; [reflexivity|]. world_simpl.
  split; [apply (map_get_set_same _ String.eqb_spec)|].
  pose proof PI_RGT_0.
  split; [reflexivity|]. split; [reflexivity|]. split; [reflexivity|].
  split.
  { pose proof (Rmult_le_pos _ PI (proj1 Hr) (Rlt_le _ _ H)).
    pose proof (Rmult_lt_compat_r PI _ 1 H (proj2 Hr)). simpl. lra. }
  split; [|reflexivity].
  intros k Hk. apply (map_get_set_other _ String.eqb_spec). exact Hk.
Qed.

Lemma register_then_lookup_witness :
  exists w' n,
    registerQuantumNode 4%nat "D" "" (page allZero) = (Returned "D", w') /\
    map_get String.eqb "D" (quantumNodes w') = Some n /\
    element n = 4%nat /\
    superposition (state n) = true /\
    amplitude (state n) = JUndefined /\
    0 <= phase (state n) < 2 * PI /\
    (forall k, k <> "D" ->
       map_get String.eqb k (quantumNodes w') =
       map_get String.eqb k (quantumNodes (page allZero))) /\
    drawn w' = S (S (drawn (page allZero))).
Proof.
  apply (register_then_lookup (page allZero) 4%nat "D" "").
  - reflexivity.
  - unfold allZero. simpl. lra.
Defined.

(** What a collapse with some stack left does, however its propagation
    ends: its node is out of superposition, every node is still registered
    on the same element with the same phase, amplitude and observation
    count, and no node has gone back into superposition. *)
Theorem collapse_touches_spin_only (fuel : nat) (w : World) (id : string)
  (n : QuantumNode) :
  map_get String.eqb id (quantumNodes w) = Some n ->
  collapsed id (snd (collapseWaveFunction (S fuel) id w)) /\
  forall k m,
    map_get String.eqb k (quantumNodes w) = Some m ->
    exists m',
      map_get String.eqb k (quantumNodes (snd (collapseWaveFunction (S fuel) id w))) = Some m' /\
      element m' = element m /\
      phase (state m') = phase (state m) /\
      amplitude (state m') = amplitude (state m) /\
      observationCount (state m') = observationCount (state m) /\
      (superposition (state m) = false -> superposition (state m') = false).
Proof.
  intros H. split; [apply (collapse_collapses fuel id w n H)|].
  intros k m Hk.
  destruct (keeps_collapse sameButSpin sameButSpin_refl sameButSpin_trans
              ltac:(intros; repeat split) ltac:(intros; repeat split)
              (S fuel) id w k m Hk) as (m1 & G1 & E1 & Hp & Ha & Hc).
  destruct (keeps_collapse staysCollapsed staysCollapsed_refl staysCollapsed_trans
              ltac:(intros s q Hq; exact Hq) ltac:(intros q Hq; reflexivity)
              (S fuel) id w k m Hk) as (m2 & G2 & _ & Hs).
  assert (m2 = m1) by congruence. subst m2.
  exists m1. repeat split; assumption.
Qed.

Lemma collapse_touches_spin_only_witness :
  collapsed "A" (snd (collapseWaveFunction 3 "A" (linkedPage allZero))) /\
  forall k m,
    map_get String.eqb k (quantumNodes (linkedPage allZero)) = Some m ->
    exists m',
      map_get String.eqb k
        (quantumNodes (snd (collapseWaveFunction 3 "A" (linkedPage allZero)))) = Some m' /\
      element m' = element m /\
      phase (state m') = phase (state m) /\
      amplitude (state m') = amplitude (state m) /\
      observationCount (state m') = observationCount (state m) /\
      (superposition (state m) = false -> superposition (state m') = false).
Proof.
  eapply (collapse_touches_spin_only 2 (linkedPage allZero) "A").
  unfold linkedPage, page. js_eval. reflexivity.
Defined.

Lemma bind_throw_never_returns {S A B} (m : M S A) e (s : S) :
  exists e' s', bind m (fun _ => @throw S B e) s = (Threw e', s').
Proof.
  unfold bind. destruct (m s) as [[a|e'] s1]; eexists; eexists; reflexivity.
Qed.

(** [handleObservation] returns on an id that is not registered and on a
    node that is out of superposition, changing nothing; on a node in
    superposition it never returns: after its writes it ends in an exception
    ([scheduleDecoherence] uses the string id as the key of a WeakMap). *)
Theorem observation_returns_only_when_idle (fuel : nat) (w : World) (id : string) :
  (map_get String.eqb id (quantumNodes w) = None ->
   handleObservation fuel id w = (Returned tt, w)) /\
  (forall n, map_get String.eqb id (quantumNodes w) = Some n ->
     superposition (state n) = false ->
     handleObservation fuel id w = (Returned tt, w)) /\
  (forall n, map_get String.eqb id (quantumNodes w) = Some n ->
     superposition (state n) = true ->
     exists e w', handleObservation fuel id w = (Threw e, w')).
Proof.
  unfold handleObservation. rewrite bind_getNode.
  split; [|split].
  - intros H. rewrite H. reflexivity.
  - intros n H Hs. rewrite H, Hs. reflexivity.
  - intros n H Hs. rewrite H, Hs. cbn [negb].
    repeat qstep. unfold scheduleDecoherence.
    apply bind_throw_never_returns.
Qed.

Lemma observation_returns_only_when_idle_witness :
  handleObservation 4 "ghost" (pairedPage PhiPlus allZero) =
    (Returned tt, pairedPage PhiPlus allZero) /\
  handleObservation 4 "A" (snd (collapseWaveFunction 4 "A" (pairedPage PhiPlus allZero))) =
    (Returned tt, snd (collapseWaveFunction 4 "A" (pairedPage PhiPlus allZero))) /\
  exists e w', handleObservation 4 "A" (pairedPage PhiPlus allZero) = (Threw e, w').
Proof.
  split; [|split].
  - apply (proj1 (observation_returns_only_when_idle 4 (pairedPage PhiPlus allZero) "ghost")).
    reflexivity.
  - eapply (proj1 (proj2 (observation_returns_only_when_idle 4
              (snd (collapseWaveFunction 4 "A" (pairedPage PhiPlus allZero))) "A"))).
    + unfold pairedPage, page. js_eval. reflexivity.
    + reflexivity.
  - eapply (proj2 (proj2 (observation_returns_only_when_idle 4
              (pairedPage PhiPlus allZero) "A"))).
    + unfold pairedPage, page. js_eval. reflexivity.
    + reflexivity.
Defined.

(** The methods that check their lookups, on an id neither registered nor
    paired. *)
Lemma checked_methods_skip_missing_witness :
  collapseWaveFunction 1 "ghost" (page allZero) = (Returned tt, page allZero) /\
  handleObservation 0 "ghost" (page allZero) = (Returned tt, page allZero) /\
  decoherenceTimeout 0 "ghost" (page allZero) = (Returned tt, page allZero) /\
  applyDecoherence 0 "ghost" (page allZero) = (Returned tt, page allZero) /\
  applyDephasing "ghost" 1 (page allZero) = (Returned tt, page allZero) /\
  createEntanglement "ghost" "A" PhiPlus (page allZero) = (Returned false, page allZero) /\
  verifyBellState "ghost" (page allZero) = (Returned None, page allZero) /\
  breakEntanglement "ghost" (page allZero) = (Returned false, page allZero).
Proof.
  apply (checked_methods_skip_missing 0 (page allZero) "ghost" "A" PhiPlus 1);
    reflexivity.
Defined.

Lemma collapse_frame (fuel : nat) (id : string) (w : World) (n : QuantumNode) :
  map_get String.eqb id (quantumNodes w) = Some n ->
  exists n',
    map_get String.eqb id (quantumNodes (snd (collapseWaveFunction (S fuel) id w))) = Some n' /\
    superposition (state n') = false /\
    phase (state n') = phase (state n) /\
    amplitude (state n') = amplitude (state n) /\
    observationCount (state n') = observationCount (state n).
Proof.
  intros H.
  destruct (collapse_collapses fuel id w n H) as (n' & G & C).
  destruct (keeps_collapse sameButSpin sameButSpin_refl sameButSpin_trans
              ltac:(intros; repeat split) ltac:(intros; repeat split)
              (S fuel) id w id n H) as (n2 & G2 & _ & Hp & Ha & Hc).
  assert (n2 = n') by congruence. subst n2.
  exists n'. repeat split; assumption.
Qed.

(** One run of [applyDecoherence] on a registered node whose amplitude is a
    number, with some stack left.  When the first draw is below
    [measurementBackaction] the node is collapsed and keeps its phase and
    amplitude.  Otherwise its amplitude is multiplied by 0.9, its phase moves
    by [(r' - 0.5) * pi / 4] for the second draw [r'] (at most pi / 8 either
    way), and it is collapsed when the new amplitude is below 0.3 and keeps
    its mode when it is not. *)
Theorem decoherence_jumps_or_damps (fuel : nat) (w : World) (id : string)
  (n : QuantumNode) (a : R) :
  map_get String.eqb id (quantumNodes w) = Some n ->
  amplitude (state n) = JNum a ->
  0 <= entropy w (S (drawn w)) < 1 ->
  exists n',
    map_get String.eqb id (quantumNodes (snd (applyDecoherence (S fuel) id w))) = Some n' /\
    (entropy w (drawn w) < measurementBackaction w ->
     superposition (state n') = false /\
     amplitude (state n') = JNum a /\ phase (state n') = phase (state n)) /\
    (~ entropy w (drawn w) < measurementBackaction w ->
     amplitude (state n') = JNum (a * (9/10)) /\
     phase (state n') = phase (state n) + (entropy w (S (drawn w)) - 1/2) * PI / 4 /\
     Rabs (phase (state n') - phase (state n)) <= PI / 8 /\
     (a * (9/10) < 3/10 -> superposition (state n') = false) /\
     (~ a * (9/10) < 3/10 -> superposition (state n') = superposition (state n))).
Proof.
  intros H Ha Hr. unfold applyDecoherence.
  rewrite bind_getNode, H. repeat qstep. world_simpl.
  destruct (Rltb (entropy w (drawn w)) (measurementBackaction w)) eqn:E.
  - apply Rltb_iff in E.
    set (w1 := set_drawn (S (drawn w)) w).
    assert (H1 : map_get String.eqb id (quantumNodes w1) = Some n) by exact H.
    destruct (collapse_frame fuel id w1 n H1) as (n' & G & C & Hp & Hamp & _).
    exists n'. split; [exact G|]. split.
    + intros _. repeat split; congruence.
    + intros N. contradiction.
  - assert (N : ~ entropy w (drawn w) < measurementBackaction w).
    { intros L. apply Rltb_iff in L. congruence. }
    repeat qstep. world_simpl. rewrite Ha. cbn [js_mul js_lt].
    set (r' := entropy w (S (drawn w))) in *.
    set (w1 := set_quantumNodes _ (set_quantumNodes _ _)).
    assert (H1 : exists n1, map_get String.eqb id (quantumNodes w1) = Some n1 /\
                  amplitude (state n1) = JNum (a * (9/10)) /\
                  phase (state n1) = phase (state n) + (r' - 1/2) * PI / 4 /\
                  superposition (state n1) = superposition (state n)).
    { eexists. split; [subst w1; lookup|]. world_simpl. repeat split. }
    destruct H1 as (n1 & G1 & A1 & P1 & S1).
    assert (Hb : Rabs ((r' - 1/2) * PI / 4) <= PI / 8).
    { pose proof PI_RGT_0. apply Rabs_le.
      assert (- (1/2) * PI <= (r' - 1/2) * PI) by nra.
      assert ((r' - 1/2) * PI <= 1/2 * PI) by nra.
      lra. }
    destruct (Rltb (a * (9/10)) (3/10)) eqn:L.
    + apply Rltb_iff in L.
      destruct (collapse_frame fuel id w1 n1 G1) as (n' & G & C & Hp & Hamp & _).
      exists n'. split; [exact G|]. split; [intros X; contradiction|].
      intros _. split; [congruence|]. split; [congruence|].
      split; [rewrite Hp, P1; replace (phase (state n) + (r' - 1/2) * PI / 4 - phase (state n))
                with ((r' - 1/2) * PI / 4) by ring; exact Hb|].
      split; [intros _; exact C | intros X; contradiction].
    + assert (L' : ~ a * (9/10) < 3/10).
      { intros X. apply Rltb_iff in X. congruence. }
      exists n1. split; [exact G1|]. split; [intros X; contradiction|].
      intros _. split; [exact A1|]. split; [exact P1|].
      split; [rewrite P1; replace (phase (state n) + (r' - 1/2) * PI / 4 - phase (state n))
                with ((r' - 1/2) * PI / 4) by ring; exact Hb|].
      split; [intros X; contradiction | intros _; exact S1].
Qed.

Lemma decoherence_jumps_or_damps_witness :
  exists n',
    map_get String.eqb "A"
      (quantumNodes (snd (applyDecoherence 1 "A" (pairedPage PhiPlus (highAt 6))))) = Some n' /\
    (entropy (pairedPage PhiPlus (highAt 6)) (drawn (pairedPage PhiPlus (highAt 6)))
       < measurementBackaction (pairedPage PhiPlus (highAt 6)) ->
     superposition (state n') = false /\
     amplitude (state n') = JNum 1 /\ phase (state n') = 0) /\
    (~ entropy (pairedPage PhiPlus (highAt 6)) (drawn (pairedPage PhiPlus (highAt 6)))
         < measurementBackaction (pairedPage PhiPlus (highAt 6)) ->
     amplitude (state n') = JNum (1 * (9/10)) /\
     phase (state n') =
       0 + (entropy (pairedPage PhiPlus (highAt 6))
              (S (drawn (pairedPage PhiPlus (highAt 6)))) - 1/2) * PI / 4 /\
     Rabs (phase (state n') - 0) <= PI / 8 /\
     (1 * (9/10) < 3/10 -> superposition (state n') = false) /\
     (~ 1 * (9/10) < 3/10 -> superposition (state n') = true)).
Proof.
  apply (decoherence_jumps_or_damps 0 (pairedPage PhiPlus (highAt 6)) "A"
           (mkNode 1%nat (mkState up 0 true (JNum 1) JUndefined) 1 0) 1).
  - reflexivity.
  - reflexivity.
  - unfold pairedPage, page. js_eval. lra.
Defined.

End QuantumFacts.

(** ** The neural engine *)

Module NeuroFacts.
Import Neuro NeuroProps.

Lemma clamp01_bounds x : 0 <= clamp01 x <= 1.
Proof.
  unfold clamp01. split.
  - apply Rmax_l.
  - apply Rmax_lub; [lra | apply Rmin_l].
Qed.

Lemma keepsUnit_ret {A} (a : A) : keepsUnit (ret a).
Proof. intros n H. exact H. Qed.

Lemma keepsUnit_throw {A} e : keepsUnit (@throw Network A e).
Proof. intros n H. exact H. Qed.

Lemma keepsUnit_gets {A} (f : Network -> A) : keepsUnit (gets f).
Proof. intros n H. exact H. Qed.

Lemma keepsUnit_bind {A B} (m : NM A) (k : A -> NM B) :
  keepsUnit m -> (forall a, keepsUnit (k a)) -> keepsUnit (bind m k).
Proof.
  intros Hm Hk n H. unfold bind. specialize (Hm n H).
  destruct (m n) as [[a|e] n1]; simpl in *.
  - apply Hk, Hm.
  - exact Hm.
Qed.

Lemma keepsUnit_forEach {A} (l : list A) (f : A -> NM unit) :
  (forall a, keepsUnit (f a)) -> keepsUnit (forEach l f).
Proof.
  intros Hf. induction l as [|a l IH]; simpl.
  - apply keepsUnit_ret.
  - apply keepsUnit_bind; [apply Hf | intros _; exact IH].
Qed.

Lemma keepsUnit_elementOf id : keepsUnit (elementOf id).
Proof.
  intros n H. unfold elementOf.
  destruct (map_get String.eqb id (qniNodes n)); exact H.
Qed.

Lemma keepsUnit_weightGet e post : keepsUnit (weightGet e post).
Proof.
  intros n H. unfold weightGet.
  destruct (map_get Nat.eqb e (hebbianWeights n)); exact H.
Qed.

Lemma keepsUnit_modify (f : Network -> Network) :
  (forall n, hebbianWeights (f n) = hebbianWeights n) -> keepsUnit (modify f).
Proof.
  intros Hf n H e wm post v G1 G2. simpl in G1. rewrite Hf in G1. eapply H; eassumption.
Qed.

(** Writing a weight of [0,1] keeps the weights in [0,1]. *)
Lemma keepsUnit_weightSet e post v :
  0 <= v <= 1 -> keepsUnit (weightSet e post v).
Proof.
  intros Hv n H. unfold weightSet.
  destruct (map_get Nat.eqb e (hebbianWeights n)) as [wm|] eqn:G; [|exact H].
  intros e' wm' post' v' G1 G2. simpl in G1.
  destruct (Nat.eqb_spec e' e) as [->|Hne].
  - rewrite (map_get_set_same _ Nat.eqb_spec) in G1. injection G1 as <-.
    destruct (String.eqb_spec post' post) as [->|Hp].
    + rewrite (map_get_set_same _ String.eqb_spec) in G2. injection G2 as <-. exact Hv.
    + rewrite (map_get_set_other _ String.eqb_spec) in G2 by assumption.
      eapply H; eassumption.
  - rewrite (map_get_set_other _ Nat.eqb_spec) in G1 by assumption.
    eapply H; eassumption.
Qed.

Ltac unit_step :=
  match goal with
  | |- keepsUnit (bind _ _) => apply keepsUnit_bind; [ | intro]
  | |- keepsUnit (ret _) => apply keepsUnit_ret
  | |- keepsUnit (throw _) => apply keepsUnit_throw
  | |- keepsUnit (gets _) => apply keepsUnit_gets
  | |- keepsUnit (getNeuron _) => apply keepsUnit_gets
  | |- keepsUnit (getWeightMap _) => apply keepsUnit_gets
  | |- keepsUnit (elementOf _) => apply keepsUnit_elementOf
  | |- keepsUnit (weightGet _ _) => apply keepsUnit_weightGet
  | |- keepsUnit (weightSet _ _ (clamp01 _)) => apply keepsUnit_weightSet, clamp01_bounds
  | |- keepsUnit (tagSynapse _ _ _) => apply keepsUnit_throw
  | |- keepsUnit (forEach _ _) => apply keepsUnit_forEach; intro
  | |- keepsUnit (match ?x with _ => _ end) => destruct x
  | |- keepsUnit (if ?x then _ else _) => destruct x
  | |- keepsUnit (let '(_, _) := ?x in _) => destruct x
  end.

Lemma scaleSynapse_keepsUnit pre post factor : keepsUnit (scaleSynapse pre post factor).
Proof. unfold scaleSynapse. repeat unit_step. Qed.

Lemma applyPlasticityRule_keepsUnit r pre post sd :
  keepsUnit (applyPlasticityRule r pre post sd).
Proof.
  destruct r; simpl.
  - unfold applyHebbianRule. repeat unit_step.
  - unfold applyBCMRule. repeat unit_step.
  - unfold applyOjaRule. repeat unit_step.
  - unfold applySTDPRule. repeat unit_step.
  - apply keepsUnit_ret.
Qed.

Lemma runWeightOp_keepsUnit op : keepsUnit (runWeightOp op).
Proof.
  destruct op; simpl.
  - apply keepsUnit_bind; [apply applyPlasticityRule_keepsUnit | intro; apply keepsUnit_ret].
  - apply scaleSynapse_keepsUnit.
  - unfold applyHomeostaticPlasticity.
    repeat first [apply scaleSynapse_keepsUnit | unit_step].
  - apply keepsUnit_throw.
  - unfold modulateTagged.
    repeat first [apply scaleSynapse_keepsUnit | unit_step].
Qed.

(** After a write, the weight read back is the weight written. *)
Lemma weightOf_written n pre post e wm v :
  map_get String.eqb pre (qniNodes n) = Some e ->
  weightOf (set_hebbianWeights
              (map_set Nat.eqb e (map_set String.eqb post v wm)) n) pre post = Some v.
Proof.
  intros H. unfold weightOf. simpl. rewrite H.
  rewrite (map_get_set_same _ Nat.eqb_spec).
  apply (map_get_set_same _ String.eqb_spec).
Qed.

(** Case analysis on the lookups of a plasticity rule. *)
Ltac rule_cases :=
  repeat match goal with
  | |- context [match map_get ?eqb ?k ?m with _ => _ end] =>
      let E := fresh "E" in destruct (map_get eqb k m) eqn:E; simpl
  | |- context [if Rgtb ?x ?y then _ else _] =>
      let E := fresh "E" in destruct (Rgtb x y) eqn:E; simpl
  end.

(** A rule that returns [true] has written a weight of [0,1] on the synapse. *)
Lemma rule_writes_unit_weight r pre post sd n :
  fst (applyPlasticityRule r pre post sd n) = Returned true ->
  exists v, weightOf (snd (applyPlasticityRule r pre post sd n)) pre post = Some v /\
            0 <= v <= 1.
Proof.
  destruct r; simpl;
    unfold applyHebbianRule, applyBCMRule, applyOjaRule, applySTDPRule, tagSynapse,
      bind, getNeuron, gets, elementOf, weightGet, weightSet, ret, throw; simpl.
  - rule_cases; intros H; try discriminate H;
      (eexists; split; [apply weightOf_written; eassumption | apply clamp01_bounds]).
  - rule_cases; intros H; try discriminate H;
      (eexists; split; [apply weightOf_written; eassumption | apply clamp01_bounds]).
  - rule_cases; intros H; try discriminate H;
      (eexists; split; [apply weightOf_written; eassumption | apply clamp01_bounds]).
  - rule_cases; intros H; try discriminate H;
      (eexists; split; [apply weightOf_written; eassumption | apply clamp01_bounds]).
  - intros H. discriminate H.
Qed.

(** C3: every plasticity rule (Hebbian, STDP, BCM, Oja), homeostatic scaling,
    a scaling by any factor and reward modulation keep every weight in
    [0,1], whatever the membrane potentials and spike times and whatever the
    outcome of the call; and the weight a rule has written when it returns
    [true] lies in [0,1]. *)
Theorem plasticity_keeps_weights_in_unit (n : Network) :
  weightsInUnit n ->
  (forall op, weightsInUnit (snd (runWeightOp op n))) /\
  (forall r pre post sd,
     fst (applyPlasticityRule r pre post sd n) = Returned true ->
     exists v, weightOf (snd (applyPlasticityRule r pre post sd n)) pre post = Some v /\
               0 <= v <= 1).
Proof.
  intros H. split.
  - intros op. apply runWeightOp_keepsUnit, H.
  - intros r pre post sd. apply rule_writes_unit_weight.
Qed.

Ltac js_eval :=
  cbv -[Rgtb Rltb Rgeb Reqb Rplus Rminus Rmult Rdiv Ropp Rinv IZR PI exp cos sin
        sqrt Rmax Rmin Rabs INR Rlt Rgt Rle Rge clamp01].

Ltac js_eval_in H :=
  cbv -[Rgtb Rltb Rgeb Reqb Rplus Rminus Rmult Rdiv Ropp Rinv IZR PI exp cos sin
        sqrt Rmax Rmin Rabs INR Rlt Rgt Rle Rge clamp01] in H.

Lemma wired_weightsInUnit : weightsInUnit (wired (fun _ => 0)).
Proof.
  intros e wm post v G1 G2. js_eval_in G1.
  repeat match type of G1 with
  | (if ?c then _ else _) = _ => destruct c
  end; try discriminate G1; injection G1 as <-; js_eval_in G2;
  repeat match type of G2 with
  | (if ?c then _ else _) = _ => destruct c
  end; try discriminate G2.
  injection G2 as <-. lra.
Qed.

(** C3, witness: the Hebbian rule on the synapse from "a" to "b". *)
Lemma plasticity_keeps_weights_witness :
  weightsInUnit (wired (fun _ => 0)) /\
  weightsInUnit
    (snd (runWeightOp (RuleOp hebbian "a" "b" (mkSpike 0 5)) (wired (fun _ => 0)))) /\
  exists v,
    weightOf (snd (applyPlasticityRule hebbian "a" "b" (mkSpike 0 5) (wired (fun _ => 0))))
             "a" "b" = Some v /\ 0 <= v <= 1.
Proof.
  destruct (plasticity_keeps_weights_in_unit (wired (fun _ => 0)) wired_weightsInUnit)
    as [H1 H2].
  split; [exact wired_weightsInUnit|]. split; [apply H1|].
  apply H2. reflexivity.
Defined.

(** *** Eviction *)

(** The scan of [pruneWeakestSynapse] ends on a weight that bounds from below
    both the starting [minWeight] and every weight it has seen, and the id it
    ends on, when it is not the starting one, carries that weight. *)
Lemma scanWeakest_min nn wm syn : forall acc m,
  let r := scanWeakest nn wm syn acc m in
  snd r <= m /\
  (forall s v, In s syn -> weightOfNeuron nn wm s = Some v -> snd r <= v) /\
  (r = (acc, m) \/
   exists s, fst r = Some s /\ In s syn /\ weightOfNeuron nn wm s = Some (snd r) /\
             snd r < m).
Proof.
  induction syn as [|x syn IH]; intros acc m; simpl.
  - split; [lra|]. split; [intros s v []|]. left. reflexivity.
  - destruct (weightOfNeuron nn wm x) as [wx|] eqn:Gx.
    + destruct (Rltb wx m) eqn:L.
      * apply Rltb_iff in L.
        destruct (IH (Some x) wx) as (B & A & C). simpl in B, A, C.
        split; [lra|]. split.
        -- intros s v [<-|Hin] G; [assert (v = wx) by congruence; lra | eauto].
        -- right. destruct C as [C | (s & F & Hin & G & Lt)].
           ++ rewrite C. simpl. exists x. repeat split; auto.
           ++ exists s. repeat split; auto. lra.
      * assert (N : ~ wx < m) by (intros N; apply Rltb_iff in N; congruence).
        destruct (IH acc m) as (B & A & C). simpl in B, A, C.
        split; [exact B|]. split.
        -- intros s v [<-|Hin] G; [assert (v = wx) by congruence; lra | eauto].
        -- destruct C as [C | (s & F & Hin & G & Lt)]; [left; exact C|].
           right. exists s. repeat split; auto.
    + destruct (IH acc m) as (B & A & C). simpl in B, A, C.
      split; [exact B|]. split.
      * intros s v [<-|Hin] G; [congruence | eauto].
      * destruct C as [C | (s & F & Hin & G & Lt)]; [left; exact C|].
        right. exists s. repeat split; auto.
Qed.

(** The synapse that [pruneWeakestSynapse] picks is one of the neuron's
    synapses and no synapse of the neuron has a smaller weight. *)
Lemma evicted_synapse_is_minimal nn wm syn weakestId :
  fst (scanWeakest nn wm syn None 1) = Some weakestId ->
  In weakestId syn /\
  exists w0, weightOfNeuron nn wm weakestId = Some w0 /\ w0 < 1 /\
    forall s v, In s syn -> weightOfNeuron nn wm s = Some v -> w0 <= v.
Proof.
  intros H. destruct (scanWeakest_min nn wm syn None 1) as (B & A & C).
  simpl in B, A, C. destruct C as [C | (s & F & Hin & G & Lt)].
  - rewrite C in H. discriminate H.
  - assert (s = weakestId) by congruence. subst s.
    split; [exact Hin|]. eexists. split; [exact G|]. split; [exact Lt | exact A].
Qed.

Lemma set_remove_shorter (x : string) (s : list string) :
  In x s -> (List.length (set_remove x s) < List.length s)%nat.
Proof.
  induction s as [|y s IH]; intros H; simpl in *.
  - contradiction.
  - destruct (String.eqb x y) eqn:E; simpl.
    + pose proof (filter_length_le (fun z => negb (String.eqb x z)) s).
      unfold set_remove. lia.
    + apply String.eqb_neq in E.
      destruct H as [H|H]; [congruence|]. specialize (IH H).
      unfold set_remove in IH |- *. lia.
Qed.

Lemma fanOut_updated (n : Network) (pre : string) (x : Neuron) (g : list string -> list string) :
  map_get String.eqb pre (neuralNetwork n) = Some x ->
  fanOut pre (snd (updateSynapses pre g n)) = List.length (g (synapses x)).
Proof.
  intros H. unfold fanOut, updateSynapses. simpl. rewrite H.
  rewrite (map_get_set_same _ String.eqb_spec). reflexivity.
Qed.

(** The end of [formSynapse]: the synapse is added, then its weight written. *)
Lemma formSynapse_tail (n : Network) (pre post : string) (w0 : R) (x : Neuron) :
  map_get String.eqb pre (neuralNetwork n) = Some x ->
  fanOut pre
    (snd ((updateSynapses pre (fun s => app s [post]) ;;
           e <- elementOf pre ;;
           weightSet e post w0 ;;
           ret true) n)) = S (List.length (synapses x)).
Proof.
  intros Hx. unfold updateSynapses. rewrite bind_modify.
  match goal with
  | |- fanOut _ (snd (_ ?n2)) = _ =>
      assert (F : fanOut pre n2 = S (List.length (synapses x)))
  end.
  { unfold fanOut. simpl. rewrite Hx.
    rewrite (map_get_set_same _ String.eqb_spec). simpl.
    rewrite length_app. simpl. lia. }
  rewrite <- F. unfold bind, elementOf, weightSet.
  cbn [qniNodes hebbianWeights set_neuralNetwork].
  destruct (map_get String.eqb pre (qniNodes n)) as [e0|]; [|reflexivity].
  cbn [qniNodes hebbianWeights set_neuralNetwork].
  destruct (map_get Nat.eqb e0 (hebbianWeights n)); reflexivity.
Qed.

(** While some outgoing synapse of [pre] has a weight below 1, and the ids
    are non-empty strings, [formSynapse] keeps the fan-out of [pre] within
    [maxSynapses], whatever its outcome. *)
Lemma formSynapse_within_capacity (n : Network) (pre post : string) (w0 : R)
  (x : Neuron) (e : Element) (wm : list (string * R)) (s : string) (v : R) :
  map_get String.eqb pre (neuralNetwork n) = Some x ->
  map_get String.eqb pre (qniNodes n) = Some e ->
  map_get Nat.eqb e (hebbianWeights n) = Some wm ->
  (List.length (synapses x) <= maxSynapses n)%nat ->
  In s (synapses x) -> weightOfNeuron (neuralNetwork n) wm s = Some v -> v < 1 ->
  (forall id, In id (synapses x) -> truthy id = true) ->
  (fanOut pre (snd (formSynapse pre post w0 n)) <= maxSynapses n)%nat.
Proof.
  intros Hx He Hwm Hlen Hin Hw Hv Hids.
  assert (F0 : fanOut pre n = List.length (synapses x))
    by (unfold fanOut; rewrite Hx; reflexivity).
  unfold formSynapse.
  destruct (String.eqb pre post); [simpl; lia|].
  unfold getNeuron. rewrite !bind_gets, Hx.
  destruct (map_get String.eqb post (neuralNetwork n)) as [y|]; [|simpl; lia].
  destruct (set_has post (synapses x)); [simpl; lia|].
  rewrite bind_gets.
  destruct (Nat.leb (maxSynapses n) (List.length (synapses x))) eqn:L; cbv beta iota.
  - destruct (scanWeakest_min (neuralNetwork n) wm (synapses x) None 1) as (B & A & C).
    simpl in B, A, C.
    destruct C as [C | (weak & F & Hweak & G & Lt)].
    { rewrite C in A. simpl in A. specialize (A s v Hin Hw). lra. }
    assert (P : pruneWeakestSynapse pre n =
                (Threw TypeError, snd (updateSynapses pre (set_remove weak) n))).
    { unfold pruneWeakestSynapse, getNeuron, getWeightMap, removeSynapticConnection.
      rewrite bind_gets, Hx. unfold bind at 1. unfold elementOf. rewrite He.
      rewrite bind_gets, Hwm, bind_gets, F, (Hids weak Hweak).
      reflexivity. }
    unfold bind at 1. rewrite P. cbn [snd].
    rewrite (fanOut_updated n pre x _ Hx).
    pose proof (set_remove_shorter weak (synapses x) Hweak). lia.
  - apply Nat.leb_gt in L. rewrite bind_ret.
    rewrite (formSynapse_tail n pre post w0 x Hx). lia.
Qed.

(** With a capacity of two and weights 0.5 and 0.3, a third synapse evicts
    the one of weight 0.3, and there the call ends: the eviction raises a
    [TypeError] and the third synapse is never added. *)
Lemma third_synapse_evicts_smallest (e : nat -> R) :
  fst (formSynapse "a" "d" (4/10) (twoWeights e)) = Threw TypeError /\
  exists x,
    map_get String.eqb "a" (neuralNetwork (snd (formSynapse "a" "d" (4/10) (twoWeights e))))
      = Some x /\
    synapses x = ["b"].
Proof.
  js_eval.
  rewrite (Rltb_true (5/10) 1) by lra. js_eval.
  rewrite (Rltb_true (3/10) (5/10)) by lra. js_eval.
  split; [reflexivity|]. eexists. split; reflexivity.
Qed.

(** C4, at the failing input: with [maxSynapses = 2], three calls of
    [formSynapse] from "a" with weight 1 all return [true] and leave "a" with
    three outgoing synapses: the scan for the weakest starts from
    [minWeight = 1] and compares with [<], so it finds no synapse to evict
    among weights equal to 1. *)
Theorem saturated_weights_overflow_capacity (e : nat -> R) :
  fst ((formSynapse "a" "b" 1 ;; formSynapse "a" "c" 1 ;; formSynapse "a" "d" 1)
         (net 2 e)) = Returned true /\
  maxSynapses (saturated e) = 2%nat /\
  fanOut "a" (saturated e) = 3%nat.
Proof.
  unfold saturated. js_eval.
  rewrite !(Rltb_false 1 1) by lra. js_eval.
  repeat split.
Qed.

(** The rules that check their lookups first return [false] and change
    nothing when no neuron is registered under one of the ids. *)
Lemma checked_rules_skip_missing (n : Network) (pre post : string) :
  map_get String.eqb pre (neuralNetwork n) = None \/
  map_get String.eqb post (neuralNetwork n) = None ->
  applyHebbianRule pre post n = (Returned false, n) /\
  applyOjaRule pre post n = (Returned false, n).
Proof.
  intros H. unfold applyHebbianRule, applyOjaRule, getNeuron.
  rewrite !bind_gets.
  destruct (map_get String.eqb pre (neuralNetwork n));
    destruct (map_get String.eqb post (neuralNetwork n));
    try (split; reflexivity).
  destruct H; discriminate.
Qed.

(** *** Further properties of the engine *)

Lemma keepsUnit_random : keepsUnit Math_random.
Proof. intros n H. exact H. Qed.

Lemma keepsUnit_updateSynapses id g : keepsUnit (updateSynapses id g).
Proof. apply keepsUnit_modify. reflexivity. Qed.

Lemma keepsUnit_updateNeuron id g : keepsUnit (updateNeuron id g).
Proof. apply keepsUnit_modify. reflexivity. Qed.

(** A fresh, empty weight map keeps the weights in [0,1]. *)
Lemma keepsUnit_newWeightMap e :
  keepsUnit (modify (set_hebbianWeights (map_set Nat.eqb e []))).
Proof.
  intros n H e' wm post v G1 G2. simpl in G1.
  destruct (Nat.eqb_spec e' e) as [->|Hne].
  - rewrite (map_get_set_same _ Nat.eqb_spec) in G1. injection G1 as <-.
    discriminate G2.
  - rewrite (map_get_set_other _ Nat.eqb_spec) in G1 by assumption.
    eapply H; eassumption.
Qed.

Ltac unit_step' :=
  match goal with
  | |- keepsUnit Math_random => apply keepsUnit_random
  | |- keepsUnit randomNeurotransmitter =>
      unfold randomNeurotransmitter
  | |- keepsUnit (updateSynapses _ _) => apply keepsUnit_updateSynapses
  | |- keepsUnit (updateNeuron _ _) => apply keepsUnit_updateNeuron
  | |- keepsUnit (removeSynapticConnection _ _) => apply keepsUnit_throw
  | |- keepsUnit (modify (set_hebbianWeights (map_set Nat.eqb _ []))) =>
      apply keepsUnit_newWeightMap
  | |- keepsUnit (modify _) => apply keepsUnit_modify; reflexivity
  | |- keepsUnit (match ?x with _ => _ end) => destruct x
  | _ => unit_step
  end.

Lemma propagateSpike_keepsUnit pre post : keepsUnit (propagateSpike pre post).
Proof. unfold propagateSpike. repeat unit_step'. Qed.

Lemma fireNeuron_keepsUnit now id : keepsUnit (fireNeuron now id).
Proof.
  unfold fireNeuron. repeat first [apply propagateSpike_keepsUnit | unit_step'].
Qed.

(** The engine keeps every weight in [0,1]: registering a neuron, pruning,
    spreading a spike, a tick of the network, a tick of the activity monitor
    and the engine's own STDP rule do, whatever their outcome, and so does
    [formSynapse] when the initial weight it is given lies in [0,1]. *)
Theorem engine_keeps_weights_in_unit (n : Network) :
  weightsInUnit n ->
  (forall id, weightsInUnit (snd (registerNeuron id n))) /\
  (forall id, weightsInUnit (snd (pruneWeakestSynapse id n))) /\
  (forall pre post w0, 0 <= w0 <= 1 -> weightsInUnit (snd (formSynapse pre post w0 n))) /\
  (forall pre post, weightsInUnit (snd (propagateSpike pre post n))) /\
  (forall now, weightsInUnit (snd (globalNetworkUpdate now n))) /\
  weightsInUnit (snd (trackActivity n)) /\
  (forall history id t, weightsInUnit (snd (applySTDPLearning history id t n))).
Proof.
  intros H.
  refine (conj _ (conj _ (conj _ (conj _ (conj _ (conj _ _)))))); intros.
  - assert (K : keepsUnit (registerNeuron id))
      by (unfold registerNeuron; repeat unit_step').
    apply K, H.
  - assert (K : keepsUnit (pruneWeakestSynapse id))
      by (unfold pruneWeakestSynapse; repeat unit_step').
    apply K, H.
  - assert (K : keepsUnit (formSynapse pre post w0)).
    { unfold formSynapse, pruneWeakestSynapse.
      repeat first [apply keepsUnit_weightSet; assumption | unit_step']. }
    apply K, H.
  - apply propagateSpike_keepsUnit, H.
  - assert (K : keepsUnit (globalNetworkUpdate now)).
    { unfold globalNetworkUpdate.
      repeat first [apply fireNeuron_keepsUnit | unit_step']. }
    apply K, H.
  - assert (K : keepsUnit trackActivity)
      by (unfold trackActivity; repeat unit_step').
    apply K, H.
  - assert (K : keepsUnit (applySTDPLearning history id t))
      by (unfold applySTDPLearning; repeat unit_step').
    apply K, H.
Qed.

Lemma engine_keeps_weights_in_unit_witness :
  (forall id, weightsInUnit (snd (registerNeuron id (wired (fun _ => 0))))) /\
  (forall id, weightsInUnit (snd (pruneWeakestSynapse id (wired (fun _ => 0))))) /\
  (forall pre post w0, 0 <= w0 <= 1 ->
     weightsInUnit (snd (formSynapse pre post w0 (wired (fun _ => 0))))) /\
  (forall pre post, weightsInUnit (snd (propagateSpike pre post (wired (fun _ => 0))))) /\
  (forall now, weightsInUnit (snd (globalNetworkUpdate now (wired (fun _ => 0))))) /\
  weightsInUnit (snd (trackActivity (wired (fun _ => 0)))) /\
  (forall history id t,
     weightsInUnit (snd (applySTDPLearning history id t (wired (fun _ => 0))))).
Proof.
  apply (engine_keeps_weights_in_unit (wired (fun _ => 0))).
  exact wired_weightsInUnit.
Defined.

(** *** Pruning and forming synapses on registered neurons *)

Lemma bind_elementOf {B} (id : string) (e : Element) (k : Element -> NM B) (n : Network) :
  map_get String.eqb id (qniNodes n) = Some e -> bind (elementOf id) k n = k e n.
Proof. intros H. unfold bind, elementOf. rewrite H. reflexivity. Qed.

Lemma bind_weightSet {B} (e : Element) (post : string) (v : R) (wm : list (string * R))
  (k : unit -> NM B) (n : Network) :
  map_get Nat.eqb e (hebbianWeights n) = Some wm ->
  bind (weightSet e post v) k n =
  k tt (set_hebbianWeights (map_set Nat.eqb e (map_set String.eqb post v wm)) n).
Proof. intros H. unfold bind, weightSet. rewrite H. reflexivity. Qed.

Lemma updateSynapses_same (n : Network) (id : string) (x : Neuron) g :
  map_get String.eqb id (neuralNetwork n) = Some x ->
  map_get String.eqb id (neuralNetwork (snd (updateSynapses id g n))) =
  Some (set_synapses (g (synapses x)) x).
Proof.
  intros H. unfold updateSynapses. simpl. rewrite H.
  apply (map_get_set_same _ String.eqb_spec).
Qed.

Lemma updateSynapses_other (n : Network) (id id' : string) g :
  id' <> id ->
  map_get String.eqb id' (neuralNetwork (snd (updateSynapses id g n))) =
  map_get String.eqb id' (neuralNetwork n).
Proof.
  intros H. unfold updateSynapses. simpl.
  destruct (map_get String.eqb id (neuralNetwork n)); [|reflexivity].
  apply (map_get_set_other _ String.eqb_spec). exact H.
Qed.

Lemma set_remove_absent (x : string) (s : list string) : ~ In x (set_remove x s).
Proof.
  unfold set_remove. intros H. apply filter_In in H. destruct H as [_ H].
  rewrite String.eqb_refl in H. discriminate H.
Qed.

Lemma set_has_remove (x y : string) (s : list string) :
  set_has y s = false -> set_has y (set_remove x s) = false.
Proof.
  unfold set_has, set_remove. induction s as [|z s IH]; simpl; intros H.
  - reflexivity.
  - apply Bool.orb_false_iff in H. destruct H as [H1 H2].
    destruct (negb (String.eqb x z)); simpl; [rewrite H1|]; auto.
Qed.

Lemma set_has_added (y : string) (s : list string) : set_has y (app s [y]) = true.
Proof.
  unfold set_has. rewrite existsb_app. simpl. rewrite String.eqb_refl.
  rewrite Bool.orb_true_r. reflexivity.
Qed.

(** On a neuron that has its node and its weight map, [pruneWeakestSynapse]
    either returns and leaves the engine as it was, or removes from the
    neuron the synapse the scan picked and raises a [TypeError] at the call
    of the method the class does not define. *)
Lemma prune_run (n : Network) (id : string) (x : Neuron) (e : Element)
  (wm : list (string * R)) :
  map_get String.eqb id (neuralNetwork n) = Some x ->
  map_get String.eqb id (qniNodes n) = Some e ->
  map_get Nat.eqb e (hebbianWeights n) = Some wm ->
  pruneWeakestSynapse id n = (Returned tt, n) \/
  exists weak,
    fst (scanWeakest (neuralNetwork n) wm (synapses x) None 1) = Some weak /\
    truthy weak = true /\
    pruneWeakestSynapse id n =
      (Threw TypeError, snd (updateSynapses id (set_remove weak) n)).
Proof.
  intros Hx He Hwm.
  unfold pruneWeakestSynapse, getNeuron, getWeightMap, removeSynapticConnection.
  rewrite bind_gets, Hx. rewrite (bind_elementOf _ _ _ _ He).
  rewrite bind_gets, Hwm, bind_gets.
  destruct (fst (scanWeakest (neuralNetwork n) wm (synapses x) None 1)) as [weak|] eqn:F;
    [|left; reflexivity].
  destruct (truthy weak) eqn:T; [|left; reflexivity].
  right. exists weak. split; [reflexivity|]. split; [exact T | reflexivity].
Qed.

(** On a neuron that has its node and its weight map, [pruneWeakestSynapse]
    never touches a weight.  It either returns and leaves the engine as it
    was, or removes exactly one synapse of the neuron, one whose weight is
    below 1 and not above the weight of any other synapse of the neuron, and
    then raises a [TypeError]: the method that is to remove the drawn
    connection is not defined.  The weight of the removed synapse stays in
    the map. *)
Theorem prune_evicts_a_weakest (n : Network) (id : string) (x : Neuron) (e : Element)
  (wm : list (string * R)) :
  map_get String.eqb id (neuralNetwork n) = Some x ->
  map_get String.eqb id (qniNodes n) = Some e ->
  map_get Nat.eqb e (hebbianWeights n) = Some wm ->
  hebbianWeights (snd (pruneWeakestSynapse id n)) = hebbianWeights n /\
  (pruneWeakestSynapse id n = (Returned tt, n) \/
   exists weak w x',
     fst (pruneWeakestSynapse id n) = Threw TypeError /\
     In weak (synapses x) /\
     weightOfNeuron (neuralNetwork n) wm weak = Some w /\ w < 1 /\
     (forall s v, In s (synapses x) ->
        weightOfNeuron (neuralNetwork n) wm s = Some v -> w <= v) /\
     map_get String.eqb id (neuralNetwork (snd (pruneWeakestSynapse id n))) = Some x' /\
     synapses x' = set_remove weak (synapses x) /\
     ~ In weak (synapses x') /\
     (List.length (synapses x') < List.length (synapses x))%nat).
Proof.
  intros Hx He Hwm.
  destruct (prune_run n id x e wm Hx He Hwm) as [P | (weak & F & T & P)]; rewrite P.
  - split; [reflexivity|]. left. reflexivity.
  - split; [reflexivity|]. right.
    destruct (evicted_synapse_is_minimal _ _ _ _ F) as (Hin & w & G & Lt & Hmin).
    exists weak, w, (set_synapses (set_remove weak (synapses x)) x).
    split; [reflexivity|].
    split; [exact Hin|]. split; [exact G|]. split; [exact Lt|]. split; [exact Hmin|].
    split; [apply updateSynapses_same; exact Hx|].
    split; [reflexivity|]. split; [apply set_remove_absent|].
    apply set_remove_shorter. exact Hin.
Qed.

Lemma prune_evicts_a_weakest_witness :
  hebbianWeights (snd (pruneWeakestSynapse "a" (twoWeights (fun _ => 0)))) =
  hebbianWeights (twoWeights (fun _ => 0)) /\
  fst (pruneWeakestSynapse "a" (twoWeights (fun _ => 0))) = Threw TypeError.
Proof.
  destruct (prune_evicts_a_weakest (twoWeights (fun _ => 0)) "a"
              (mkNeuron 0 (8/10 + 0 * (4/10)) 0 ["b"; "c"]
                 (if Rltb (0 * 3) 1 then mkTransmitter glutamate (12/10)
                  else if Rltb (0 * 3) 2 then mkTransmitter GABA (-(8/10))
                  else mkTransmitter dopamine (5/10)))
              1%nat [("b", 5/10); ("c", 3/10)])
    as (R1 & [P | (weak & w & x' & R2 & _)]).
  - reflexivity.
  - reflexivity.
  - reflexivity.
  - exfalso. apply (f_equal fst) in P. revert P. js_eval.
    rewrite (Rltb_true (5/10) 1) by lra. js_eval.
    rewrite (Rltb_true (3/10) (5/10)) by lra. js_eval.
    intros P. discriminate P.
  - split; [exact R1 | exact R2].
Defined.

(** [formSynapse] on a synapse that exists returns [true] and writes nothing. *)
Lemma formSynapse_existing (n : Network) (pre post : string) (w : R) (x y : Neuron) :
  pre <> post ->
  map_get String.eqb pre (neuralNetwork n) = Some x ->
  map_get String.eqb post (neuralNetwork n) = Some y ->
  set_has post (synapses x) = true ->
  formSynapse pre post w n = (Returned true, n).
Proof.
  intros Hne Hx Hy Hhas. unfold formSynapse.
  destruct (String.eqb_spec pre post) as [E|_]; [contradiction|].
  unfold getNeuron. rewrite !bind_gets, Hx, Hy, Hhas. reflexivity.
Qed.

(** [formSynapse] refuses a self-connection and an unregistered end: it
    returns [false] and changes nothing.  On a synapse that already exists it
    returns [true] and changes nothing either: the weight it is given is
    dropped and the weight of the synapse stays what it was. *)
Theorem formSynapse_refusals (n : Network) (pre post : string) (w : R) :
  (pre = post \/
   map_get String.eqb pre (neuralNetwork n) = None \/
   map_get String.eqb post (neuralNetwork n) = None ->
   formSynapse pre post w n = (Returned false, n)) /\
  (forall x y,
     pre <> post ->
     map_get String.eqb pre (neuralNetwork n) = Some x ->
     map_get String.eqb post (neuralNetwork n) = Some y ->
     set_has post (synapses x) = true ->
     formSynapse pre post w n = (Returned true, n)).
Proof.
  split.
  - intros H. unfold formSynapse.
    destruct (String.eqb_spec pre post) as [E|Hne]; [reflexivity|].
    destruct H as [H|[H|H]]; [contradiction| |];
      unfold getNeuron; rewrite !bind_gets, H; [reflexivity|].
    destruct (map_get String.eqb pre (neuralNetwork n)); reflexivity.
  - intros x y. apply formSynapse_existing.
Qed.

Lemma formSynapse_refusals_witness :
  formSynapse "a" "a" (3/10) (wired (fun _ => 0)) = (Returned false, wired (fun _ => 0)) /\
  formSynapse "a" "b" (9/10) (wired (fun _ => 0)) = (Returned true, wired (fun _ => 0)).
Proof.
  destruct (formSynapse_refusals (wired (fun _ => 0)) "a" "a" (3/10)) as [R1 _].
  destruct (formSynapse_refusals (wired (fun _ => 0)) "a" "b" (9/10)) as [_ R2].
  split.
  - apply R1. left. reflexivity.
  - eapply R2; [discriminate | reflexivity | reflexivity | reflexivity].
Defined.

(** At capacity, when the scan finds a synapse to evict, [formSynapse] ends
    in the [TypeError] of the eviction: the weakest synapse is gone, the new
    one is not added and no weight is written. *)
Lemma formSynapse_at_capacity_raises (n : Network) (pre post : string) (w0 : R)
  (x y : Neuron) (e : Element) (wm : list (string * R)) (weak : string) :
  pre <> post ->
  map_get String.eqb pre (neuralNetwork n) = Some x ->
  map_get String.eqb post (neuralNetwork n) = Some y ->
  set_has post (synapses x) = false ->
  map_get String.eqb pre (qniNodes n) = Some e ->
  map_get Nat.eqb e (hebbianWeights n) = Some wm ->
  (maxSynapses n <= List.length (synapses x))%nat ->
  fst (scanWeakest (neuralNetwork n) wm (synapses x) None 1) = Some weak ->
  truthy weak = true ->
  formSynapse pre post w0 n =
  (Threw TypeError, snd (updateSynapses pre (set_remove weak) n)).
Proof.
  intros Hne Hx Hy Hhas He Hwm Hcap F T.
  destruct (prune_run n pre x e wm Hx He Hwm) as [P | (weak' & F' & _ & P)].
  { exfalso. revert P.
    unfold pruneWeakestSynapse, getNeuron, getWeightMap, removeSynapticConnection.
    rewrite bind_gets, Hx. rewrite (bind_elementOf _ _ _ _ He).
    rewrite bind_gets, Hwm, bind_gets, F, T. discriminate. }
  assert (weak' = weak) by congruence. subst weak'.
  unfold formSynapse.
  destruct (String.eqb_spec pre post) as [E|_]; [contradiction|].
  unfold getNeuron. rewrite !bind_gets, Hx, Hy, Hhas. rewrite bind_gets. cbv beta.
  apply Nat.leb_le in Hcap. rewrite Hcap.
  unfold bind at 1. rewrite P. reflexivity.
Qed.

(** A new synapse between two registered neurons that have their nodes (the
    connection drawn at the end reads both), the first of which has its
    weight map and is below its capacity: [formSynapse] returns [true], the
    weight of the synapse is the one given, the target is added at the end
    of the synapses of the source, every other neuron and every other weight
    map is as before, and forming the synapse a second time, with whatever
    weight, changes nothing. *)
Theorem formSynapse_stores_weight_once (n : Network) (pre post : string) (w0 : R)
  (x y : Neuron) (e e2 : Element) (wm : list (string * R)) :
  pre <> post ->
  map_get String.eqb pre (neuralNetwork n) = Some x ->
  map_get String.eqb post (neuralNetwork n) = Some y ->
  set_has post (synapses x) = false ->
  map_get String.eqb pre (qniNodes n) = Some e ->
  map_get String.eqb post (qniNodes n) = Some e2 ->
  map_get Nat.eqb e (hebbianWeights n) = Some wm ->
  (List.length (synapses x) < maxSynapses n)%nat ->
  let n1 := snd (formSynapse pre post w0 n) in
  fst (formSynapse pre post w0 n) = Returned true /\
  weightOf n1 pre post = Some w0 /\
  (exists x1, map_get String.eqb pre (neuralNetwork n1) = Some x1 /\
              synapses x1 = app (synapses x) [post]) /\
  (forall id, id <> pre ->
     map_get String.eqb id (neuralNetwork n1) = map_get String.eqb id (neuralNetwork n)) /\
  (forall e', e' <> e ->
     map_get Nat.eqb e' (hebbianWeights n1) = map_get Nat.eqb e' (hebbianWeights n)) /\
  (forall w1, formSynapse pre post w1 n1 = (Returned true, n1)).
Proof.
  intros Hne Hx Hy Hhas He He2 Hwm Hcap.
  assert (Run : formSynapse pre post w0 n =
                (Returned true,
                 set_hebbianWeights (map_set Nat.eqb e (map_set String.eqb post w0 wm))
                   (snd (updateSynapses pre (fun s => app s [post]) n)))).
  { unfold formSynapse.
    destruct (String.eqb_spec pre post) as [E|_]; [contradiction|].
    unfold getNeuron. rewrite !bind_gets, Hx, Hy, Hhas. rewrite bind_gets. cbv beta.
    apply Nat.leb_gt in Hcap. rewrite Hcap. rewrite bind_ret.
    unfold updateSynapses at 1. rewrite bind_modify.
    rewrite (bind_elementOf _ e) by (cbn [qniNodes set_neuralNetwork]; exact He).
    rewrite (bind_weightSet _ _ _ wm)
      by (cbn [hebbianWeights set_neuralNetwork]; exact Hwm).
    reflexivity. }
  cbv zeta. rewrite Run. cbn [fst snd].
  set (n1 := set_hebbianWeights _ _).
  assert (Hx1 : map_get String.eqb pre (neuralNetwork n1) =
                Some (set_synapses (app (synapses x) [post]) x))
    by (apply (updateSynapses_same n); exact Hx).
  assert (Hoth1 : forall id, id <> pre ->
            map_get String.eqb id (neuralNetwork n1) = map_get String.eqb id (neuralNetwork n)).
  { intros id Hid. apply (updateSynapses_other n). exact Hid. }
  split; [reflexivity|]. split.
  { unfold weightOf. change (qniNodes n1) with (qniNodes n). rewrite He.
    subst n1. cbn [hebbianWeights set_hebbianWeights].
    rewrite (map_get_set_same _ Nat.eqb_spec).
    apply (map_get_set_same _ String.eqb_spec). }
  split.
  { eexists. split; [exact Hx1 | reflexivity]. }
  split; [exact Hoth1|]. split.
  { intros e' He'. subst n1. cbn [hebbianWeights set_hebbianWeights].
    rewrite (map_get_set_other _ Nat.eqb_spec) by exact He'. reflexivity. }
  intros w1. eapply formSynapse_existing; [exact Hne | exact Hx1 | |].
  - rewrite Hoth1 by (intros E; apply Hne; symmetry; exact E). exact Hy.
  - apply set_has_added.
Qed.

Lemma formSynapse_stores_weight_once_witness :
  fst (formSynapse "a" "c" (4/10) (wired (fun _ => 0))) = Returned true /\
  weightOf (snd (formSynapse "a" "c" (4/10) (wired (fun _ => 0)))) "a" "c" = Some (4/10).
Proof.
  destruct (formSynapse_stores_weight_once (wired (fun _ => 0)) "a" "c" (4/10)
              (mkNeuron 0 (8/10 + 0 * (4/10)) 0 ["b"]
                 (if Rltb (0 * 3) 1 then mkTransmitter glutamate (12/10)
                  else if Rltb (0 * 3) 2 then mkTransmitter GABA (-(8/10))
                  else mkTransmitter dopamine (5/10)))
              (mkNeuron 0 (8/10 + 0 * (4/10)) 0 []
                 (if Rltb (0 * 3) 1 then mkTransmitter glutamate (12/10)
                  else if Rltb (0 * 3) 2 then mkTransmitter GABA (-(8/10))
                  else mkTransmitter dopamine (5/10)))
              1%nat 3%nat [("b", 3/10)])
    as (R1 & R2 & _).
  - discriminate.
  - reflexivity.
  - reflexivity.
  - reflexivity.
  - reflexivity.
  - reflexivity.
  - reflexivity.
  - js_eval. lia.
  - split; [exact R1 | exact R2].
Defined.

(** *** Registration *)

(** [registerNeuron] on a node that is not yet a neuron, when the random
    source draws from [0,1): the call returns; the new neuron is at rest,
    without synapses, with a threshold in [0.8, 1.2) and one of the three
    transmitters; the element has an empty weight map; two draws are used;
    and registering the node again changes nothing. *)
Theorem registerNeuron_fresh (n : Network) (id : string) (e : Element) :
  map_get String.eqb id (qniNodes n) = Some e ->
  map_get String.eqb id (neuralNetwork n) = None ->
  0 <= entropy n (drawn n) < 1 ->
  let n1 := snd (registerNeuron id n) in
  fst (registerNeuron id n) = Returned tt /\
  (exists x, map_get String.eqb id (neuralNetwork n1) = Some x /\
     membranePotential x = 0 /\ lastFired x = 0 /\ synapses x = [] /\
     8/10 <= firingThreshold x < 12/10 /\
     (strength (neurotransmitter x) = 12/10 \/
      strength (neurotransmitter x) = -(8/10) \/
      strength (neurotransmitter x) = 5/10)) /\
  map_get Nat.eqb e (hebbianWeights n1) = Some [] /\
  drawn n1 = S (S (drawn n)) /\
  registerNeuron id n1 = (Returned tt, n1).
Proof.
  intros Hq Hnew Hr.
  assert (Run : registerNeuron id n =
    (Returned tt,
     set_hebbianWeights (map_set Nat.eqb e [])
       (set_neuralNetwork
          (map_set String.eqb id
             (mkNeuron 0 (8/10 + entropy n (drawn n) * (4/10)) 0 []
                (if Rltb (entropy n (S (drawn n)) * 3) 1 then mkTransmitter glutamate (12/10)
                 else if Rltb (entropy n (S (drawn n)) * 3) 2
                      then mkTransmitter GABA (-(8/10))
                      else mkTransmitter dopamine (5/10))))
          (set_drawn (S (S (drawn n))) n)))).
  { unfold registerNeuron. rewrite !bind_gets, Hq. unfold map_has. rewrite Hnew.
    reflexivity. }
  cbv zeta. rewrite Run. cbn [fst snd].
  split; [reflexivity|]. split.
  { eexists. split.
    - cbn [neuralNetwork set_hebbianWeights set_neuralNetwork set_drawn].
      apply (map_get_set_same _ String.eqb_spec).
    - cbn [membranePotential lastFired synapses firingThreshold neurotransmitter].
      split; [reflexivity|]. split; [reflexivity|]. split; [reflexivity|].
      split; [lra|].
      destruct (Rltb (entropy n (S (drawn n)) * 3) 1); [left; reflexivity|].
      destruct (Rltb (entropy n (S (drawn n)) * 3) 2);
        [right; left; reflexivity | right; right; reflexivity]. }
  split.
  { cbn [hebbianWeights set_hebbianWeights set_neuralNetwork set_drawn].
    apply (map_get_set_same _ Nat.eqb_spec). }
  split; [reflexivity|].
  unfold registerNeuron. rewrite !bind_gets.
  cbn [qniNodes neuralNetwork set_hebbianWeights set_neuralNetwork set_drawn].
  rewrite Hq. unfold map_has. rewrite (map_get_set_same _ String.eqb_spec).
  reflexivity.
Qed.

Lemma registerNeuron_fresh_witness :
  fst (registerNeuron "a" (emptyNet 15 (fun _ => 0))) = Returned tt /\
  drawn (snd (registerNeuron "a" (emptyNet 15 (fun _ => 0)))) = 2%nat.
Proof.
  destruct (registerNeuron_fresh (emptyNet 15 (fun _ => 0)) "a" 1%nat)
    as (R1 & _ & _ & R2 & _).
  - reflexivity.
  - reflexivity.
  - simpl. lra.
  - split; [exact R1 | exact R2].
Defined.

(** *** Spikes *)

Lemma sameWiring_refl x : sameWiring x x.
Proof. repeat split. Qed.

Lemma keepsWiring_ret {A} (a : A) : keepsWiring (ret a).
Proof.
  intros n. repeat split. intros id x H. exists x. split; [exact H | apply sameWiring_refl].
Qed.

Lemma keepsWiring_gets {A} (f : Network -> A) : keepsWiring (gets f).
Proof.
  intros n. repeat split. intros id x H. exists x. split; [exact H | apply sameWiring_refl].
Qed.

Lemma keepsWiring_elementOf id : keepsWiring (elementOf id).
Proof.
  intros n. unfold elementOf. destruct (map_get String.eqb id (qniNodes n));
    (repeat split; intros id' x H; exists x; split; [exact H | apply sameWiring_refl]).
Qed.

Lemma keepsWiring_weightGet e post : keepsWiring (weightGet e post).
Proof.
  intros n. unfold weightGet. destruct (map_get Nat.eqb e (hebbianWeights n));
    (repeat split; intros id' x H; exists x; split; [exact H | apply sameWiring_refl]).
Qed.

Lemma keepsWiring_bind {A B} (m : NM A) (k : A -> NM B) :
  keepsWiring m -> (forall a, keepsWiring (k a)) -> keepsWiring (bind m k).
Proof.
  intros Hm Hk n. unfold bind. destruct (Hm n) as (W & Q & N).
  destruct (m n) as [[a|err] n1]; cbn [snd] in *.
  - destruct (Hk a n1) as (W1 & Q1 & N1).
    split; [congruence|]. split; [congruence|].
    intros id x H. destruct (N id x H) as (x1 & H1 & S1).
    destruct (N1 id x1 H1) as (x2 & H2 & S2).
    exists x2. split; [exact H2|].
    destruct S1 as (a1 & b1 & c1), S2 as (a2 & b2 & c2).
    repeat split; congruence.
  - split; [exact W|]. split; [exact Q | exact N].
Qed.

Lemma keepsWiring_forEach {A} (l : list A) (f : A -> NM unit) :
  (forall a, keepsWiring (f a)) -> keepsWiring (forEach l f).
Proof.
  intros Hf. induction l as [|a l IH]; simpl.
  - apply keepsWiring_ret.
  - apply keepsWiring_bind; [apply Hf | intros _; exact IH].
Qed.

Lemma keepsWiring_updateNeuron id (g : Neuron -> Neuron) :
  (forall x, sameWiring x (g x)) -> keepsWiring (updateNeuron id g).
Proof.
  intros Hg n. unfold updateNeuron. cbn [modify snd].
  split; [reflexivity|]. split; [reflexivity|].
  intros id' x' H. cbn [neuralNetwork set_neuralNetwork].
  destruct (map_get String.eqb id (neuralNetwork n)) as [x|] eqn:G.
  - destruct (String.eqb_spec id' id) as [->|Hne].
    + rewrite (map_get_set_same _ String.eqb_spec). exists (g x).
      split; [reflexivity|]. assert (x' = x) by congruence. subst x'. apply Hg.
    + rewrite (map_get_set_other _ String.eqb_spec) by exact Hne.
      exists x'. split; [exact H | apply sameWiring_refl].
  - exists x'. split; [exact H | apply sameWiring_refl].
Qed.

Ltac wiring_step :=
  match goal with
  | |- keepsWiring (bind _ _) => apply keepsWiring_bind; [ | intro]
  | |- keepsWiring (ret _) => apply keepsWiring_ret
  | |- keepsWiring (gets _) => apply keepsWiring_gets
  | |- keepsWiring (getNeuron _) => apply keepsWiring_gets
  | |- keepsWiring (elementOf _) => apply keepsWiring_elementOf
  | |- keepsWiring (weightGet _ _) => apply keepsWiring_weightGet
  | |- keepsWiring (updateNeuron _ _) =>
      apply keepsWiring_updateNeuron; intro; repeat split
  | |- keepsWiring (forEach _ _) => apply keepsWiring_forEach; intro
  | |- keepsWiring (match ?x with _ => _ end) => destruct x
  end.

(** Spikes never rewire the network: whatever their outcome, the spread of a
    spike, the firing of a neuron and a tick of the network leave every
    weight, every node and, for every neuron, its synapses, its threshold and
    its transmitter as they were; no neuron is dropped. *)
Theorem spiking_never_rewires (now : R) (pre post : string) :
  keepsWiring (propagateSpike pre post) /\
  keepsWiring (fireNeuron now pre) /\
  keepsWiring (globalNetworkUpdate now).
Proof.
  assert (P : forall a b, keepsWiring (propagateSpike a b))
    by (intros a b; unfold propagateSpike; repeat wiring_step).
  assert (F : forall a, keepsWiring (fireNeuron now a))
    by (intros a; unfold fireNeuron; repeat first [apply P | wiring_step]).
  split; [apply P|]. split; [apply F|].
  unfold globalNetworkUpdate. repeat first [apply F | wiring_step].
Qed.

(** *** A tick in which no neuron fires *)

Lemma map_get_app_absent {V} (k : string) (done rest : list (string * V)) :
  ~ In k (map fst done) ->
  map_get String.eqb k (app done rest) = map_get String.eqb k rest.
Proof.
  induction done as [|[k' v'] done IH]; simpl; intros H.
  - reflexivity.
  - destruct (String.eqb_spec k k') as [->|Hne].
    + exfalso. apply H. left. reflexivity.
    + apply IH. intros Hin. apply H. right. exact Hin.
Qed.

Lemma map_set_app_absent {V} (k : string) (v : V) (done rest : list (string * V)) :
  ~ In k (map fst done) ->
  map_set String.eqb k v (app done rest) = app done (map_set String.eqb k v rest).
Proof.
  induction done as [|[k' v'] done IH]; simpl; intros H.
  - reflexivity.
  - destruct (String.eqb_spec k k') as [->|Hne].
    + exfalso. apply H. left. reflexivity.
    + rewrite IH; [reflexivity|]. intros Hin. apply H. right. exact Hin.
Qed.

(** The loop of [globalNetworkUpdate] over the neurons still to visit, when
    none of them fires: each gets the leak, the visited ones stay. *)
Lemma quiet_loop (now : R) : forall (rest done : list (string * Neuron)) (n : Network),
  neuralNetwork n = app done rest ->
  NoDup (map fst (app done rest)) ->
  (forall id x, In (id, x) rest ->
     membranePotential x * decayRate n <= firingThreshold x) ->
  forEach (map fst rest) (fun nodeId =>
    decay <- gets decayRate ;;
    updateNeuron nodeId (fun x =>
      set_membranePotential (membranePotential x * decay) x) ;;
    neuron <- getNeuron nodeId ;;
    match neuron with
    | Some x =>
        if Rgtb (membranePotential x) (firingThreshold x)
        then fireNeuron now nodeId ;;
             updateNeuron nodeId (set_membranePotential 0)
        else ret tt
    | None => ret tt
    end) n =
  (Returned tt,
   set_neuralNetwork (fun _ => app done (map (leak (decayRate n)) rest)) n).
Proof.
  induction rest as [|[id x] rest IH]; intros done n Hnn Hnd Hq.
  - simpl. unfold ret. f_equal. destruct n; unfold set_neuralNetwork; simpl in *.
    rewrite Hnn. reflexivity.
  - assert (Habs : ~ In id (map fst done)).
    { intros Hin. rewrite map_app in Hnd. simpl in Hnd.
      apply NoDup_remove_2 in Hnd. apply Hnd. apply in_or_app. left. exact Hin. }
    set (x' := set_membranePotential (membranePotential x * decayRate n) x).
    set (n1 := set_neuralNetwork (fun _ => app (app done [(id, x')]) rest) n).
    assert (Step : forall k : unit -> NM unit,
      bind (decay <- gets decayRate ;;
            updateNeuron id (fun x =>
              set_membranePotential (membranePotential x * decay) x) ;;
            neuron <- getNeuron id ;;
            match neuron with
            | Some x =>
                if Rgtb (membranePotential x) (firingThreshold x)
                then fireNeuron now id ;;
                     updateNeuron id (set_membranePotential 0)
                else ret tt
            | None => ret tt
            end) k n = k tt n1).
    { intros k. rewrite !bind_assoc, bind_gets. unfold updateNeuron.
      rewrite bind_assoc, bind_modify.
      match goal with
      | |- context [set_neuralNetwork ?f n] =>
          replace (set_neuralNetwork f n) with n1
      end.
      2:{ subst n1 x'. unfold set_neuralNetwork. cbv beta. rewrite Hnn.
          rewrite (map_get_app_absent id done) by exact Habs.
          simpl map_get. rewrite String.eqb_refl.
          rewrite (map_set_app_absent id _ done) by exact Habs.
          simpl map_set. rewrite String.eqb_refl.
          rewrite <- app_assoc. reflexivity. }
      unfold getNeuron. rewrite bind_assoc, bind_gets.
      change (neuralNetwork n1) with (app (app done [(id, x')]) rest).
      rewrite <- app_assoc.
      rewrite (map_get_app_absent id done) by exact Habs.
      simpl map_get. rewrite String.eqb_refl.
      subst x'. cbn [membranePotential firingThreshold set_membranePotential].
      rewrite Rgtb_false
        by (specialize (Hq id x (or_introl eq_refl)); lra).
      rewrite bind_ret. reflexivity. }
    simpl forEach. rewrite Step.
    rewrite (IH (app done [(id, x')]) n1).
    + f_equal. subst n1. unfold set_neuralNetwork. cbn.
      rewrite <- app_assoc. reflexivity.
    + reflexivity.
    + rewrite <- app_assoc. simpl.
      rewrite map_app in Hnd |- *. exact Hnd.
    + intros id0 x0 Hin. apply (Hq id0 x0). right. exact Hin.
Qed.

(** A tick of the network in which no neuron crosses its threshold: the call
    returns and multiplies every membrane potential by [decayRate]; the
    order of the neurons and everything else is left as it was. *)
Theorem quiet_tick_only_leaks (now : R) (n : Network) :
  NoDup (map fst (neuralNetwork n)) ->
  (forall id x, In (id, x) (neuralNetwork n) ->
     membranePotential x * decayRate n <= firingThreshold x) ->
  globalNetworkUpdate now n =
  (Returned tt, set_neuralNetwork (map (leak (decayRate n))) n).
Proof.
  intros Hnd Hq. unfold globalNetworkUpdate. rewrite bind_gets.
  rewrite (quiet_loop now (neuralNetwork n) [] n); [reflexivity | reflexivity | | ].
  - exact Hnd.
  - exact Hq.
Qed.

Lemma quiet_tick_only_leaks_witness :
  globalNetworkUpdate 0 (wired (fun _ => 0)) =
  (Returned tt,
   set_neuralNetwork (map (leak (decayRate (wired (fun _ => 0))))) (wired (fun _ => 0))).
Proof.
  apply (quiet_tick_only_leaks 0 (wired (fun _ => 0))).
  - js_eval. repeat constructor; js_eval; intuition discriminate.
  - intros id x. js_eval. intros Hin.
    repeat (destruct Hin as [Hin|Hin];
            [injection Hin as <- <-; js_eval; lra|]).
    contradiction.
Defined.

(** *** The direction of a weight change *)

Lemma exp_le_1 (x : R) : x <= 0 -> exp x <= 1.
Proof.
  intros H. destruct (Rle_lt_or_eq_dec _ _ H) as [L|E].
  - rewrite <- exp_0. left. apply exp_increasing. exact L.
  - subst x. rewrite exp_0. lra.
Qed.

Lemma clamp01_between (w d : R) :
  0 <= w <= 1 ->
  (0 <= d -> w <= clamp01 (w + d) <= w + d) /\
  (d <= 0 -> w + d <= clamp01 (w + d) <= w).
Proof.
  intros Hw. unfold clamp01, Rmax, Rmin.
  split; intros Hd;
    destruct (Rle_dec 1 (w + d)); destruct (Rle_dec 0 _); lra.
Qed.

(** The STDP rule of the plasticity module on a synapse whose source has its
    node and weight map and whose target is registered, from a weight [w] in
    [0,1]: the call returns [true]; when the target spiked after the source
    the weight does not fall and rises by at most 0.1; otherwise it does not
    rise and falls by at most 0.12. *)
Theorem stdp_follows_spike_order (n : Network) (pre post : string) (sd : SpikeData)
  (e : Element) (wm : list (string * R)) (y : Neuron) :
  map_get String.eqb pre (qniNodes n) = Some e ->
  map_get Nat.eqb e (hebbianWeights n) = Some wm ->
  map_get String.eqb post (neuralNetwork n) = Some y ->
  0 <= orZero (map_get String.eqb post wm) <= 1 ->
  fst (applySTDPRule pre post sd n) = Returned true /\
  exists w1,
    weightOf (snd (applySTDPRule pre post sd n)) pre post = Some w1 /\
    (preTime sd < postTime sd ->
       orZero (map_get String.eqb post wm) <= w1 <= orZero (map_get String.eqb post wm) + 1/10) /\
    (postTime sd <= preTime sd ->
       orZero (map_get String.eqb post wm) - 12/100 <= w1 <= orZero (map_get String.eqb post wm)).
Proof.
  intros He Hwm Hy Hw.
  set (w := orZero (map_get String.eqb post wm)) in *.
  set (d := if Rgtb (postTime sd - preTime sd) 0
            then 1/10 * exp (- (postTime sd - preTime sd) / 20)
            else - (12/100) * exp ((postTime sd - preTime sd) / 20)).
  assert (Run : applySTDPRule pre post sd n =
                (Returned true,
                 set_hebbianWeights
                   (map_set Nat.eqb e (map_set String.eqb post (clamp01 (w + d)) wm)) n)).
  { unfold applySTDPRule. cbv zeta. rewrite (bind_elementOf _ e) by exact He.
    unfold getNeuron. rewrite bind_gets, Hy.
    unfold weightGet at 1. unfold bind at 1. rewrite Hwm.
    rewrite (bind_weightSet _ _ _ wm) by exact Hwm. reflexivity. }
  rewrite Run. cbn [fst snd]. split; [reflexivity|].
  exists (clamp01 (w + d)). split.
  { unfold weightOf. cbn [qniNodes hebbianWeights set_hebbianWeights]. rewrite He.
    rewrite (map_get_set_same _ Nat.eqb_spec).
    apply (map_get_set_same _ String.eqb_spec). }
  destruct (clamp01_between w d Hw) as [Up Down].
  split; intros Ht.
  - assert (D : 0 <= d <= 1/10).
    { subst d. rewrite Rgtb_true by lra.
      pose proof (exp_pos (- (postTime sd - preTime sd) / 20)).
      pose proof (exp_le_1 (- (postTime sd - preTime sd) / 20)). lra. }
    specialize (Up (proj1 D)). lra.
  - assert (D : - (12/100) <= d <= 0).
    { subst d. rewrite Rgtb_false by lra.
      pose proof (exp_pos ((postTime sd - preTime sd) / 20)).
      pose proof (exp_le_1 ((postTime sd - preTime sd) / 20)). lra. }
    specialize (Down (proj2 D)). lra.
Qed.

Lemma stdp_follows_spike_order_witness :
  fst (applySTDPRule "a" "b" (mkSpike 0 5) (wired (fun _ => 0))) = Returned true.
Proof.
  destruct (stdp_follows_spike_order (wired (fun _ => 0)) "a" "b" (mkSpike 0 5)
              1%nat [("b", 3/10)]
              (mkNeuron 0 (8/10 + 0 * (4/10)) 0 []
                 (if Rltb (0 * 3) 1 then mkTransmitter glutamate (12/10)
                  else if Rltb (0 * 3) 2 then mkTransmitter GABA (-(8/10))
                  else mkTransmitter dopamine (5/10))))
    as (R1 & _).
  - reflexivity.
  - reflexivity.
  - reflexivity.
  - simpl. lra.
  - exact R1.
Defined.

(** [scaleSynapse] on a synapse of weight [w] in [0,1] (source with node and
    weight map, target registered): the new weight is [w * factor] cut to
    [0,1]; a factor of at least 1 never lowers the weight, a factor between 0
    and 1 never raises it, and a weight of 0 stays 0 whatever the factor. *)
Theorem scaleSynapse_direction (n : Network) (pre post : string) (factor : R)
  (e : Element) (wm : list (string * R)) (y : Neuron) :
  map_get String.eqb pre (qniNodes n) = Some e ->
  map_get Nat.eqb e (hebbianWeights n) = Some wm ->
  map_get String.eqb post (neuralNetwork n) = Some y ->
  0 <= orZero (map_get String.eqb post wm) <= 1 ->
  fst (scaleSynapse pre post factor n) = Returned tt /\
  exists w1,
    weightOf (snd (scaleSynapse pre post factor n)) pre post = Some w1 /\
    w1 = clamp01 (orZero (map_get String.eqb post wm) * factor) /\
    (1 <= factor -> orZero (map_get String.eqb post wm) <= w1) /\
    (0 <= factor <= 1 -> w1 <= orZero (map_get String.eqb post wm)) /\
    (orZero (map_get String.eqb post wm) = 0 -> w1 = 0).
Proof.
  intros He Hwm Hy Hw.
  set (w := orZero (map_get String.eqb post wm)) in *.
  assert (Run : scaleSynapse pre post factor n =
                (Returned tt,
                 set_hebbianWeights
                   (map_set Nat.eqb e (map_set String.eqb post (clamp01 (w * factor)) wm)) n)).
  { unfold scaleSynapse. rewrite (bind_elementOf _ e) by exact He.
    unfold getWeightMap, getNeuron. rewrite !bind_gets, Hwm, Hy.
    cbv zeta. unfold weightSet. rewrite Hwm. reflexivity. }
  rewrite Run. cbn [fst snd]. split; [reflexivity|].
  exists (clamp01 (w * factor)). split.
  { unfold weightOf. cbn [qniNodes hebbianWeights set_hebbianWeights]. rewrite He.
    rewrite (map_get_set_same _ Nat.eqb_spec).
    apply (map_get_set_same _ String.eqb_spec). }
  split; [reflexivity|].
  unfold clamp01, Rmax, Rmin.
  split; [|split]; intros Hf;
    destruct (Rle_dec 1 (w * factor)); destruct (Rle_dec 0 _); try nra.
Qed.

Lemma scaleSynapse_direction_witness :
  fst (scaleSynapse "a" "b" 2 (wired (fun _ => 0))) = Returned tt.
Proof.
  destruct (scaleSynapse_direction (wired (fun _ => 0)) "a" "b" 2
              1%nat [("b", 3/10)]
              (mkNeuron 0 (8/10 + 0 * (4/10)) 0 []
                 (if Rltb (0 * 3) 1 then mkTransmitter glutamate (12/10)
                  else if Rltb (0 * 3) 2 then mkTransmitter GABA (-(8/10))
                  else mkTransmitter dopamine (5/10))))
    as (R1 & _).
  - reflexivity.
  - reflexivity.
  - reflexivity.
  - simpl. lra.
  - exact R1.
Defined.

(** *** Witnesses on the sample networks *)

Lemma formSynapse_within_capacity_witness :
  (fanOut "a" (snd (formSynapse "a" "d" (4/10)%R (twoWeights (fun _ => 0%R))))
   <= maxSynapses (twoWeights (fun _ => 0%R)))%nat.
Proof.
  apply (formSynapse_within_capacity (twoWeights (fun _ => 0)) "a" "d" (4/10)
           (mkNeuron 0 (8/10 + 0 * (4/10)) 0 ["b"; "c"]
              (if Rltb (0 * 3) 1 then mkTransmitter glutamate (12/10)
               else if Rltb (0 * 3) 2 then mkTransmitter GABA (-(8/10))
               else mkTransmitter dopamine (5/10)))
           1%nat [("b", 5/10); ("c", 3/10)] "c" (3/10)).
  - reflexivity.
  - reflexivity.
  - reflexivity.
  - js_eval. lia.
  - right. left. reflexivity.
  - reflexivity.
  - lra.
  - intros id [<-|[<-|[]]]; reflexivity.
Defined.

Lemma checked_rules_skip_missing_witness :
  applyHebbianRule "ghost" "a" (wired (fun _ => 0)) = (Returned false, wired (fun _ => 0)) /\
  applyOjaRule "ghost" "a" (wired (fun _ => 0)) = (Returned false, wired (fun _ => 0)).
Proof.
  apply (checked_rules_skip_missing (wired (fun _ => 0)) "ghost" "a").
  left. reflexivity.
Defined.

End NeuroFacts.

(** ** Operations on ids that are not registered *)

Module FaultFacts.

(** C9, at the failing inputs: a measurement of an unregistered id, the BCM
    rule with an unregistered postsynaptic id and the STDP rule with an
    unregistered presynaptic id each raise a [TypeError] (the state is left
    as it was): [handleMeasurement] reads [node.element] after the collapse
    without a check, [applyBCMRule] reads the element of [postId] before its
    check, [applySTDPRule] has no check. *)
Theorem missing_id_raises_type_error :
  (forall fuel w id,
     map_get String.eqb id (Quantum.quantumNodes w) = None ->
     Quantum.handleMeasurement (S fuel) id w = (Threw TypeError, w)) /\
  (forall n pre post,
     map_get String.eqb post (Neuro.qniNodes n) = None ->
     Neuro.applyBCMRule pre post n = (Threw TypeError, n)) /\
  (forall n pre post sd,
     map_get String.eqb pre (Neuro.qniNodes n) = None ->
     Neuro.applySTDPRule pre post sd n = (Threw TypeError, n)).
Proof.
  split; [|split].
  - intros fuel w id H. unfold Quantum.handleMeasurement. simpl.
    rewrite bind_assoc, QuantumFacts.bind_getNode, H, bind_ret,
      QuantumFacts.bind_getNode, H.
    reflexivity.
  - intros n pre post H. unfold Neuro.applyBCMRule, Neuro.getNeuron.
    rewrite !bind_gets. unfold bind, Neuro.elementOf. rewrite H. reflexivity.
  - intros n pre post sd H. unfold Neuro.applySTDPRule.
    unfold bind, Neuro.elementOf. rewrite H. reflexivity.
Qed.

(** C9, witness: the id "ghost" on the sample page and the sample network. *)
Lemma missing_id_raises_witness :
  Quantum.handleMeasurement 1 "ghost" (QuantumProps.page QuantumProps.allZero) =
    (Threw TypeError, QuantumProps.page QuantumProps.allZero) /\
  Neuro.applyBCMRule "a" "ghost" (NeuroProps.net 15 (fun _ => 0)) =
    (Threw TypeError, NeuroProps.net 15 (fun _ => 0)) /\
  Neuro.applySTDPRule "ghost" "a" (Neuro.mkSpike 0 5) (NeuroProps.net 15 (fun _ => 0)) =
    (Threw TypeError, NeuroProps.net 15 (fun _ => 0)).
Proof.
  destruct missing_id_raises_type_error as (H1 & H2 & H3).
  split; [|split].
  - apply H1. reflexivity.
  - apply H2. reflexivity.
  - apply H3. reflexivity.
Defined.

End FaultFacts.

(** ** The wavefunction solver *)

Module WaveFacts.
Import Wave WaveProps.

Lemma nth_map_scale (s : R) (l : list R) : forall i,
  nth i (map (fun v => v * s) l) 0 = nth i l 0 * s.
Proof.
  induction l as [|h t IH]; intros [|i]; simpl; try ring.
  apply IH.
Qed.

Lemma fold_sum_scale (c : R) (g : nat -> R) (l : list nat) : forall a,
  fold_left (fun acc i => acc + c * g i) l (c * a) =
  c * fold_left (fun acc i => acc + g i) l a.
Proof.
  induction l as [|i l IH]; intros a; simpl.
  - reflexivity.
  - rewrite <- IH. f_equal. ring.
Qed.

Lemma fold_left_ext_R (f g : R -> nat -> R) (l : list nat) (a : R) :
  (forall x i, f x i = g x i) -> fold_left f l a = fold_left g l a.
Proof.
  intros H. revert a. induction l as [|i l IH]; intros a; simpl.
  - reflexivity.
  - rewrite H. apply IH.
Qed.

(** Scaling the field by [s] scales the sum of squares by [s * s]. *)
Lemma normSum_scale (s : R) (psi0 : list R) :
  normSum (map (fun v => v * s) psi0) = (s * s) * normSum psi0.
Proof.
  unfold normSum, for1. rewrite length_map.
  replace 0 with ((s * s) * 0) at 1 by ring.
  rewrite <- fold_sum_scale.
  apply fold_left_ext_R. intros x i.
  rewrite !nth_map_scale. ring.
Qed.

(** C5: over exact arithmetic, when the norm of the field before the
    normalization is nonzero, the field that [stepWavefunction] leaves has
    [sum |psi|^2 * dx^2 = 1]; this holds for every field, potential,
    nonlinearity and transform. *)
Theorem step_leaves_unit_norm (o : Options) (fft : FFT) (wf : Wavefunction) :
  0 < normOf o (psi (beforeNormalize o fft wf)) ->
  normSum (psi (stepWavefunction o fft wf)) * dx o * dx o = 1.
Proof.
  intros H. unfold stepWavefunction. cbn [psi].
  unfold normalizeWavefunction. rewrite Rgtb_true by lra.
  rewrite normSum_scale.
  set (p := psi (beforeNormalize o fft wf)) in *.
  unfold normOf in *. set (x := normSum p * dx o * dx o) in *.
  assert (Hx : 0 < x).
  { destruct (Rle_or_lt x 0) as [Hle|Hlt]; [|exact Hlt].
    rewrite (sqrt_neg_0 x Hle) in H. lra. }
  assert (Hs : sqrt x * sqrt x = x) by (apply sqrt_sqrt; lra).
  replace (1 / sqrt x * (1 / sqrt x) * normSum p * dx o * dx o)
    with (x / (sqrt x * sqrt x)) by (subst x; field; lra).
  rewrite Hs. field. lra.
Qed.

Ltac wave_eval :=
  cbv -[Rgtb Rltb Rgeb Reqb Rplus Rminus Rmult Rdiv Ropp Rinv IZR PI exp cos sin
        sqrt Rmax Rmin Rabs Rlt Rgt Rle Rge pow].

(** The angles of the transforms that are zero, rewritten to [0]. *)
Ltac zero_angle a :=
  first [ constr_eq a 0; fail 1 | replace a with 0 by (field; lra) ].

Ltac zero_angles :=
  repeat match goal with
  | |- context [cos ?a] => zero_angle a
  | |- context [sin ?a] => zero_angle a
  end.

(** C5, witness: one step of the one-cell wavefunction with the default
    options and the fallback transform. *)
Lemma step_leaves_unit_norm_witness :
  0 < normOf (defaults 1) (psi (beforeNormalize (defaults 1) (fallbackFFT (defaults 1)) unitCell)) /\
  normSum (psi (stepWavefunction (defaults 1) (fallbackFFT (defaults 1)) unitCell))
    * dx (defaults 1) * dx (defaults 1) = 1.
Proof.
  assert (H : 0 < normOf (defaults 1)
                (psi (beforeNormalize (defaults 1) (fallbackFFT (defaults 1)) unitCell))).
  { unfold normOf. apply sqrt_lt_R0. wave_eval. nra. }
  split; [exact H|].
  apply (step_leaves_unit_norm (defaults 1) (fallbackFFT (defaults 1)) unitCell H).
Defined.

(** In the step, what the fallback transforms compute never reaches a
    buffer: the step with the fallback object is the step with no transform
    at all. *)
Lemma fallback_results_are_dropped (o : Options) (wf : Wavefunction) :
  stepWavefunction o (fallbackFFT o) wf =
  stepWavefunction o (mkFFT (fun data out => (data, out)) (fun data out => (data, out))) wf.
Proof. reflexivity. Qed.

(** On a grid of one cell the two fallback transforms are inverse to each
    other. *)
Lemma fallback_round_trip_one_cell (re im : R) : roundTrip (defaults 1) [re; im].
Proof.
  unfold roundTrip. wave_eval. zero_angles.
  rewrite cos_0, sin_0. f_equal; [|f_equal]; field.
Qed.

(** C10, at the failing input: on the 2 x 2 grid, the fallback forward
    transform followed by the fallback inverse transform takes the field that
    is 1 at cell (0,0) to a field that is 2 there: the forward transform
    divides by N where the pair needs N * N. *)
Theorem fallback_round_trip_doubles :
  nth 0 (inverseFourierTransform (defaults 2)
           (directFourierTransform (defaults 2) delta2)) 0 = 2 /\
  ~ roundTrip (defaults 2) delta2.
Proof.
  assert (H : nth 0 (inverseFourierTransform (defaults 2)
                       (directFourierTransform (defaults 2) delta2)) 0 = 2).
  { wave_eval. zero_angles. rewrite ?cos_0, ?sin_0. field. }
  split; [exact H|].
  intros E. unfold roundTrip in E. rewrite E in H. simpl in H. lra.
Qed.

(** *** Loops over the cells of an array *)

Lemma length_array_set {A} (v : A) : forall (a : list A) (i : nat),
  List.length (array_set i v a) = List.length a.
Proof.
  induction a as [|h t IH]; intros [|i]; simpl; try reflexivity.
  rewrite IH. reflexivity.
Qed.

Lemma nth_array_set_same {A} (v d : A) : forall (a : list A) (i : nat),
  (i < List.length a)%nat -> nth i (array_set i v a) d = v.
Proof.
  induction a as [|h t IH]; intros [|i] H; simpl in *; try lia; try reflexivity.
  apply IH. lia.
Qed.

Lemma nth_array_set_other {A} (v d : A) : forall (a : list A) (i j : nat),
  i <> j -> nth j (array_set i v a) d = nth j a d.
Proof.
  induction a as [|h t IH]; intros [|i] [|j] H; simpl; try reflexivity; try lia.
  apply IH. lia.
Qed.

Lemma for1_S {A} (n : nat) (body : nat -> A -> A) (init : A) :
  for1 (S n) body init = body n (for1 n body init).
Proof.
  unfold for1. rewrite seq_S, fold_left_app. reflexivity.
Qed.

Lemma fold_left_ext_in {A} (f g : A -> nat -> A) (l : list nat) : forall a,
  (forall x i, In i l -> f x i = g x i) -> fold_left f l a = fold_left g l a.
Proof.
  induction l as [|i l IH]; intros a H; simpl.
  - reflexivity.
  - rewrite H by (left; reflexivity). apply IH.
    intros x j Hj. apply H. right. exact Hj.
Qed.

Lemma fold_seq_shift {A} : forall (n : nat) (f : A -> nat -> A) (s : nat) (x : A),
  fold_left f (seq s n) x = fold_left (fun acc b => f acc (s + b)%nat) (seq 0 n) x.
Proof.
  induction n as [|n IH]; intros f s x; simpl.
  - reflexivity.
  - rewrite Nat.add_0_r. rewrite (IH f (S s)).
    rewrite (IH (fun acc b => f acc (s + b)%nat) 1%nat).
    apply fold_left_ext_in. intros y i _. f_equal. lia.
Qed.

(** The two nested loops over a square grid visit the cells in the order of
    their index [a * N + b]. *)
Lemma for2_flatten {A} (N : nat) (body : nat -> nat -> A -> A) (init : A) :
  for2 N body init = for1 (N * N) (fun i acc => body (i / N)%nat (i mod N)%nat acc) init.
Proof.
  unfold for2.
  assert (G : forall m : nat,
    fold_left (fun acc a => fold_left (fun acc' b => body a b acc') (seq 0 N) acc)
      (seq 0 m) init =
    for1 (m * N) (fun i acc => body (i / N)%nat (i mod N)%nat acc) init).
  { induction m as [|m IH].
    - reflexivity.
    - rewrite seq_S, fold_left_app, IH. simpl fold_left.
      replace (S m * N)%nat with (m * N + N)%nat by lia.
      unfold for1 at 2. rewrite seq_app, fold_left_app. simpl Nat.add.
      fold (for1 (m * N) (fun i acc => body (i / N)%nat (i mod N)%nat acc) init).
      rewrite (fold_seq_shift N _ (m * N)%nat). symmetry.
      apply fold_left_ext_in. intros x b Hb. apply in_seq in Hb.
      assert (HN : N <> 0%nat) by lia.
      rewrite Nat.div_add_l by exact HN.
      rewrite (Nat.div_small b N) by lia.
      rewrite (Nat.add_comm (m * N) b), Nat.Div0.mod_add, (Nat.mod_small b N) by lia.
      rewrite Nat.add_0_r. reflexivity. }
  apply G.
Qed.

(** A loop that rewrites cell [i] from what it reads in cell [i]: every cell
    ends as [f] of its old contents, the rest of the array is untouched. *)
Lemma cell_loop (f : nat -> R -> R -> R * R) (a0 : list R) : forall n,
  (n * 2 <= List.length a0)%nat ->
  let r := for1 n (fun i a =>
             array_set (i * 2 + 1) (snd (f i (nth (i * 2) a 0) (nth (i * 2 + 1) a 0)))
               (array_set (i * 2) (fst (f i (nth (i * 2) a 0) (nth (i * 2 + 1) a 0))) a))
             a0 in
  List.length r = List.length a0 /\
  (forall i, (i < n)%nat ->
     nth (i * 2) r 0 = fst (f i (nth (i * 2) a0 0) (nth (i * 2 + 1) a0 0)) /\
     nth (i * 2 + 1) r 0 = snd (f i (nth (i * 2) a0 0) (nth (i * 2 + 1) a0 0))) /\
  (forall j, (n * 2 <= j)%nat -> nth j r 0 = nth j a0 0).
Proof.
  induction n as [|n IH]; intros Hn; cbv zeta.
  - split; [reflexivity|]. split; [intros i Hi; lia | reflexivity].
  - rewrite for1_S.
    destruct IH as (L & C & U); [lia|]. cbv zeta in L, C, U.
    set (r := for1 n _ a0) in *.
    rewrite (U (n * 2)%nat) by lia. rewrite (U (n * 2 + 1)%nat) by lia.
    set (c := f n (nth (n * 2) a0 0) (nth (n * 2 + 1) a0 0)).
    split; [rewrite !length_array_set; exact L|]. split.
    + intros i Hi. destruct (Nat.eq_dec i n) as [->|Hne].
      * split.
        -- rewrite nth_array_set_other by lia.
           apply nth_array_set_same. lia.
        -- apply nth_array_set_same. rewrite length_array_set. lia.
      * rewrite !nth_array_set_other by lia. apply C. lia.
    + intros j Hj. rewrite !nth_array_set_other by lia. apply U. lia.
Qed.

(** Sums over the cells. *)
Lemma for1_sum_le (g h : nat -> R) : forall n,
  (forall i, (i < n)%nat -> g i <= h i) ->
  for1 n (fun i s => s + g i) 0 <= for1 n (fun i s => s + h i) 0.
Proof.
  induction n as [|n IH]; intros H.
  - unfold for1. simpl. lra.
  - rewrite !for1_S. specialize (H n (Nat.lt_succ_diag_r n)) as Hn.
    assert (for1 n (fun i s => s + g i) 0 <= for1 n (fun i s => s + h i) 0)
      by (apply IH; intros i Hi; apply H; lia).
    lra.
Qed.

Lemma for1_sum_eq (g h : nat -> R) (n : nat) :
  (forall i, (i < n)%nat -> g i = h i) ->
  for1 n (fun i s => s + g i) 0 = for1 n (fun i s => s + h i) 0.
Proof.
  intros H. apply Rle_antisym; apply for1_sum_le; intros i Hi; rewrite (H i Hi); lra.
Qed.

Lemma for1_sum_bounds_term (g : nat -> R) : forall n,
  (forall i, (i < n)%nat -> 0 <= g i) ->
  0 <= for1 n (fun i s => s + g i) 0 /\
  forall i, (i < n)%nat -> g i <= for1 n (fun i s => s + g i) 0.
Proof.
  induction n as [|n IH]; intros H.
  - unfold for1. simpl. split; [lra | intros i Hi; lia].
  - rewrite for1_S. destruct IH as [P T]; [intros i Hi; apply H; lia|].
    pose proof (H n (Nat.lt_succ_diag_r n)) as Hn.
    split; [lra|]. intros i Hi.
    destruct (Nat.eq_dec i n) as [->|Hne]; [lra|].
    specialize (T i ltac:(lia)). lra.
Qed.

Lemma normSum_cells (a : list R) :
  normSum a = for1 (List.length a / 2) (fun i s => s + cellNorm a i) 0.
Proof. reflexivity. Qed.

Lemma for1_ext {A} (b1 b2 : nat -> A -> A) (n : nat) (init : A) :
  (forall i acc, (i < n)%nat -> b1 i acc = b2 i acc) ->
  for1 n b1 init = for1 n b2 init.
Proof.
  intros H. unfold for1. apply fold_left_ext_in.
  intros x i Hi. apply in_seq in Hi. apply H. lia.
Qed.

(** *** The three updates of a step, cell by cell *)

(** The half step takes the cell [(re, im)] to [(re + a * im, im - a * re)],
    where [a] is the rate of the cell. *)
Lemma halfStep_cells (o : Options) (pot psi0 : list R) (n : nat) :
  List.length psi0 = (n * 2)%nat ->
  List.length (halfStep o pot psi0) = List.length psi0 /\
  forall i, (i < n)%nat ->
    nth (i * 2) (halfStep o pot psi0) 0 =
      nth (i * 2) psi0 0 + halfRate o pot psi0 i * nth (i * 2 + 1) psi0 0 /\
    nth (i * 2 + 1) (halfStep o pot psi0) 0 =
      nth (i * 2 + 1) psi0 0 - halfRate o pot psi0 i * nth (i * 2) psi0 0.
Proof.
  intros Hlen.
  set (f := fun (i : nat) (re im : R) =>
    (re + (- nonlinearity o * (re ^ 2 + im ^ 2) * im + nth i pot 0 * im / hbar o) * dt o / 2,
     im + (nonlinearity o * (re ^ 2 + im ^ 2) * re + - nth i pot 0 * re / hbar o) * dt o / 2)).
  assert (E : halfStep o pot psi0 =
              for1 n (fun i a =>
                array_set (i * 2 + 1) (snd (f i (nth (i * 2) a 0) (nth (i * 2 + 1) a 0)))
                  (array_set (i * 2) (fst (f i (nth (i * 2) a 0) (nth (i * 2 + 1) a 0))) a))
                psi0).
  { unfold halfStep. rewrite Hlen, Nat.div_mul by lia. reflexivity. }
  destruct (cell_loop f psi0 n) as (L & C & _); [lia|]. cbv zeta in L, C.
  rewrite E. split; [exact L|].
  intros i Hi. destruct (C i Hi) as [C1 C2]. rewrite C1, C2.
  unfold f, halfRate, cellNorm. cbn [fst snd]. unfold Rdiv. split; ring.
Qed.

(** The half step, on a field of [n] cells with a potential of [n] entries
    and a nonzero [hbar]: the length of the field is kept, the squared
    modulus of each cell is multiplied by [1 + a^2] for the rate [a] of the
    cell, and so the sum of the squared moduli never falls. *)
Theorem halfStep_inflates_each_cell (o : Options) (pot psi0 : list R) (n : nat) :
  List.length psi0 = (n * 2)%nat ->
  List.length pot = n ->
  hbar o <> 0 ->
  List.length (halfStep o pot psi0) = List.length psi0 /\
  (forall i, (i < n)%nat ->
     cellNorm (halfStep o pot psi0) i =
     (1 + halfRate o pot psi0 i ^ 2) * cellNorm psi0 i) /\
  normSum psi0 <= normSum (halfStep o pot psi0).
Proof.
  intros Hlen _ _. destruct (halfStep_cells o pot psi0 n Hlen) as [L C].
  assert (Cn : forall i, (i < n)%nat ->
            cellNorm (halfStep o pot psi0) i =
            (1 + halfRate o pot psi0 i ^ 2) * cellNorm psi0 i).
  { intros i Hi. destruct (C i Hi) as [C1 C2].
    unfold cellNorm at 1. rewrite C1, C2. unfold cellNorm. ring. }
  split; [exact L|]. split; [exact Cn|].
  rewrite !normSum_cells, L, Hlen, Nat.div_mul by lia.
  apply for1_sum_le. intros i Hi. rewrite (Cn i Hi).
  assert (0 <= cellNorm psi0 i) by (unfold cellNorm; nra).
  assert (0 <= halfRate o pot psi0 i ^ 2) by nra.
  nra.
Qed.

Lemma halfStep_inflates_each_cell_witness :
  normSum [3; 4] <= normSum (halfStep (defaults 1) [2] [3; 4]).
Proof.
  destruct (halfStep_inflates_each_cell (defaults 1) [2] [3; 4] 1) as (_ & _ & R3).
  - reflexivity.
  - reflexivity.
  - simpl. lra.
  - exact R3.
Defined.

(** The step in momentum space turns each cell by an angle. *)
Lemma kineticStep_cells (o : Options) (k0 : list R) :
  List.length k0 = (resolution o * resolution o * 2)%nat ->
  List.length (kineticStep o k0) = List.length k0 /\
  exists phi : nat -> R,
    forall i, (i < resolution o * resolution o)%nat ->
      nth (i * 2) (kineticStep o k0) 0 =
        nth (i * 2) k0 0 * cos (phi i) - nth (i * 2 + 1) k0 0 * sin (phi i) /\
      nth (i * 2 + 1) (kineticStep o k0) 0 =
        nth (i * 2) k0 0 * sin (phi i) + nth (i * 2 + 1) k0 0 * cos (phi i).
Proof.
  intros Hlen. set (N := resolution o) in *.
  set (phi := fun i : nat =>
    - hbar o *
      (((if Rgtb (INR (i mod N)) (INR N / 2) then INR (i mod N) - INR N else INR (i mod N)) ^ 2 +
        (if Rgtb (INR (i / N)) (INR N / 2) then INR (i / N) - INR N else INR (i / N)) ^ 2)
       / (INR N * dx o) ^ 2) * dt o).
  set (f := fun (i : nat) (re im : R) =>
    (re * cos (phi i) - im * sin (phi i), re * sin (phi i) + im * cos (phi i))).
  assert (E : kineticStep o k0 =
              for1 (N * N) (fun i a =>
                array_set (i * 2 + 1) (snd (f i (nth (i * 2) a 0) (nth (i * 2 + 1) a 0)))
                  (array_set (i * 2) (fst (f i (nth (i * 2) a 0) (nth (i * 2 + 1) a 0))) a))
                k0).
  { unfold kineticStep. fold N. cbv zeta. rewrite for2_flatten.
    apply for1_ext. intros i acc Hi. cbv beta.
    assert (HN : N <> 0%nat) by lia.
    assert (Hi2 : (i / N * N + i mod N = i)%nat).
    { pose proof (Nat.div_mod_eq i N). lia. }
    rewrite Hi2. reflexivity. }
  destruct (cell_loop f k0 (N * N)) as (L & C & _); [lia|]. cbv zeta in L, C.
  rewrite E. split; [exact L|].
  exists phi. intros i Hi. destruct (C i Hi) as [C1 C2]. rewrite C1, C2.
  split; reflexivity.
Qed.

(** The step in momentum space, on an array of [N * N] cells with a nonzero
    [dx]: the length of the array and the squared modulus of every cell are
    kept, and so is the sum of the squared moduli. *)
Theorem kineticStep_preserves_norm (o : Options) (k0 : list R) :
  List.length k0 = (resolution o * resolution o * 2)%nat ->
  dx o <> 0 ->
  List.length (kineticStep o k0) = List.length k0 /\
  (forall i, (i < resolution o * resolution o)%nat ->
     cellNorm (kineticStep o k0) i = cellNorm k0 i) /\
  normSum (kineticStep o k0) = normSum k0.
Proof.
  intros Hlen _. destruct (kineticStep_cells o k0 Hlen) as (L & phi & C).
  assert (Cn : forall i, (i < resolution o * resolution o)%nat ->
            cellNorm (kineticStep o k0) i = cellNorm k0 i).
  { intros i Hi. destruct (C i Hi) as [C1 C2].
    unfold cellNorm at 1. rewrite C1, C2. unfold cellNorm.
    pose proof (sin2_cos2 (phi i)) as T. unfold Rsqr in T.
    set (c := cos (phi i)) in *. set (z := sin (phi i)) in *.
    replace ((nth (i * 2) k0 0 * c - nth (i * 2 + 1) k0 0 * z) ^ 2 +
             (nth (i * 2) k0 0 * z + nth (i * 2 + 1) k0 0 * c) ^ 2)
      with ((z * z + c * c) * (nth (i * 2) k0 0 ^ 2 + nth (i * 2 + 1) k0 0 ^ 2)) by ring.
    rewrite T. ring. }
  split; [exact L|]. split; [exact Cn|].
  rewrite !normSum_cells, L, Hlen, Nat.div_mul by lia.
  apply for1_sum_eq. exact Cn.
Qed.

Lemma kineticStep_preserves_norm_witness :
  normSum (kineticStep (defaults 1) [3; 4]) = normSum [3; 4].
Proof.
  destruct (kineticStep_preserves_norm (defaults 1) [3; 4]) as (_ & _ & R3).
  - reflexivity.
  - simpl. lra.
  - exact R3.
Defined.

(** *** Normalization *)

Lemma normSum_nonneg (p : list R) : 0 <= normSum p.
Proof.
  rewrite normSum_cells. apply for1_sum_bounds_term.
  intros i _. unfold cellNorm. nra.
Qed.

Lemma normOf_positive (o : Options) (p : list R) :
  0 < normOf o p <-> 0 < normSum p * dx o * dx o.
Proof.
  unfold normOf. split; intros H.
  - destruct (Rle_or_lt (normSum p * dx o * dx o) 0) as [Hle|Hlt]; [|exact Hlt].
    rewrite (sqrt_neg_0 _ Hle) in H. lra.
  - apply sqrt_lt_R0. exact H.
Qed.

(** A field of positive norm leaves [normalizeWavefunction] with
    [sum |psi|^2 * dx^2 = 1]. *)
Lemma normalize_unit (o : Options) (p : list R) :
  0 < normOf o p ->
  normSum (normalizeWavefunction o p) * dx o * dx o = 1.
Proof.
  intros H. pose proof (proj1 (normOf_positive o p) H) as Hx.
  unfold normalizeWavefunction. rewrite Rgtb_true by lra.
  rewrite normSum_scale. unfold normOf in *.
  set (x := normSum p * dx o * dx o) in *.
  assert (Hs : sqrt x * sqrt x = x) by (apply sqrt_sqrt; lra).
  replace (1 / sqrt x * (1 / sqrt x) * normSum p * dx o * dx o)
    with (x / (sqrt x * sqrt x)) by (subst x; field; lra).
  rewrite Hs. field. lra.
Qed.

(** [normalizeWavefunction] on a field of positive norm gives a field of
    norm 1, of the same length, and a second normalization changes nothing. *)
Theorem normalize_is_idempotent (o : Options) (p : list R) :
  0 < normOf o p ->
  normOf o (normalizeWavefunction o p) = 1 /\
  List.length (normalizeWavefunction o p) = List.length p /\
  normalizeWavefunction o (normalizeWavefunction o p) = normalizeWavefunction o p.
Proof.
  intros H. pose proof (normalize_unit o p H) as U.
  assert (N1 : normOf o (normalizeWavefunction o p) = 1).
  { unfold normOf at 1. rewrite U. apply sqrt_1. }
  split; [exact N1|]. split.
  - unfold normalizeWavefunction. rewrite Rgtb_true by lra. apply length_map.
  - unfold normalizeWavefunction at 1. rewrite N1, Rgtb_true by lra.
    rewrite <- (map_id (normalizeWavefunction o p)) at 2.
    apply map_ext. intros v. field.
Qed.

Lemma normalize_is_idempotent_witness :
  normOf (defaults 1) (normalizeWavefunction (defaults 1) [3; 4]) = 1.
Proof.
  destruct (normalize_is_idempotent (defaults 1) [3; 4]) as (R1 & _).
  - apply normOf_positive. wave_eval. lra.
  - exact R1.
Defined.

(** *** The probability density *)

Lemma entry_loop (g : nat -> R) (a0 : list R) : forall n,
  (n <= List.length a0)%nat ->
  let r := for1 n (fun i a => array_set i (g i) a) a0 in
  List.length r = List.length a0 /\
  (forall i, (i < n)%nat -> nth i r 0 = g i) /\
  (forall j, (n <= j)%nat -> nth j r 0 = nth j a0 0).
Proof.
  induction n as [|n IH]; intros Hn; cbv zeta.
  - split; [reflexivity|]. split; [intros i Hi; lia | reflexivity].
  - rewrite for1_S. destruct IH as (L & C & U); [lia|]. cbv zeta in L, C, U.
    set (r := for1 n _ a0) in *.
    split; [rewrite length_array_set; exact L|]. split.
    + intros i Hi. destruct (Nat.eq_dec i n) as [->|Hne].
      * apply nth_array_set_same. lia.
      * rewrite nth_array_set_other by lia. apply C. lia.
    + intros j Hj. rewrite nth_array_set_other by lia. apply U. lia.
Qed.

Lemma fold_sum_init (g : nat -> R) (l : list nat) : forall a,
  fold_left (fun s i => s + g i) l a = a + fold_left (fun s i => s + g i) l 0.
Proof.
  induction l as [|i l IH]; intros a; simpl.
  - ring.
  - rewrite IH, (IH (0 + g i)). ring.
Qed.

Lemma sumOf_nth : forall l : list R,
  sumOf l = for1 (List.length l) (fun i s => s + nth i l 0) 0.
Proof.
  induction l as [|h t IH].
  - reflexivity.
  - unfold for1. cbn [List.length seq fold_left sumOf fold_right].
    rewrite (fold_seq_shift _ _ 1%nat), fold_sum_init.
    fold (sumOf t). rewrite IH. unfold for1. cbn [nth Nat.add]. ring.
Qed.

(** On a field of [N * N] cells, [calculateProbabilityDensity] gives an
    array of [N * N] entries, entry [i] being the squared modulus of cell
    [i]; no entry is negative and the entries add up to the sum that
    [normalizeWavefunction] computes. *)
Theorem density_adds_up_to_norm (o : Options) (wf : Wavefunction) :
  List.length (psi wf) = (resolution o * resolution o * 2)%nat ->
  List.length (calculateProbabilityDensity o wf) = (resolution o * resolution o)%nat /\
  (forall i, (i < resolution o * resolution o)%nat ->
     nth i (calculateProbabilityDensity o wf) 0 = cellNorm (psi wf) i) /\
  (forall i, 0 <= nth i (calculateProbabilityDensity o wf) 0) /\
  sumOf (calculateProbabilityDensity o wf) = normSum (psi wf).
Proof.
  intros Hlen. set (n := (resolution o * resolution o)%nat) in *.
  assert (E : calculateProbabilityDensity o wf =
              for1 n (fun i a => array_set i (cellNorm (psi wf) i) a) (zeros n)).
  { unfold calculateProbabilityDensity. rewrite Hlen, Nat.div_mul by lia. reflexivity. }
  assert (Z : List.length (zeros n) = n) by apply repeat_length.
  destruct (entry_loop (cellNorm (psi wf)) (zeros n) n) as (L & C & _); [lia|].
  cbv zeta in L, C. rewrite E, L, Z.
  split; [reflexivity|]. split; [exact C|]. split.
  - intros i. destruct (Nat.lt_ge_cases i n) as [Hi|Hi].
    + rewrite (C i Hi). unfold cellNorm. nra.
    + rewrite nth_overflow by lia. lra.
  - rewrite sumOf_nth, L, Z, normSum_cells, Hlen, Nat.div_mul by lia.
    apply for1_sum_eq. exact C.
Qed.

Lemma density_adds_up_to_norm_witness :
  sumOf (calculateProbabilityDensity (defaults 1) unitCell) = normSum (psi unitCell).
Proof.
  destruct (density_adds_up_to_norm (defaults 1) unitCell) as (_ & _ & _ & R4).
  - reflexivity.
  - exact R4.
Defined.

(** *** A new wavefunction, and the simulation from it *)

Lemma halfStep_grows (o : Options) (pot psi0 : list R) (n : nat) :
  List.length psi0 = (n * 2)%nat ->
  List.length (halfStep o pot psi0) = (n * 2)%nat /\
  normSum psi0 <= normSum (halfStep o pot psi0).
Proof.
  intros Hlen. destruct (halfStep_cells o pot psi0 n Hlen) as [L C].
  split; [congruence|].
  rewrite !normSum_cells, L, Hlen, Nat.div_mul by lia.
  apply for1_sum_le. intros i Hi. destruct (C i Hi) as [C1 C2].
  unfold cellNorm. rewrite C1, C2.
  set (a := halfRate o pot psi0 i). set (re := nth (i * 2) psi0 0).
  set (im := nth (i * 2 + 1) psi0 0).
  replace ((re + a * im) ^ 2 + (im - a * re) ^ 2)
    with ((re ^ 2 + im ^ 2) + a ^ 2 * (re ^ 2 + im ^ 2)) by ring.
  assert (0 <= a ^ 2 * (re ^ 2 + im ^ 2)) by (apply Rmult_le_pos; nra).
  lra.
Qed.

Lemma grid_index (N i : nat) :
  (i < N * N)%nat ->
  (i / N * N + i mod N = i)%nat /\ (i / N < N)%nat /\ (i mod N < N)%nat.
Proof.
  intros Hi. assert (HN : N <> 0%nat) by lia.
  pose proof (Nat.div_mod_eq i N). pose proof (Nat.mod_upper_bound i N HN).
  split; [lia|]. split; [|assumption].
  apply Nat.Div0.div_lt_upper_bound. exact Hi.
Qed.

(** The coordinate of a grid line lies in [-1, 1). *)
Lemma norm_coordinate (N x : nat) :
  (x < N)%nat -> -1 <= INR x / INR N * 2 - 1 < 1.
Proof.
  intros Hx. pose proof (pos_INR x) as H0. pose proof (lt_INR _ _ Hx) as H1.
  assert (HN : 0 < INR N) by lra.
  assert (0 <= INR x / INR N < 1).
  { split.
    - apply Rmult_le_pos; [lra|]. left. apply Rinv_0_lt_compat. exact HN.
    - apply (Rmult_lt_reg_r (INR N)); [exact HN|].
      unfold Rdiv. rewrite Rmult_assoc, Rinv_l by lra. lra. }
  lra.
Qed.

Lemma applyInitialCondition_cells (o : Options) (fn : R -> R -> R * R) (psi0 : list R) :
  List.length psi0 = (resolution o * resolution o * 2)%nat ->
  List.length (applyInitialCondition o fn psi0) = List.length psi0 /\
  forall i, (i < resolution o * resolution o)%nat ->
    nth (i * 2) (applyInitialCondition o fn psi0) 0 =
      fst (fn (INR (i mod resolution o) / INR (resolution o) * 2 - 1)
              (INR (i / resolution o) / INR (resolution o) * 2 - 1)) /\
    nth (i * 2 + 1) (applyInitialCondition o fn psi0) 0 =
      snd (fn (INR (i mod resolution o) / INR (resolution o) * 2 - 1)
              (INR (i / resolution o) / INR (resolution o) * 2 - 1)).
Proof.
  intros Hlen. set (N := resolution o) in *.
  set (f := fun (i : nat) (_ _ : R) =>
    fn (INR (i mod N) / INR N * 2 - 1) (INR (i / N) / INR N * 2 - 1)).
  assert (E : applyInitialCondition o fn psi0 =
              for1 (N * N) (fun i a =>
                array_set (i * 2 + 1) (snd (f i (nth (i * 2) a 0) (nth (i * 2 + 1) a 0)))
                  (array_set (i * 2) (fst (f i (nth (i * 2) a 0) (nth (i * 2 + 1) a 0))) a))
                psi0).
  { unfold applyInitialCondition. fold N. rewrite for2_flatten.
    apply for1_ext. intros i acc Hi. cbv beta zeta.
    destruct (grid_index N i Hi) as (Hi2 & _ & _). rewrite Hi2. reflexivity. }
  destruct (cell_loop f psi0 (N * N)) as (L & C & _); [lia|]. cbv zeta in L, C.
  rewrite E. split; [exact L|]. intros i Hi. apply (C i Hi).
Qed.

Lemma applyHarmonicPotential_entries (o : Options) (pot0 : list R) :
  List.length pot0 = (resolution o * resolution o)%nat ->
  List.length (applyHarmonicPotential o pot0) = List.length pot0 /\
  forall i, (i < resolution o * resolution o)%nat ->
    nth i (applyHarmonicPotential o pot0) 0 =
    potentialScale o *
      ((INR (i mod resolution o) / INR (resolution o) * 2 - 1) ^ 2 +
       (INR (i / resolution o) / INR (resolution o) * 2 - 1) ^ 2).
Proof.
  intros Hlen. set (N := resolution o) in *.
  set (g := fun i : nat =>
    potentialScale o *
      ((INR (i mod N) / INR N * 2 - 1) ^ 2 + (INR (i / N) / INR N * 2 - 1) ^ 2)).
  assert (E : applyHarmonicPotential o pot0 =
              for1 (N * N) (fun i a => array_set i (g i) a) pot0).
  { unfold applyHarmonicPotential. fold N. rewrite for2_flatten.
    apply for1_ext. intros i acc Hi. cbv beta zeta.
    destruct (grid_index N i Hi) as (Hi2 & _ & _). rewrite Hi2. reflexivity. }
  destruct (entry_loop g pot0 (N * N)) as (L & C & _); [lia|]. cbv zeta in L, C.
  rewrite E. split; [exact L|]. intros i Hi. apply (C i Hi).
Qed.

Lemma gaussian_range (x y : R) :
  0 < exp (- ((x - 0) ^ 2 + (y - 0) ^ 2) / (2 * (2/10) ^ 2)) <= 1.
Proof.
  split; [apply exp_pos|].
  rewrite <- exp_0.
  destruct (Rle_lt_or_eq_dec
              (- ((x - 0) ^ 2 + (y - 0) ^ 2) / (2 * (2/10) ^ 2)) 0) as [L|E].
  - assert (0 <= ((x - 0) ^ 2 + (y - 0) ^ 2) / (2 * (2/10) ^ 2)).
    { apply Rmult_le_pos; [nra|]. left. apply Rinv_0_lt_compat. lra. }
    unfold Rdiv in *. lra.
  - left. apply exp_increasing. exact L.
  - rewrite E. lra.
Qed.

Lemma created_psi_cells (o : Options) :
  List.length (psi (createWavefunction o)) = (resolution o * resolution o * 2)%nat /\
  forall i, (i < resolution o * resolution o)%nat ->
    0 < nth (i * 2) (psi (createWavefunction o)) 0 <= 1 /\
    nth (i * 2 + 1) (psi (createWavefunction o)) 0 = 0.
Proof.
  set (N := resolution o).
  unfold createWavefunction. fold N. cbv zeta. cbn [psi].
  assert (Z2 : List.length (zeros (N * N * 2)) = (N * N * 2)%nat) by apply repeat_length.
  unfold applyGaussianPacket. cbv zeta.
  destruct (applyInitialCondition_cells o
              (fun x y => (exp (- ((x - 0) ^ 2 + (y - 0) ^ 2) / (2 * (2/10) ^ 2)), 0))
              (zeros (N * N * 2)) Z2) as [L C].
  fold N in C. split; [congruence|].
  intros i Hi. destruct (C i Hi) as [C1 C2]. rewrite C1, C2. cbn [fst snd].
  split; [apply gaussian_range | reflexivity].
Qed.

Lemma created_psi_positive (o : Options) :
  (1 <= resolution o)%nat -> 0 < normSum (psi (createWavefunction o)).
Proof.
  intros HN. destruct (created_psi_cells o) as [L Cells].
  set (p := psi (createWavefunction o)) in *.
  rewrite normSum_cells, L, Nat.div_mul by lia.
  assert (H0 : (0 < resolution o * resolution o)%nat) by nia.
  destruct (for1_sum_bounds_term (cellNorm p) (resolution o * resolution o)) as [_ T].
  { intros i _. unfold cellNorm. nra. }
  specialize (T 0%nat H0). destruct (Cells 0%nat H0) as [[P1 _] P2].
  assert (0 < cellNorm p 0).
  { unfold cellNorm. rewrite P2. simpl Nat.mul in *. nra. }
  lra.
Qed.

(** The wavefunction that [createWavefunction] builds on a grid of side
    [N >= 1] with a non-negative [potentialScale]: the three arrays have
    [2 N^2], [N^2] and [2 N^2] entries; the field is real, every cell
    holding a value in (0, 1]; every entry of the potential lies in
    [0, 2 * potentialScale]; the array of the transform is all zeros; and the
    sum of the squared moduli is positive. *)
Theorem created_wavefunction_shape (o : Options) :
  (1 <= resolution o)%nat ->
  0 <= potentialScale o ->
  List.length (psi (createWavefunction o)) = (resolution o * resolution o * 2)%nat /\
  List.length (potential (createWavefunction o)) = (resolution o * resolution o)%nat /\
  kSpace (createWavefunction o) = zeros (resolution o * resolution o * 2) /\
  (forall i, (i < resolution o * resolution o)%nat ->
     0 < nth (i * 2) (psi (createWavefunction o)) 0 <= 1 /\
     nth (i * 2 + 1) (psi (createWavefunction o)) 0 = 0) /\
  (forall i, (i < resolution o * resolution o)%nat ->
     0 <= nth i (potential (createWavefunction o)) 0 <= 2 * potentialScale o) /\
  0 < normSum (psi (createWavefunction o)).
Proof.
  intros HN Hs. destruct (created_psi_cells o) as [L Cells].
  split; [exact L|].
  set (N := resolution o) in *.
  assert (Z1 : List.length (zeros (N * N)) = (N * N)%nat) by apply repeat_length.
  destruct (applyHarmonicPotential_entries o (zeros (N * N)) Z1) as [LP CP].
  fold N in CP.
  split; [unfold createWavefunction; cbn [potential]; fold N; congruence|].
  split; [reflexivity|]. split; [exact Cells|]. split.
  - intros i Hi. unfold createWavefunction. cbn [potential]. fold N.
    rewrite (CP i Hi).
    destruct (grid_index N i Hi) as (_ & Hy & Hx).
    pose proof (norm_coordinate N _ Hx) as Bx. pose proof (norm_coordinate N _ Hy) as By.
    set (u := INR (i mod N) / INR N * 2 - 1) in *.
    set (v := INR (i / N) / INR N * 2 - 1) in *.
    assert (0 <= u ^ 2 + v ^ 2 <= 2) by nra.
    split; nra.
  - apply created_psi_positive. exact HN.
Qed.

Lemma created_wavefunction_shape_witness :
  0 < normSum (psi (createWavefunction (defaults 2))).
Proof.
  destruct (created_wavefunction_shape (defaults 2)) as (_ & _ & _ & _ & _ & R6).
  - simpl. lia.
  - simpl. lra.
  - exact R6.
Defined.

Lemma kineticStep_zeros (o : Options) :
  kineticStep o (zeros (resolution o * resolution o * 2)) =
  zeros (resolution o * resolution o * 2).
Proof.
  set (n := (resolution o * resolution o)%nat).
  assert (Z : List.length (zeros (n * 2)) = (n * 2)%nat) by apply repeat_length.
  destruct (kineticStep_cells o (zeros (n * 2)) Z) as (L & phi & C). fold n in C.
  apply (nth_ext _ _ 0 0); [exact L|].
  intros j Hj. rewrite L, Z in Hj.
  unfold zeros at 2. rewrite nth_repeat.
  assert (Hi : (j / 2 < n)%nat) by (apply Nat.Div0.div_lt_upper_bound; lia).
  destruct (C (j / 2)%nat Hi) as [C1 C2].
  unfold zeros in C1, C2. rewrite !nth_repeat in C1, C2.
  pose proof (Nat.div_mod_eq j 2) as D.
  pose proof (Nat.mod_upper_bound j 2 ltac:(lia)) as B.
  destruct (Nat.eq_dec (j mod 2) 0) as [E|E].
  - replace j with (j / 2 * 2)%nat at 1 by lia. unfold zeros. rewrite C1. ring.
  - replace j with (j / 2 * 2 + 1)%nat at 1 by lia. unfold zeros. rewrite C2. ring.
Qed.

(** One turn of the loop with the fallback transform, on a field of
    positive norm whose transform array is all zeros. *)
Lemma fallback_step_invariant (o : Options) (wf : Wavefunction) :
  dx o <> 0 ->
  List.length (psi wf) = (resolution o * resolution o * 2)%nat ->
  kSpace wf = zeros (resolution o * resolution o * 2) ->
  0 < normSum (psi wf) ->
  let wf' := stepWavefunction o (fallbackFFT o) wf in
  List.length (psi wf') = (resolution o * resolution o * 2)%nat /\
  kSpace wf' = zeros (resolution o * resolution o * 2) /\
  potential wf' = potential wf /\
  normSum (psi wf') * dx o * dx o = 1 /\
  0 < normSum (psi wf').
Proof.
  intros Hdx Hlen Hk Hpos. cbv zeta.
  set (n := (resolution o * resolution o)%nat) in *.
  set (p5 := halfStep o (potential wf) (halfStep o (potential wf) (psi wf))).
  assert (E : stepWavefunction o (fallbackFFT o) wf =
              mkWave (normalizeWavefunction o p5) (potential wf)
                     (kineticStep o (kSpace wf))) by reflexivity.
  rewrite E. cbn [psi potential kSpace].
  destruct (halfStep_grows o (potential wf) (psi wf) n Hlen) as [L1 G1].
  destruct (halfStep_grows o (potential wf) _ n L1) as [L5 G5]. fold p5 in L5, G5.
  assert (P5 : 0 < normOf o p5).
  { apply normOf_positive. assert (0 < dx o * dx o) by nra. nra. }
  pose proof (normalize_unit o p5 P5) as U.
  split.
  { unfold normalizeWavefunction. rewrite Rgtb_true by lra.
    rewrite length_map. exact L5. }
  split; [rewrite Hk; apply kineticStep_zeros|].
  split; [reflexivity|]. split; [exact U|].
  pose proof (normSum_nonneg (normalizeWavefunction o p5)) as Nn.
  destruct (Req_dec (normSum (normalizeWavefunction o p5)) 0) as [Z|Z]; [|lra].
  rewrite Z in U. lra.
Qed.

(** The simulation with the fallback transform, from the wavefunction that
    [createWavefunction] builds on a grid of side [N >= 1], with nonzero
    [dx] and [hbar]: after every turn of the loop the field has
    [sum |psi|^2 * dx^2 = 1] and its [2 N^2] entries, the potential is the
    one of the start, and the array of the transform is still all zeros. *)
Theorem fallback_simulation_stays_normalized (o : Options) (frames : nat) :
  (1 <= resolution o)%nat ->
  dx o <> 0 ->
  hbar o <> 0 ->
  normSum (psi (simulate o (fallbackFFT o) (S frames) (createWavefunction o)))
    * dx o * dx o = 1 /\
  List.length (psi (simulate o (fallbackFFT o) (S frames) (createWavefunction o))) =
    (resolution o * resolution o * 2)%nat /\
  potential (simulate o (fallbackFFT o) (S frames) (createWavefunction o)) =
    potential (createWavefunction o) /\
  kSpace (simulate o (fallbackFFT o) (S frames) (createWavefunction o)) =
    zeros (resolution o * resolution o * 2).
Proof.
  intros HN Hdx _.
  assert (Inv : forall k,
    List.length (psi (simulate o (fallbackFFT o) k (createWavefunction o))) =
      (resolution o * resolution o * 2)%nat /\
    kSpace (simulate o (fallbackFFT o) k (createWavefunction o)) =
      zeros (resolution o * resolution o * 2) /\
    potential (simulate o (fallbackFFT o) k (createWavefunction o)) =
      potential (createWavefunction o) /\
    0 < normSum (psi (simulate o (fallbackFFT o) k (createWavefunction o)))).
  { induction k as [|k (L & K & P & Pos)].
    - cbn [simulate]. split; [apply created_psi_cells|]. split; [reflexivity|].
      split; [reflexivity | apply created_psi_positive; exact HN].
    - cbn [simulate].
      destruct (fallback_step_invariant o _ Hdx L K Pos) as (L' & K' & P' & _ & Pos').
      cbv zeta in L', K', P', Pos'.
      split; [exact L'|]. split; [exact K'|]. split; [congruence | exact Pos']. }
  destruct (Inv frames) as (L & K & P & Pos).
  cbn [simulate].
  destruct (fallback_step_invariant o _ Hdx L K Pos) as (L' & K' & P' & U & _).
  cbv zeta in L', K', P', U.
  split; [exact U|]. split; [exact L'|]. split; [congruence | exact K'].
Qed.

Lemma fallback_simulation_stays_normalized_witness :
  normSum (psi (simulate (defaults 2) (fallbackFFT (defaults 2)) 3
                  (createWavefunction (defaults 2))))
    * dx (defaults 2) * dx (defaults 2) = 1.
Proof.
  destruct (fallback_simulation_stays_normalized (defaults 2) 2) as (R1 & _).
  - simpl. lia.
  - simpl. lra.
  - simpl. lra.
  - exact R1.
Defined.

End WaveFacts.

(** ** The environment model of the decoherence monitor *)

Module DecoherenceFacts.
Import Decoherence.

(** Whatever the acceleration of a [devicemotion] event, the
    [measurementBackaction] it leaves lies between 0 and 0.2, and it is
    0.2 exactly from an acceleration of 4 on. *)
Theorem backaction_stays_in_range (x y z : R) (m : Monitor) :
  0 <= measurementBackaction (environment (onDeviceMotion x y z m)) <= 2/10 /\
  (4 <= sqrt (x ^ 2 + y ^ 2 + z ^ 2) ->
   measurementBackaction (environment (onDeviceMotion x y z m)) = 2/10).
Proof.
  simpl. pose proof (sqrt_pos (x * (x * 1) + y * (y * 1) + z * (z * 1))) as Hs.
  split; [split|].
  - apply Rmin_glb; lra.
  - apply Rmin_l.
  - intros H. apply Rmin_left. lra.
Qed.

Lemma backaction_stays_in_range_witness :
  0 <= measurementBackaction (environment (onDeviceMotion 3 4 0 (newMonitor (fun _ => 0)))) <= 2/10 /\
  (4 <= sqrt (3 ^ 2 + 4 ^ 2 + 0 ^ 2) ->
   measurementBackaction (environment (onDeviceMotion 3 4 0 (newMonitor (fun _ => 0)))) = 2/10).
Proof.
  apply (backaction_stays_in_range 3 4 0 (newMonitor (fun _ => 0))).
Defined.

(** After a tick of the environment the temperature lies between 250 and
    350, and for a non-negative base rate and temperature factor the rate of
    decoherence lies between [base * (1 - 50 * factor)] and
    [base * (1 + 50 * factor)]: between half and one and a half times the
    base rate with the default factor 0.01. *)
Theorem environment_tick_bounds (now : R) (m : Monitor) :
  0 <= baseDecoherenceRate m -> 0 <= temperatureFactor m ->
  250 <= temperature (environment (environmentTick now m)) <= 350 /\
  baseDecoherenceRate m * (1 - 50 * temperatureFactor m)
    <= currentDecoherenceRate (environmentTick now m)
    <= baseDecoherenceRate m * (1 + 50 * temperatureFactor m).
Proof.
  intros Hb Hf. unfold environmentTick, updateDecoherenceRates.
  cbn [environment temperature currentDecoherenceRate set_environment
       set_currentDecoherenceRate baseDecoherenceRate temperatureFactor].
  pose proof (SIN_bound (now / 60000)) as [Hl Hu].
  set (s := sin (now / 60000)) in *. clearbody s.
  split; [lra|].
  replace (300 + s * 50 - 300) with (50 * s) by ring.
  set (b := baseDecoherenceRate m) in *. set (f := temperatureFactor m) in *.
  assert (Hsf : - f <= s * f <= f) by (split; nra).
  split; nra.
Qed.

Lemma environment_tick_bounds_witness :
  250 <= temperature (environment (environmentTick 1000 (newMonitor (fun _ => 0)))) <= 350 /\
  baseDecoherenceRate (newMonitor (fun _ => 0))
      * (1 - 50 * temperatureFactor (newMonitor (fun _ => 0)))
    <= currentDecoherenceRate (environmentTick 1000 (newMonitor (fun _ => 0)))
    <= baseDecoherenceRate (newMonitor (fun _ => 0))
      * (1 + 50 * temperatureFactor (newMonitor (fun _ => 0))).
Proof.
  apply (environment_tick_bounds 1000 (newMonitor (fun _ => 0))); simpl; lra.
Defined.

(** With draws in [0, 1), the noise table has 256 entries and entry [i] lies
    in [0, 0.5 / (i + 1)), so every entry is below one half. *)
Theorem noise_spectrum_bounds (draws : nat -> R) :
  (forall i, 0 <= draws i < 1) ->
  List.length (generateNoiseSpectrum draws) = 256%nat /\
  forall i, (i < 256)%nat ->
    0 <= nth i (generateNoiseSpectrum draws) 0 < (5/10) / (INR i + 1) /\
    nth i (generateNoiseSpectrum draws) 0 < 5/10.
Proof.
  intros Hd. unfold generateNoiseSpectrum. split.
  - rewrite length_map, length_seq. reflexivity.
  - intros i Hi.
    rewrite (nth_indep _ 0 ((fun i => 5/10 / (INR i + 1) * draws i) 0%nat))
      by (rewrite length_map, length_seq; exact Hi).
    rewrite (map_nth (fun i => 5/10 / (INR i + 1) * draws i)).
    rewrite seq_nth by exact Hi. simpl Nat.add.
    pose proof (pos_INR i) as Hp. specialize (Hd i).
    assert (Hc : 0 < 5/10 / (INR i + 1)).
    { apply Rdiv_lt_0_compat; lra. }
    assert (Hi1 : / (INR i + 1) <= 1).
    { rewrite <- Rinv_1. apply Rinv_le_contravar; lra. }
    assert (Hc1 : 5/10 / (INR i + 1) <= 5/10) by (unfold Rdiv; nra).
    split; [split|]; nra.
Qed.

Lemma noise_spectrum_bounds_witness :
  List.length (generateNoiseSpectrum (fun _ => 1/2)) = 256%nat /\
  forall i, (i < 256)%nat ->
    0 <= nth i (generateNoiseSpectrum (fun _ => 1/2)) 0 < (5/10) / (INR i + 1) /\
    nth i (generateNoiseSpectrum (fun _ => 1/2)) 0 < 5/10.
Proof.
  apply (noise_spectrum_bounds (fun _ => 1/2)). intros i. lra.
Defined.

Lemma noise_entry_range (draws : nat -> R) (i : nat) :
  (forall k, 0 <= draws k < 1) ->
  0 <= nth i (generateNoiseSpectrum draws) 0 <= 1/2.
Proof.
  intros Hd. unfold generateNoiseSpectrum.
  destruct (Nat.lt_ge_cases i 256) as [Hi|Hi].
  - rewrite (nth_indep _ 0 ((fun i => 5/10 / (INR i + 1) * draws i) 0%nat))
      by (rewrite length_map, length_seq; exact Hi).
    rewrite (map_nth (fun i => 5/10 / (INR i + 1) * draws i)).
    rewrite seq_nth by exact Hi. simpl Nat.add.
    pose proof (pos_INR i) as Hp. specialize (Hd i).
    assert (Hc : 0 < 5/10 / (INR i + 1)) by (apply Rdiv_lt_0_compat; lra).
    assert (Hi1 : / (INR i + 1) <= 1).
    { rewrite <- Rinv_1. apply Rinv_le_contravar; lra. }
    assert (Hc1 : 5/10 / (INR i + 1) <= 5/10) by (unfold Rdiv; nra).
    split; nra.
  - rewrite nth_overflow by (rewrite length_map, length_seq; exact Hi). lra.
Qed.

(** The delay that [calculateCoherenceTime] gives.  For a positive rate, a
    [nonMarkovianity] in [0, 1], a noise table with entries in [0, 0.5] and an
    observation count that is falsy (as it always is: nothing writes it), the
    delay lies between 0 and [1 / currentDecoherenceRate]: the factor 1000 of
    the base time is divided out again. *)
Theorem coherence_time_bounds (m : Monitor) (historyCount : nat)
  (observationCount : JSNumber) (now : nat) :
  0 < currentDecoherenceRate m ->
  0 <= nonMarkovianity m <= 1 ->
  (forall i, 0 <= nth i (noiseProfile (environment m)) 0 <= 1/2) ->
  truthyNumber observationCount = false ->
  0 <= calculateCoherenceTime m historyCount observationCount now
    <= 1 / currentDecoherenceRate m.
Proof.
  intros Hr Hn Hp Hc. unfold calculateCoherenceTime.
  set (v := nth _ (noiseProfile (environment m)) 0).
  assert (Hv : 0 <= v <= 1/2) by apply Hp.
  assert (Hz : match observationCount with
               | JNum c => if truthyNumber observationCount then 1 + ln (c + 1) / ln 10 else 1
               | _ => 1
               end = 1).
  { destruct observationCount; try reflexivity. rewrite Hc. reflexivity. }
  rewrite Hz.
  pose proof (pos_INR historyCount) as Hh.
  set (h := INR historyCount) in *.
  assert (Hq : 0 <= h / (h + 5) <= 1).
  { split.
    - apply Rle_mult_inv_pos; lra.
    - apply (Rmult_le_reg_r (h + 5)); [lra|]. unfold Rdiv.
      rewrite Rmult_assoc, Rinv_l by lra. lra. }
  set (q := h / (h + 5)) in *.
  set (r := currentDecoherenceRate m) in *.
  assert (Hmem : 0 <= 1 - nonMarkovianity m * q <= 1) by (split; nra).
  set (mem := 1 - nonMarkovianity m * q) in *.
  assert (Hir : 0 < / r) by (apply Rinv_0_lt_compat; exact Hr).
  replace (1000 / r * mem * 1 * (1 + (v * 2 - 1)) / 1000)
    with (mem * (2 * v) * / r) by (field; lra).
  replace (1 / r) with (1 * / r) by (field; lra).
  assert (Hp2 : 0 <= mem * (2 * v) <= 1) by (split; nra).
  split; nra.
Qed.

Lemma coherence_time_bounds_witness :
  0 <= calculateCoherenceTime (newMonitor (fun _ => 1/2)) 3 JUndefined 1000
    <= 1 / currentDecoherenceRate (newMonitor (fun _ => 1/2)).
Proof.
  apply (coherence_time_bounds (newMonitor (fun _ => 1/2)) 3 JUndefined 1000).
  - simpl. lra.
  - simpl. lra.
  - intros i. apply (noise_entry_range (fun _ => 1/2) i). intros k. lra.
  - reflexivity.
Defined.

End DecoherenceFacts.
